(** * Token manager: the lease repository over its Redis store

    A shallow embedding of [internal/repositories] (TokenRepository) of
    manankarani/token-manager, with the constants of [constants] it uses, the
    service ([internal/services]) and the handlers ([internal/handlers]) that
    call it, and the cleanup worker ([internal/workers]).

    Modelling decisions, all taken from the source:
    - the store holds two Redis sets ([token_pool], [assigned_tokens]), one
      sorted set ([keepalive_tokens]) and the string keys used as locks,
      which carry an expiry instant (SETNX with a TTL);
    - timestamps are Unix seconds ([time.Now().Unix()]), scores are those
      seconds converted to float64 and back, counters are Go [int]s bounded
      by the number of tokens: all are integers far inside the exact range
      of both int64 and float64, and are modelled in [Z];
    - every Redis call whose [err] the source inspects takes a flag telling
      whether that call fails; a call that fails has not been applied to the
      store (a transaction fails entirely or succeeds entirely); so does
      the DEL whose answer AssignToken discards, which then leaves the lock
      key in place;
    - [time.Now()], the member chosen by SPOP and the id drawn by uuid.New()
      are inputs of the calls;
    - the two goroutines of cleanupExpiredTokens share the store: their runs
      are given sweep by sweep ([schedule]) and call by call ([interleave]),
      and the two are related below; two AssignToken at once are given call
      by call ([assign_interleave]);
    - a handler returns what it passes to c.JSON; what the binding of the
      request left in [req.Token] is an input of the handler;
    - the worker's select receives a list of events, each tick with the
      inputs of the cleanup it starts. *)

From stdpp Require Import gmap strings list fin_sets fin_maps.
From Stdlib Require Import ZArith Lia.

Local Open Scope Z_scope.

(* set_solver clears hypotheses it has already consumed *)
#[local] Set Warnings "-clear-no-such-hyp".

(** ** constants *)

Inductive error :=
  | ErrNoAvailableTokens
  | ErrTokenNotFound
  | ErrTokenNotAssigned
  | ErrFailedKeepAlive
  | ErrTokenAlreadyInUse
  | ErrRedis                                  (* an error returned by the client *)
  | Wrapped (msg : string) (cause : error).   (* fmt.Errorf("msg: %w", cause) *)

#[global] Instance error_eq_dec : EqDecision error.
Proof. solve_decision. Defined.

Inductive SetKey := KeyTokenPool | KeyAssignedTokens.
Inductive ZSetKey := KeyKeepaliveTokens.

#[global] Instance SetKey_eq_dec : EqDecision SetKey.
Proof. solve_decision. Defined.

Definition key_name (k : SetKey) : string :=
  match k with
  | KeyTokenPool => "token_pool"
  | KeyAssignedTokens => "assigned_tokens"
  end.

Definition PrefixLockKey : string := "lock".
Definition LockValue : string := "locked".

Definition TokenLockTime : Z := 60.
Definition TokenAutoReleaseTime : Z := 60.
Definition TokenDeletionTime : Z := 5 * 60.
Definition TokenCleanupInterval : Z := 10.

(** ** the Redis store *)

Record Redis := mkRedis {
  token_pool : gset string;
  assigned_tokens : gset string;
  keepalive_tokens : gmap string Z;
  (* string keys set by SETNX: key |-> (value, instant at which it expires) *)
  lock_keys : gmap string (string * Z)
}.

Definition empty_store : Redis := mkRedis ∅ ∅ ∅ ∅.

Definition get_set (k : SetKey) (r : Redis) : gset string :=
  match k with
  | KeyTokenPool => token_pool r
  | KeyAssignedTokens => assigned_tokens r
  end.

Definition put_set (k : SetKey) (X : gset string) (r : Redis) : Redis :=
  match k with
  | KeyTokenPool =>
      mkRedis X (assigned_tokens r) (keepalive_tokens r) (lock_keys r)
  | KeyAssignedTokens =>
      mkRedis (token_pool r) X (keepalive_tokens r) (lock_keys r)
  end.

Definition put_zset (m : gmap string Z) (r : Redis) : Redis :=
  mkRedis (token_pool r) (assigned_tokens r) m (lock_keys r).

Definition put_locks (l : gmap string (string * Z)) (r : Redis) : Redis :=
  mkRedis (token_pool r) (assigned_tokens r) (keepalive_tokens r) l.

(** The write commands a pipeline can queue; each answers the number of
    members it added or removed (redis.IntCmd). *)
Inductive command :=
  | SAdd (k : SetKey) (member : string)
  | SRem (k : SetKey) (member : string)
  | ZAdd (k : ZSetKey) (score : Z) (member : string)
  | ZRem (k : ZSetKey) (member : string).

Definition count_if (b : bool) : Z := if b then 1 else 0.

Definition apply (c : command) (r : Redis) : Redis * Z :=
  match c with
  | SAdd k member =>
      (put_set k ({[member]} ∪ get_set k r) r,
       count_if (bool_decide (member ∉ get_set k r)))
  | SRem k member =>
      (put_set k (get_set k r ∖ {[member]}) r,
       count_if (bool_decide (member ∈ get_set k r)))
  | ZAdd KeyKeepaliveTokens score member =>
      (put_zset (<[member := score]> (keepalive_tokens r)) r,
       count_if (bool_decide (keepalive_tokens r !! member = None)))
  | ZRem KeyKeepaliveTokens member =>
      (put_zset (delete member (keepalive_tokens r)) r,
       count_if (bool_decide (is_Some (keepalive_tokens r !! member))))
  end.

(** MULTI/EXEC: the queued commands applied in order, with their answers. *)
Fixpoint apply_all (pipe : list command) (r : Redis) : Redis * list Z :=
  match pipe with
  | [] => (r, [])
  | c :: pipe' =>
      let '(r1, n) := apply c r in
      let '(r2, ns) := apply_all pipe' r1 in
      (r2, n :: ns)
  end.

(** What a call answers: a value, redis.Nil, or another error. *)
Inductive reply (A : Type) :=
  | Val (a : A)
  | Nil
  | Fail.
Arguments Val {A} a.
Arguments Nil {A}.
Arguments Fail {A}.

(** Calls on the client thread the store. *)
Definition St (A : Type) : Type := Redis → Redis * A.

#[global] Instance St_ret : MRet St := λ A a r, (r, a).
#[global] Instance St_bind : MBind St :=
  λ A B k c r, let '(r1, a) := c r in k a r1.

Definition call (fails : bool) (c : command) : St (reply Z) :=
  λ r, if fails then (r, Fail) else let '(r1, n) := apply c r in (r1, Val n).

Definition SIsMember (fails : bool) (k : SetKey) (member : string)
  : St (reply bool) :=
  λ r, if fails then (r, Fail)
       else (r, Val (bool_decide (member ∈ get_set k r))).

(** SMEMBERS: the members in the order the store lists them. *)
Definition SMembers (fails : bool) (k : SetKey) : St (reply (list string)) :=
  λ r, if fails then (r, Fail) else (r, Val (elements (get_set k r))).

(** SPOP removes some member; [pick] is the store's choice when it is a
    member, and any member is removed otherwise. redis.Nil on an empty set. *)
Definition spop_choice (pick : string) (X : gset string) : option string :=
  if bool_decide (pick ∈ X) then Some pick else head (elements X).

Definition SPop (fails : bool) (k : SetKey) (pick : string)
  : St (reply string) :=
  λ r, if fails then (r, Fail)
       else match spop_choice pick (get_set k r) with
            | None => (r, Nil)
            | Some member =>
                (put_set k (get_set k r ∖ {[member]}) r, Val member)
            end.

Definition ZScore (fails : bool) (k : ZSetKey) (member : string)
  : St (reply Z) :=
  λ r, if fails then (r, Fail)
       else match keepalive_tokens r !! member with
            | None => (r, Nil)
            | Some score => (r, Val score)
            end.

(** A string key is there until its expiry instant. *)
Definition key_live (now : Z) (key : string) (r : Redis) : bool :=
  match lock_keys r !! key with
  | Some (_, expires) => bool_decide (now < expires)
  | None => false
  end.

(** SET key value NX EX ttl, at the instant [now]. *)
Definition SetNX (fails : bool) (now : Z) (key value : string) (ttl : Z)
  : St (reply bool) :=
  λ r, if fails then (r, Fail)
       else if key_live now key r then (r, Val false)
       else (put_locks (<[key := (value, now + ttl)]> (lock_keys r)) r,
             Val true).

(** DEL key. The source discards its answer, so a DEL that fails shows
    only in the store: the key is still there. *)
Definition Del (fails : bool) (key : string) : St unit :=
  λ r, if fails then (r, tt)
       else (put_locks (delete key (lock_keys r)) r, tt).

(** Exec of a transaction. It may fail whatever the pipeline holds; the
    client answers an empty pipeline without a round trip, so these are at
    least the runs of the program. *)
Definition Exec (fails : bool) (pipe : list command) : St (reply (list Z)) :=
  λ r, if fails then (r, Fail)
       else let '(r1, ns) := apply_all pipe r in (r1, Val ns).

(** Which of the calls issued by one repository call fail. *)
Record Faults := mkFaults {
  sadd_fails : bool;
  zadd_fails : bool;
  spop_fails : bool;
  setnx_fails : bool;
  sismember_fails : SetKey → bool;
  smembers_fails : bool;
  zscore_fails : string → bool;       (* by the member asked for *)
  exec_fails : bool;
  del_fails : bool
}.

Definition no_faults : Faults :=
  mkFaults false false false false (λ _, false) false (λ _, false) false
    false.

(** ** the repository *)

Inductive result (A : Type) :=
  | Ok (a : A)
  | Err (e : error).
Arguments Ok {A} a.
Arguments Err {A} e.

(** SaveToken adds a new token to the available pool. *)
Definition SaveToken (f : Faults) (now : Z) (token : string)
  : St (option error) :=
  added ← call (sadd_fails f) (SAdd KeyTokenPool token);
  match added with
  | Val _ =>
      (* Initialize token in keepalive with current time *)
      scored ← call (zadd_fails f) (ZAdd KeyKeepaliveTokens now token);
      match scored with
      | Val _ => mret None
      | _ => mret (Some (Wrapped "failed to initialize token keepalive" ErrRedis))
      end
  | _ => mret (Some (Wrapped "failed to save token" ErrRedis))
  end.

(** TokenService.GenerateToken: [uuid] is what uuid.New() returned. *)
Definition GenerateToken (f : Faults) (now : Z) (uuid : string)
  : St (string * option error) :=
  err ← SaveToken f now uuid;
  mret (uuid, err).

Definition lock_key (token : string) : string :=
  PrefixLockKey +:+ ":" +:+ token.

Definition AssignToken (f : Faults) (now : Z) (pick : string)
  : St (result string) :=
  (* Fetch a token from the pool *)
  popped ← SPop (spop_fails f) KeyTokenPool pick;
  match popped with
  | Nil => mret (Err ErrNoAvailableTokens)
  | Fail => mret (Err ErrRedis)
  | Val token =>
      (* Try acquiring a lock on the token *)
      let lockKey := lock_key token in
      success ← SetNX (setnx_fails f) now lockKey LockValue TokenLockTime;
      match success with
      | Val true =>
          (* Move token to assigned state *)
          let pipe := [SAdd KeyAssignedTokens token;
                       ZAdd KeyKeepaliveTokens (now + 60) token] in
          done ← Exec (exec_fails f) pipe;
          match done with
          | Val _ => mret (Ok token)
          | _ =>
              (* Rollback the lock if the transaction fails *)
              _ ← Del (del_fails f) lockKey;
              mret (Err ErrRedis)
          end
      | Val false => mret (Err ErrTokenAlreadyInUse)
      | _ => mret (Err ErrRedis)
      end
  end.

(** KeepAlive extends the lifetime of a token. *)
Definition KeepAlive (f : Faults) (now : Z) (token : string)
  : St (option error) :=
  inPool ← SIsMember (sismember_fails f KeyTokenPool) KeyTokenPool token;
  match inPool with
  | Val inPool =>
      inAssigned ← SIsMember (sismember_fails f KeyAssignedTokens)
                     KeyAssignedTokens token;
      match inAssigned with
      | Val inAssigned =>
          if negb inPool && negb inAssigned then mret (Some ErrTokenNotFound)
          else
            (* Update keepalive timestamp *)
            scored ← call (zadd_fails f)
                       (ZAdd KeyKeepaliveTokens (now + TokenAutoReleaseTime) token);
            match scored with
            | Val _ => mret None
            | _ => mret (Some ErrFailedKeepAlive)
            end
      | _ => mret (Some (Wrapped "failed to check token in assigned" ErrRedis))
      end
  | _ => mret (Some (Wrapped "failed to check token in pool" ErrRedis))
  end.

(** CleanupResult holds statistics about token cleanup. *)
Record CleanupResult := mkCleanupResult {
  TokensReleased : Z;
  TokensDeleted : Z;
  ProcessingError : option error
}.

Definition released_incr (c : CleanupResult) : CleanupResult :=
  mkCleanupResult (TokensReleased c + 1) (TokensDeleted c) (ProcessingError c).
Definition deleted_incr (c : CleanupResult) : CleanupResult :=
  mkCleanupResult (TokensReleased c) (TokensDeleted c + 1) (ProcessingError c).
Definition with_error (e : error) (c : CleanupResult) : CleanupResult :=
  mkCleanupResult (TokensReleased c) (TokensDeleted c) (Some e).

(** The loop of cleanupAssignedTokens over the tokens it fetched: it queues
    commands on [pipe] and counts in [result]. *)
Fixpoint assigned_loop (f : Faults) (releaseBefore deleteBefore : Z)
    (tokens : list string) (pipe : list command) (result : CleanupResult)
  : St (list command * CleanupResult) :=
  match tokens with
  | [] => mret (pipe, result)
  | token :: tokens' =>
      expiry ← ZScore (zscore_fails f token) KeyKeepaliveTokens token;
      match expiry with
      | Nil =>
          (* Token with no keepalive record should be deleted *)
          assigned_loop f releaseBefore deleteBefore tokens'
            (pipe ++ [SRem KeyAssignedTokens token;
                      ZRem KeyKeepaliveTokens token])
            (deleted_incr result)
      | Fail =>
          assigned_loop f releaseBefore deleteBefore tokens' pipe result
      | Val expiryTime =>
          if bool_decide (expiryTime ≤ deleteBefore) then
            (* Delete tokens inactive for 5+ minutes *)
            assigned_loop f releaseBefore deleteBefore tokens'
              (pipe ++ [SRem KeyAssignedTokens token;
                        ZRem KeyKeepaliveTokens token])
              (deleted_incr result)
          else if bool_decide (expiryTime ≤ releaseBefore) then
            (* Release tokens inactive for 60+ seconds but less than 5 minutes *)
            assigned_loop f releaseBefore deleteBefore tokens'
              (pipe ++ [SRem KeyAssignedTokens token;
                        SAdd KeyTokenPool token])
              (released_incr result)
          else
            assigned_loop f releaseBefore deleteBefore tokens' pipe result
      end
  end.

Definition empty_result : CleanupResult := mkCleanupResult 0 0 None.

(** cleanupAssignedTokens handles cleanup of assigned tokens. *)
Definition cleanupAssignedTokens (f : Faults) (releaseBefore deleteBefore : Z)
  : St CleanupResult :=
  let result := empty_result in
  assignedTokens ← SMembers (smembers_fails f) KeyAssignedTokens;
  match assignedTokens with
  | Val assignedTokens =>
      if bool_decide (length assignedTokens = 0%nat) then mret result
      else
        '(pipe, result) ← assigned_loop f releaseBefore deleteBefore
                            assignedTokens [] result;
        (* Execute Redis transaction *)
        done ← Exec (exec_fails f) pipe;
        match done with
        | Val _ => mret result
        | _ => mret (with_error
                       (Wrapped "failed to execute cleanup for assigned tokens"
                          ErrRedis) result)
        end
  | _ => mret (with_error (Wrapped "failed to fetch assigned tokens" ErrRedis)
                 result)
  end.

(** The loop of cleanupPoolTokens; [inl result] when it returns from the
    function on a failed read. *)
Fixpoint pool_loop (f : Faults) (deleteBefore : Z)
    (tokens : list string) (pipe : list command) (result : CleanupResult)
  : St (CleanupResult + list command * CleanupResult) :=
  match tokens with
  | [] => mret (inr (pipe, result))
  | token :: tokens' =>
      (* Check if token has received a keepalive in the last 5 minutes *)
      expiry ← ZScore (zscore_fails f token) KeyKeepaliveTokens token;
      match expiry with
      | Nil =>
          pool_loop f deleteBefore tokens'
            (pipe ++ [SRem KeyTokenPool token]) (deleted_incr result)
      | Val expiry =>
          if bool_decide (expiry ≤ deleteBefore) then
            pool_loop f deleteBefore tokens'
              (pipe ++ [SRem KeyTokenPool token;
                        ZRem KeyKeepaliveTokens token])
              (deleted_incr result)
          else pool_loop f deleteBefore tokens' pipe result
      | Fail =>
          mret (inl (with_error
                       (Wrapped ("failed to fetch expiry for token " +:+ token)
                          ErrRedis) result))
      end
  end.

(** cleanupPoolTokens handles cleanup of tokens in the pool. *)
Definition cleanupPoolTokens (f : Faults) (deleteBefore : Z)
  : St CleanupResult :=
  let result := empty_result in
  poolTokens ← SMembers (smembers_fails f) KeyTokenPool;
  match poolTokens with
  | Val poolTokens =>
      if bool_decide (length poolTokens = 0%nat) then mret result
      else
        scanned ← pool_loop f deleteBefore poolTokens [] result;
        match scanned with
        | inl result => mret result
        | inr (pipe, result) =>
            (* Execute Redis transaction *)
            done ← Exec (exec_fails f) pipe;
            match done with
            | Val _ => mret result
            | _ => mret (with_error
                           (Wrapped "failed to execute cleanup for pool tokens"
                              ErrRedis) result)
            end
        end
  | _ => mret (with_error (Wrapped "failed to fetch pool tokens" ErrRedis)
                 result)
  end.

(** The order in which the two goroutines of cleanupExpiredTokens run, each
    sweep taken as a whole; it is also the order of their sends on
    resultChan. *)
Inductive schedule := AssignedThenPool | PoolThenAssigned.

(** The loop that collects resultChan. *)
Definition collect (result res : CleanupResult) : CleanupResult :=
  mkCleanupResult
    (TokensReleased result + TokensReleased res)
    (TokensDeleted result + TokensDeleted res)
    (match ProcessingError res, ProcessingError result with
     | Some e, None => Some e
     | _, kept => kept
     end).

(** The two goroutines: what they leave on resultChan. *)
Definition run_sweeps (sched : schedule) (fa fp : Faults)
    (releaseBefore deleteBefore : Z) : St (list CleanupResult) :=
  match sched with
  | AssignedThenPool =>
      a ← cleanupAssignedTokens fa releaseBefore deleteBefore;
      p ← cleanupPoolTokens fp deleteBefore;
      mret [a; p]
  | PoolThenAssigned =>
      p ← cleanupPoolTokens fp deleteBefore;
      a ← cleanupAssignedTokens fa releaseBefore deleteBefore;
      mret [p; a]
  end.

(** What the assigned sweep and the pool sweep each return in that run. *)
Definition sweep_results (sched : schedule) (fa fp : Faults)
    (releaseBefore deleteBefore : Z) (r : Redis)
  : CleanupResult * CleanupResult :=
  match sched with
  | AssignedThenPool =>
      let '(r1, a) := cleanupAssignedTokens fa releaseBefore deleteBefore r in
      (a, (cleanupPoolTokens fp deleteBefore r1).2)
  | PoolThenAssigned =>
      let '(r1, p) := cleanupPoolTokens fp deleteBefore r in
      ((cleanupAssignedTokens fa releaseBefore deleteBefore r1).2, p)
  end.

(** cleanupExpiredTokens performs the actual cleanup work and returns
    statistics. *)
Definition cleanupExpiredTokens (sched : schedule) (fa fp : Faults) (now : Z)
  : St CleanupResult :=
  let releaseBefore := now - TokenAutoReleaseTime in
  let deleteBefore := now - TokenDeletionTime in
  resultChan ← run_sweeps sched fa fp releaseBefore deleteBefore;
  mret (foldl collect empty_result resultChan).

(** CleanupExpiredTokens checks for and handles expired tokens. *)
Definition CleanupExpiredTokens (sched : schedule) (fa fp : Faults) (now : Z)
  : St (result (gmap string Z)) :=
  result ← cleanupExpiredTokens sched fa fp now;
  match ProcessingError result with
  | Some e => mret (Err e)
  | None =>
      mret (Ok (<[key_name KeyTokenPool := TokensDeleted result]>
                  (<[key_name KeyAssignedTokens := TokensReleased result]> ∅)))
  end.

(** *** the two goroutines, one store call at a time

    Where a goroutine of cleanupExpiredTokens stands: before its SMEMBERS,
    inside its loop (the tokens left, the pipeline and the counts so far;
    with no token left its next call is the Exec), before its send on
    resultChan, or done. *)
Inductive task :=
  | Fetching
  | Scanning (tokens : list string) (pipe : list command)
      (result : CleanupResult)
  | Sending (result : CleanupResult)
  | Exited.

(** The next store call of the goroutine running cleanupAssignedTokens. *)
Definition assigned_step (f : Faults) (releaseBefore deleteBefore : Z)
    (k : task) : St task :=
  match k with
  | Fetching =>
      assignedTokens ← SMembers (smembers_fails f) KeyAssignedTokens;
      match assignedTokens with
      | Val assignedTokens =>
          if bool_decide (length assignedTokens = 0%nat)
          then mret (Sending empty_result)
          else mret (Scanning assignedTokens [] empty_result)
      | _ => mret (Sending (with_error
                              (Wrapped "failed to fetch assigned tokens"
                                 ErrRedis) empty_result))
      end
  | Scanning (token :: tokens') pipe result =>
      '(pipe, result) ← assigned_loop f releaseBefore deleteBefore [token]
                          pipe result;
      mret (Scanning tokens' pipe result)
  | Scanning [] pipe result =>
      done ← Exec (exec_fails f) pipe;
      match done with
      | Val _ => mret (Sending result)
      | _ => mret (Sending (with_error
                              (Wrapped
                                 "failed to execute cleanup for assigned tokens"
                                 ErrRedis) result))
      end
  | Sending _ => mret Exited
  | Exited => mret Exited
  end.

(** The next store call of the goroutine running cleanupPoolTokens. *)
Definition pool_step (f : Faults) (deleteBefore : Z) (k : task) : St task :=
  match k with
  | Fetching =>
      poolTokens ← SMembers (smembers_fails f) KeyTokenPool;
      match poolTokens with
      | Val poolTokens =>
          if bool_decide (length poolTokens = 0%nat)
          then mret (Sending empty_result)
          else mret (Scanning poolTokens [] empty_result)
      | _ => mret (Sending (with_error
                              (Wrapped "failed to fetch pool tokens" ErrRedis)
                              empty_result))
      end
  | Scanning (token :: tokens') pipe result =>
      scanned ← pool_loop f deleteBefore [token] pipe result;
      match scanned with
      | inl result => mret (Sending result)
      | inr (pipe, result) => mret (Scanning tokens' pipe result)
      end
  | Scanning [] pipe result =>
      done ← Exec (exec_fails f) pipe;
      match done with
      | Val _ => mret (Sending result)
      | _ => mret (Sending (with_error
                              (Wrapped
                                 "failed to execute cleanup for pool tokens"
                                 ErrRedis) result))
      end
  | Sending _ => mret Exited
  | Exited => mret Exited
  end.

(** What a goroutine puts on resultChan when it takes its turn. *)
Definition sent (k : task) : list CleanupResult :=
  match k with
  | Sending result => [result]
  | _ => []
  end.

(** The assigned goroutine, the pool goroutine, resultChan. *)
Definition goroutines : Type := task * task * list CleanupResult.

(** One turn: the assigned goroutine ([true]) or the pool goroutine. *)
Definition turn (fa fp : Faults) (releaseBefore deleteBefore : Z)
    (assigned_turn : bool) (g : goroutines) : St goroutines :=
  let '(ka, kp, resultChan) := g in
  if assigned_turn then
    ka' ← assigned_step fa releaseBefore deleteBefore ka;
    mret (ka', kp, resultChan ++ sent ka)
  else
    kp' ← pool_step fp deleteBefore kp;
    mret (ka, kp', resultChan ++ sent kp).

Fixpoint interleave (fa fp : Faults) (releaseBefore deleteBefore : Z)
    (turns : list bool) (g : goroutines) : St goroutines :=
  match turns with
  | [] => mret g
  | b :: turns' =>
      g' ← turn fa fp releaseBefore deleteBefore b g;
      interleave fa fp releaseBefore deleteBefore turns' g'
  end.

(** A goroutine run from where it stands to its end, without the other in
    between: what it still sends. *)
Definition assigned_rest (f : Faults) (releaseBefore deleteBefore : Z)
    (k : task) : St (list CleanupResult) :=
  match k with
  | Fetching =>
      result ← cleanupAssignedTokens f releaseBefore deleteBefore;
      mret [result]
  | Scanning tokens pipe result =>
      '(pipe, result) ← assigned_loop f releaseBefore deleteBefore tokens
                          pipe result;
      k' ← assigned_step f releaseBefore deleteBefore (Scanning [] pipe result);
      mret (sent k')
  | Sending result => mret [result]
  | Exited => mret []
  end.

Definition pool_rest (f : Faults) (deleteBefore : Z) (k : task)
  : St (list CleanupResult) :=
  match k with
  | Fetching =>
      result ← cleanupPoolTokens f deleteBefore;
      mret [result]
  | Scanning tokens pipe result =>
      scanned ← pool_loop f deleteBefore tokens pipe result;
      match scanned with
      | inl result => mret [result]
      | inr (pipe, result) =>
          k' ← pool_step f deleteBefore (Scanning [] pipe result);
          mret (sent k')
      end
  | Sending result => mret [result]
  | Exited => mret []
  end.

(** cleanupExpiredTokens with its goroutines interleaved call by call:
    [turns] says whose call comes next; when it is used up the assigned
    goroutine runs to its end, then the pool goroutine (wg.Wait), and the
    results are collected in the order they were sent. *)
Definition cleanupExpiredTokens_interleaved (turns : list bool)
    (fa fp : Faults) (now : Z) : St CleanupResult :=
  let releaseBefore := now - TokenAutoReleaseTime in
  let deleteBefore := now - TokenDeletionTime in
  '(ka, kp, resultChan) ← interleave fa fp releaseBefore deleteBefore turns
                            (Fetching, Fetching, []);
  a ← assigned_rest fa releaseBefore deleteBefore ka;
  p ← pool_rest fp deleteBefore kp;
  mret (foldl collect empty_result (resultChan ++ a ++ p)).

(** DeleteToken permanently removes a token from all pools. *)
Definition DeleteToken (f : Faults) (token : string) : St (option error) :=
  let pipe := [SRem KeyTokenPool token;
               SRem KeyAssignedTokens token;
               ZRem KeyKeepaliveTokens token] in
  result ← Exec (exec_fails f) pipe;
  match result with
  | Val result =>
      (* Check if any key was actually removed *)
      let affected := existsb (λ n, bool_decide (0 < n)) result in
      if negb affected then mret (Some ErrTokenNotFound) else mret None
  | _ => mret (Some (Wrapped "failed to delete token" ErrRedis))
  end.

(** UnblockToken moves a token from assigned back to the available pool. *)
Definition UnblockToken (f : Faults) (now : Z) (token : string)
  : St (option error) :=
  exists_ ← SIsMember (sismember_fails f KeyAssignedTokens)
              KeyAssignedTokens token;
  match exists_ with
  | Val true =>
      let pipe := [SRem KeyAssignedTokens token;
                   SAdd KeyTokenPool token;   (* Move back to pool *)
                   ZAdd KeyKeepaliveTokens (now + TokenAutoReleaseTime) token] in
      done ← Exec (exec_fails f) pipe;
      match done with
      | Val _ => mret None
      | _ => mret (Some (Wrapped "failed to unblock token" ErrRedis))
      end
  | Val false => mret (Some ErrTokenNotAssigned)
  | _ => mret (Some (Wrapped "failed to check if token is assigned" ErrRedis))
  end.

(** GetAvailableTokens returns all tokens in the pool. *)
Definition GetAvailableTokens (f : Faults) : St (result (list string)) :=
  tokens ← SMembers (smembers_fails f) KeyTokenPool;
  match tokens with
  | Val tokens => mret (Ok tokens)
  | _ => mret (Err (Wrapped "failed to get available tokens" ErrRedis))
  end.

(** The loop of GetAssignedTokensWithExpiry filling expiryMap. *)
Fixpoint expiry_loop (f : Faults) (now : Z) (tokens : list string)
    (expiryMap : gmap string Z) : St (result (gmap string Z)) :=
  match tokens with
  | [] => mret (Ok expiryMap)
  | token :: tokens' =>
      expiry ← ZScore (zscore_fails f token) KeyKeepaliveTokens token;
      match expiry with
      | Nil =>
          (* No expiry info available *)
          expiry_loop f now tokens' (<[token := -1]> expiryMap)
      | Fail =>
          mret (Err (Wrapped ("failed to get expiry for token " +:+ token)
                       ErrRedis))
      | Val expiry =>
          let remaining := Z.max (expiry - now) (-1) in
          expiry_loop f now tokens' (<[token := remaining]> expiryMap)
      end
  end.

(** GetAssignedTokensWithExpiry returns assigned tokens with their remaining
    time. *)
Definition GetAssignedTokensWithExpiry (f : Faults) (now : Z)
  : St (result (gmap string Z)) :=
  tokens ← SMembers (smembers_fails f) KeyAssignedTokens;
  match tokens with
  | Val tokens => expiry_loop f now tokens ∅
  | _ => mret (Err (Wrapped "failed to get assigned tokens" ErrRedis))
  end.

(** ** the repository as a transition system *)

(** One completed call of the repository, with the inputs that decide it. *)
Inductive operation :=
  | Generate (f : Faults) (now : Z) (uuid : string)
  | Assign (f : Faults) (now : Z) (pick : string)
  | Renew (f : Faults) (now : Z) (token : string)
  | Unblock (f : Faults) (now : Z) (token : string)
  | Delete (f : Faults) (token : string)
  | Reconcile (sched : schedule) (fa fp : Faults) (now : Z)
  | ListAvailable (f : Faults)
  | ListAssigned (f : Faults) (now : Z).

Definition perform (o : operation) (r : Redis) : Redis :=
  match o with
  | Generate f now uuid => (GenerateToken f now uuid r).1
  | Assign f now pick => (AssignToken f now pick r).1
  | Renew f now token => (KeepAlive f now token r).1
  | Unblock f now token => (UnblockToken f now token r).1
  | Delete f token => (DeleteToken f token r).1
  | Reconcile sched fa fp now => (CleanupExpiredTokens sched fa fp now r).1
  | ListAvailable f => (GetAvailableTokens f r).1
  | ListAssigned f now => (GetAssignedTokensWithExpiry f now r).1
  end.

(** Generate draws a universally unique id: one that is not the id of a
    token the store holds. Every other call is always possible. *)
Definition admissible (o : operation) (r : Redis) : Prop :=
  match o with
  | Generate _ _ uuid =>
      (uuid ∉ token_pool r) ∧ (uuid ∉ assigned_tokens r)
  | _ => True
  end.

(** The stores reached from the empty one by completed calls. *)
Inductive reachable : Redis → Prop :=
  | reachable_empty : reachable empty_store
  | reachable_perform o r :
      reachable r → admissible o r → reachable (perform o r).

(** The state of a token, read off the two sets. *)
Definition Available (r : Redis) (token : string) : Prop :=
  token ∈ token_pool r.
Definition Assigned (r : Redis) (token : string) : Prop :=
  token ∈ assigned_tokens r.
Definition Absent (r : Redis) (token : string) : Prop :=
  (token ∉ token_pool r) ∧ (token ∉ assigned_tokens r).

(** I1: no token is both available and assigned. *)
Definition I1 (r : Redis) : Prop := token_pool r ## assigned_tokens r.

(** The deadline ListAssigned reports for a token of a store. *)
Definition remaining_lease (now : Z) (r : Redis) (token : string) : Z :=
  match keepalive_tokens r !! token with
  | Some deadline => Z.max (deadline - now) (-1)
  | None => -1
  end.

(** ** the service

    TokenService hands every call to the repository; GenerateToken, above,
    draws the id first. *)
Module TokenService.

Definition AssignToken (f : Faults) (now : Z) (pick : string)
  : St (result string) :=
  AssignToken f now pick.

Definition KeepTokenAlive (f : Faults) (now : Z) (token : string)
  : St (option error) :=
  KeepAlive f now token.

Definition DeleteToken (f : Faults) (token : string) : St (option error) :=
  DeleteToken f token.

Definition UnblockToken (f : Faults) (now : Z) (token : string)
  : St (option error) :=
  UnblockToken f now token.

Definition GetAvailableTokens (f : Faults) : St (result (list string)) :=
  GetAvailableTokens f.

Definition GetAssignedTokensWithExpiry (f : Faults) (now : Z)
  : St (result (gmap string Z)) :=
  GetAssignedTokensWithExpiry f now.

Definition CleanupExpiredTokens (sched : schedule) (fa fp : Faults) (now : Z)
  : St (result (gmap string Z)) :=
  CleanupExpiredTokens sched fa fp now.

End TokenService.

(** ** the handlers *)

(** err.Error(): the text of the custom errors, [client] for the text of an
    error returned by the Redis client, and fmt.Errorf's "msg: %w". *)
Fixpoint Error (client : string) (e : error) : string :=
  match e with
  | ErrNoAvailableTokens => "no available tokens in pool"
  | ErrTokenNotFound => "token not found in any pool"
  | ErrTokenNotAssigned => "token not found in assigned tokens"
  | ErrFailedKeepAlive => "failed to keep token alive"
  | ErrTokenAlreadyInUse => "token already in use"
  | ErrRedis => client
  | Wrapped msg cause => msg +:+ ": " +:+ Error client cause
  end.

(** The values the handlers put in a gin.H. *)
Inductive json :=
  | JString (s : string)
  | JStrings (l : list string)
  | JCounts (m : gmap string Z).

(** What c.JSON writes: the status code and the gin.H, which has one key in
    every handler. *)
Record Response := mkResponse {
  code : Z;
  h_key : string;
  h_value : json
}.

Definition StatusOK : Z := 200.
Definition StatusBadRequest : Z := 400.
Definition StatusNotFound : Z := 404.
Definition StatusInternalServerError : Z := 500.

Module TokenHandler.

Definition GenerateToken (f : Faults) (now : Z) (uuid : string)
  : St Response :=
  '(token, err) ← GenerateToken f now uuid;
  match err with
  | Some _ =>
      mret (mkResponse StatusInternalServerError "error"
              (JString "Failed to generate token"))
  | None => mret (mkResponse StatusOK "token" (JString token))
  end.

Definition AssignToken (client : string) (f : Faults) (now : Z)
    (pick : string) : St Response :=
  assigned ← TokenService.AssignToken f now pick;
  match assigned with
  | Err err =>
      if bool_decide (Error client err = Error client ErrNoAvailableTokens)
      then mret (mkResponse StatusNotFound "error"
                   (JString (Error client ErrNoAvailableTokens)))
      else mret (mkResponse StatusInternalServerError "error"
                   (JString "Failed to assign token"))
  | Ok token => mret (mkResponse StatusOK "token" (JString token))
  end.

(** [req] is what c.ShouldBindUri left in req.Token, [None] when it
    returned an error. *)
Definition KeepAlive (req : option string) (f : Faults) (now : Z)
  : St Response :=
  match req with
  | None => mret (mkResponse StatusBadRequest "error" (JString "Invalid token"))
  | Some token =>
      err ← TokenService.KeepTokenAlive f now token;
      match err with
      | Some _ =>
          mret (mkResponse StatusInternalServerError "error"
                  (JString "Failed to keep token alive"))
      | None => mret (mkResponse StatusOK "message" (JString "Token kept alive"))
      end
  end.

(** [req] is what ctx.ShouldBindJSON left in req.Token, [None] when it
    returned an error. *)
Definition DeleteToken (req : option string) (f : Faults) : St Response :=
  match req with
  | None =>
      mret (mkResponse StatusBadRequest "error" (JString "Invalid request"))
  | Some token =>
      err ← TokenService.DeleteToken f token;
      match err with
      | Some _ =>
          mret (mkResponse StatusInternalServerError "error"
                  (JString "Failed to delete token"))
      | None =>
          mret (mkResponse StatusOK "message"
                  (JString "Token deleted successfully"))
      end
  end.

Definition UnblockToken (req : option string) (f : Faults) (now : Z)
  : St Response :=
  match req with
  | None =>
      mret (mkResponse StatusBadRequest "error" (JString "Invalid request"))
  | Some token =>
      err ← TokenService.UnblockToken f now token;
      match err with
      | Some _ =>
          mret (mkResponse StatusInternalServerError "error"
                  (JString "Failed to unblock token"))
      | None =>
          mret (mkResponse StatusOK "message"
                  (JString "Token unblocked successfully"))
      end
  end.

Definition GetAvailableTokens (f : Faults) : St Response :=
  tokens ← TokenService.GetAvailableTokens f;
  match tokens with
  | Err _ =>
      mret (mkResponse StatusInternalServerError "error"
              (JString "Failed to fehandlerh available tokens"))
  | Ok tokens => mret (mkResponse StatusOK "available_tokens" (JStrings tokens))
  end.

Definition GetAssignedTokens (f : Faults) (now : Z) : St Response :=
  tokens ← TokenService.GetAssignedTokensWithExpiry f now;
  match tokens with
  | Err _ => mret (mkResponse StatusInternalServerError "error" (JString EmptyString))
  | Ok tokens => mret (mkResponse StatusOK "assigned_tokens" (JCounts tokens))
  end.

Definition CleanupExpiredTokens (sched : schedule) (fa fp : Faults) (now : Z)
  : St Response :=
  tokens ← TokenService.CleanupExpiredTokens sched fa fp now;
  match tokens with
  | Err _ => mret (mkResponse StatusInternalServerError "error" (JString EmptyString))
  | Ok tokens => mret (mkResponse StatusOK "cleaned_up" (JCounts tokens))
  end.

End TokenHandler.

(** ** the cleanup worker *)

(** What the select of the worker's loop receives: a tick, with the inputs
    of the cleanup it starts, or the cancellation of the context. *)
Inductive event (E : Type) :=
  | Tick (e : E)
  | Done.
Arguments Tick {E} e.
Arguments Done {E}.

Inductive log_line :=
  | LogInfo (msg : string)
  | LogError (msg : string) (error : string).

(** The loop of StartCleanupWorker over what it receives; when [events] is
    used up the worker is blocked in its select. *)
Fixpoint worker_loop {E : Type} (client : string)
    (cleanupFunc : E → St (result (gmap string Z)))
    (events : list (event E)) (log : list log_line) : St (list log_line) :=
  match events with
  | [] => mret log
  | Tick e :: events' =>
      cleaned ← cleanupFunc e;
      match cleaned with
      | Err err =>
          worker_loop client cleanupFunc events'
            (log ++ [LogError "Error cleaning expired tokens"
                       (Error client err)])
      | Ok _ => worker_loop client cleanupFunc events' log
      end
  | Done :: _ => mret (log ++ [LogInfo "Cleanup worker stopping..."])
  end.

(** StartCleanupWorker periodically removes expired tokens. *)
Definition StartCleanupWorker {E : Type} (client : string)
    (cleanupFunc : E → St (result (gmap string Z)))
    (events : list (event E)) : St (list log_line) :=
  worker_loop client cleanupFunc events [LogInfo "Cleanup worker started"].

(** The inputs of one run of CleanupExpiredTokens: the order of the sweeps,
    the failing calls of each, the current time. *)
Definition cleanup_inputs : Type := schedule * Faults * Faults * Z.

(** tokenService.CleanupExpiredTokens as the worker calls it. *)
Definition run_cleanup (e : cleanup_inputs) : St (result (gmap string Z)) :=
  let '(sched, fa, fp, now) := e in
  TokenService.CleanupExpiredTokens sched fa fp now.

(** The worker as main starts it, on tokenService.CleanupExpiredTokens. *)
Definition cleanup_worker (client : string)
    (events : list (event cleanup_inputs)) : St (list log_line) :=
  StartCleanupWorker client run_cleanup events.

(** ** AssignToken call by call

    The handlers run concurrently, so the calls of two AssignToken
    interleave. Where one AssignToken stands: before its SPOP, before its
    SETNX, before the Exec of its transaction, before the DEL that rolls the
    lock back, or returned. *)
Inductive assigning :=
  | Popping
  | Locking (token : string)
  | Publishing (token : string)
  | RollingBack (token : string)
  | Returned (res : result string).

(** The next call of an AssignToken. *)
Definition assign_step (f : Faults) (now : Z) (pick : string) (k : assigning)
  : St assigning :=
  match k with
  | Popping =>
      popped ← SPop (spop_fails f) KeyTokenPool pick;
      match popped with
      | Nil => mret (Returned (Err ErrNoAvailableTokens))
      | Fail => mret (Returned (Err ErrRedis))
      | Val token => mret (Locking token)
      end
  | Locking token =>
      success ← SetNX (setnx_fails f) now (lock_key token) LockValue
                  TokenLockTime;
      match success with
      | Val true => mret (Publishing token)
      | Val false => mret (Returned (Err ErrTokenAlreadyInUse))
      | _ => mret (Returned (Err ErrRedis))
      end
  | Publishing token =>
      let pipe := [SAdd KeyAssignedTokens token;
                   ZAdd KeyKeepaliveTokens (now + 60) token] in
      done ← Exec (exec_fails f) pipe;
      match done with
      | Val _ => mret (Returned (Ok token))
      | _ => mret (RollingBack token)
      end
  | RollingBack token =>
      _ ← Del (del_fails f) (lock_key token);
      mret (Returned (Err ErrRedis))
  | Returned res => mret (Returned res)
  end.

(** The inputs of one AssignToken: its failing calls, the current time, the
    choice of its SPOP. *)
Definition assign_inputs : Type := Faults * Z * string.

(** Two AssignToken at once: [turns] says whose call comes next, the first
    one's ([true]) or the second one's. *)
Fixpoint assign_interleave (a b : assign_inputs) (turns : list bool)
    (ks : assigning * assigning) : St (assigning * assigning) :=
  match turns with
  | [] => mret ks
  | first :: turns' =>
      let '(ka, kb) := ks in
      if first then
        ka' ← assign_step a.1.1 a.1.2 a.2 ka;
        assign_interleave a b turns' (ka', kb)
      else
        kb' ← assign_step b.1.1 b.1.2 b.2 kb;
        assign_interleave a b turns' (ka, kb')
  end.

(** * Properties *)

Ltac unfold_st :=
  unfold mbind, St_bind, mret, St_ret, call, SIsMember, SMembers, SPop,
    ZScore, SetNX, Del, Exec in *.

Lemma store_eq (r r' : Redis) :
  token_pool r = token_pool r' →
  assigned_tokens r = assigned_tokens r' →
  keepalive_tokens r = keepalive_tokens r' →
  lock_keys r = lock_keys r' →
  r = r'.
Proof. destruct r, r'; simpl; congruence. Qed.

Lemma St_bind_run {A B} (c : St A) (k : A → St B) (r : Redis) :
  (c ≫= k) r = k (c r).2 (c r).1.
Proof. unfold mbind, St_bind. by destruct (c r). Qed.

(** ** the listing calls *)

Section Listing.
Variables (f : Faults) (now : Z).

Lemma expiry_loop_store tokens expiryMap r :
  (expiry_loop f now tokens expiryMap r).1 = r.
Proof.
  revert expiryMap; induction tokens as [|t ts IH]; intros m; simpl; [done|].
  unfold_st. destruct (zscore_fails f t); [done|].
  destruct (keepalive_tokens r !! t); simpl; apply IH.
Qed.

Lemma expiry_loop_Ok tokens r expiryMap m :
  (expiry_loop f now tokens expiryMap r).2 = Ok m →
  ∀ t, m !! t = if decide (t ∈ tokens)
                then Some (remaining_lease now r t) else expiryMap !! t.
Proof.
  revert expiryMap; induction tokens as [|t ts IH]; intros m0; simpl.
  - intros [= <-] u. destruct (decide (u ∈ [])) as [Hin|]; [|done].
    by apply elem_of_nil in Hin.
  - unfold_st. destruct (zscore_fails f t); [done|].
    unfold remaining_lease.
    destruct (keepalive_tokens r !! t) as [d|] eqn:Hd; simpl;
      intros Hm u; rewrite (IH _ Hm u); clear IH Hm;
      destruct (decide (u ∈ ts)) as [Hin|Hin];
      destruct (decide (u ∈ t :: ts)) as [Hin'|Hin'];
      try done; try (exfalso; set_solver).
    all: destruct (decide (u = t)) as [->|Hne]; try (exfalso; set_solver).
    all: first [ by rewrite lookup_insert_ne
               | rewrite lookup_insert_eq; unfold remaining_lease;
                 by rewrite Hd ].
Qed.

Lemma expiry_loop_total tokens r expiryMap :
  (∀ t, zscore_fails f t = false) →
  ∃ m, (expiry_loop f now tokens expiryMap r).2 = Ok m.
Proof.
  intros Hf. revert expiryMap.
  induction tokens as [|t ts IH]; intros m0; simpl; [by eexists|].
  unfold_st. rewrite Hf.
  destruct (keepalive_tokens r !! t); simpl; apply IH.
Qed.
End Listing.

Lemma GetAvailableTokens_store (f : Faults) (r : Redis) :
  (GetAvailableTokens f r).1 = r.
Proof. unfold GetAvailableTokens. unfold_st. by destruct (smembers_fails f). Qed.

Lemma GetAssignedTokensWithExpiry_store (f : Faults) (now : Z) (r : Redis) :
  (GetAssignedTokensWithExpiry f now r).1 = r.
Proof.
  unfold GetAssignedTokensWithExpiry. unfold_st.
  destruct (smembers_fails f); [done|]. apply expiry_loop_store.
Qed.

(** C10. ListAvailable (GetAvailableTokens) and ListAssigned
    (GetAssignedTokensWithExpiry) are read-only: whatever they answer, the
    store they leave is the store they found, so the available pool, the
    assigned set and the keepalive index are unchanged. *)
Theorem listing_is_read_only (f : Faults) (now : Z) (r : Redis) :
  let after_available := (GetAvailableTokens f r).1 in
  let after_assigned := (GetAssignedTokensWithExpiry f now r).1 in
  (token_pool after_available = token_pool r
   ∧ assigned_tokens after_available = assigned_tokens r
   ∧ keepalive_tokens after_available = keepalive_tokens r)
  ∧ (token_pool after_assigned = token_pool r
     ∧ assigned_tokens after_assigned = assigned_tokens r
     ∧ keepalive_tokens after_assigned = keepalive_tokens r)
  ∧ after_available = r ∧ after_assigned = r.
Proof.
  simpl.
  by rewrite GetAvailableTokens_store, GetAssignedTokensWithExpiry_store.
Qed.

(** C7. For every token of the assigned set, the map ListAssigned returns
    holds deadline - now when the token has a keepalive entry and
    deadline - now > -1, and -1 when it has no entry or deadline - now <= -1;
    no value of the map is below -1. A map is returned whenever no read
    fails. *)
Theorem ListAssigned_remaining_lease (f : Faults) (now : Z) (r : Redis) :
  (smembers_fails f = false → (∀ t, zscore_fails f t = false) →
   ∃ m, (GetAssignedTokensWithExpiry f now r).2 = Ok m)
  ∧ ∀ m, (GetAssignedTokensWithExpiry f now r).2 = Ok m →
      (∀ t, t ∈ assigned_tokens r →
         match keepalive_tokens r !! t with
         | Some deadline =>
             if decide (deadline - now > -1)
             then m !! t = Some (deadline - now)
             else m !! t = Some (-1)
         | None => m !! t = Some (-1)
         end)
      ∧ (∀ t v, m !! t = Some v → -1 ≤ v)
      ∧ dom m = assigned_tokens r.
Proof.
  unfold GetAssignedTokensWithExpiry. unfold_st. split.
  - intros -> Hz. by apply expiry_loop_total.
  - intros m. destruct (smembers_fails f); [done|]. intros Hm.
    pose proof (expiry_loop_Ok f now _ r ∅ m Hm) as Hl. clear Hm.
    assert (Hin : ∀ t, t ∈ assigned_tokens r →
                       m !! t = Some (remaining_lease now r t)).
    { intros t Ht. rewrite Hl. simpl. rewrite decide_True; [done|].
      by apply elem_of_elements. }
    split; [|split].
    + intros t Ht. specialize (Hin t Ht). unfold remaining_lease in Hin.
      destruct (keepalive_tokens r !! t) as [d|]; [|done].
      case_decide; rewrite Hin; f_equal; lia.
    + intros t v. rewrite Hl. case_decide; [|by rewrite lookup_empty].
      intros [= <-]. unfold remaining_lease.
      destruct (keepalive_tokens r !! t); lia.
    + apply set_eq. intros t. rewrite elem_of_dom, Hl. simpl.
      case_decide as Ht.
      * split; [|by eauto]. intros _. by apply elem_of_elements in Ht.
      * rewrite lookup_empty. split; [by intros [? ?]|].
        intros Ht'. by apply elem_of_elements in Ht'.
Qed.

(** ** Delete *)

Lemma DeleteToken_exec (f : Faults) (token : string) (r : Redis) :
  exec_fails f = false →
  DeleteToken f token r =
    (mkRedis (token_pool r ∖ {[token]}) (assigned_tokens r ∖ {[token]})
       (delete token (keepalive_tokens r)) (lock_keys r),
     if bool_decide (token ∈ token_pool r)
        || bool_decide (token ∈ assigned_tokens r)
        || bool_decide (is_Some (keepalive_tokens r !! token))
     then None else Some ErrTokenNotFound).
Proof.
  intros Hf. unfold DeleteToken. unfold_st. rewrite Hf. simpl.
  f_equal. unfold count_if.
  repeat case_bool_decide; simpl; try done; repeat case_bool_decide; done.
Qed.

Lemma DeleteToken_fails (f : Faults) (token : string) (r : Redis) :
  exec_fails f = true →
  DeleteToken f token r =
    (r, Some (Wrapped "failed to delete token" ErrRedis)).
Proof. intros Hf. unfold DeleteToken. unfold_st. by rewrite Hf. Qed.

(** C6. Delete returns success exactly when removing the token from the
    available pool, the assigned set and the keepalive index changed one of
    them, that is, when the transaction ran and the token was in one of the
    three; on a token absent from all three it never returns success, and
    returns TokenNotFound whenever the store answers. *)
Theorem Delete_succeeds_iff_removed (f : Faults) (token : string) (r : Redis) :
  let r' := (DeleteToken f token r).1 in
  let err := (DeleteToken f token r).2 in
  (err = None ↔
     token_pool r' ≠ token_pool r
     ∨ assigned_tokens r' ≠ assigned_tokens r
     ∨ keepalive_tokens r' ≠ keepalive_tokens r)
  ∧ (err = None ↔
       exec_fails f = false
       ∧ (token ∈ token_pool r ∨ token ∈ assigned_tokens r
          ∨ is_Some (keepalive_tokens r !! token)))
  ∧ (token ∉ token_pool r → token ∉ assigned_tokens r →
     keepalive_tokens r !! token = None →
     err ≠ None ∧ (exec_fails f = false → err = Some ErrTokenNotFound)).
Proof.
  simpl. destruct (exec_fails f) eqn:Hf.
  - rewrite (DeleteToken_fails f token r Hf). simpl.
    split; [|split]; [split; [done|intros [?|[?|?]]; done]
                     |split; [done|by intros [? _]] |done].
  - rewrite (DeleteToken_exec f token r Hf). simpl.
    assert (Hp : token_pool r ∖ {[token]} ≠ token_pool r ↔ token ∈ token_pool r).
    { split; [|set_solver]. intros Hne.
      destruct (decide (token ∈ token_pool r)); [done|].
      exfalso. apply Hne. set_solver. }
    assert (Ha : assigned_tokens r ∖ {[token]} ≠ assigned_tokens r
                 ↔ token ∈ assigned_tokens r).
    { split; [|set_solver]. intros Hne.
      destruct (decide (token ∈ assigned_tokens r)); [done|].
      exfalso. apply Hne. set_solver. }
    assert (Hk : delete token (keepalive_tokens r) ≠ keepalive_tokens r
                 ↔ is_Some (keepalive_tokens r !! token)).
    { split.
      - intros Hne. destruct (keepalive_tokens r !! token) eqn:E; [by eauto|].
        exfalso. apply Hne. by apply delete_id.
      - intros [d Hd] Heq.
        assert (delete token (keepalive_tokens r) !! token = Some d)
          by (by rewrite Heq).
        by rewrite lookup_delete_eq in H. }
    rewrite Hp, Ha, Hk.
    repeat case_bool_decide; simpl;
      (split; [|split]; [naive_solver | naive_solver |]);
      intros ? ? Hnone; try done;
      match goal with
      | H : is_Some _ |- _ => rewrite Hnone in H; by destruct H
      | _ => done
      end.
Qed.

(** C9. A token that is in neither set but still has a keepalive entry is
    deleted with success, not TokenNotFound, and its keepalive entry is gone
    afterwards (the store answering the transaction). *)
Theorem Delete_orphan_succeeds (f : Faults) (token : string) (r : Redis) :
  exec_fails f = false →
  token ∉ token_pool r → token ∉ assigned_tokens r →
  is_Some (keepalive_tokens r !! token) →
  (DeleteToken f token r).2 = None
  ∧ keepalive_tokens (DeleteToken f token r).1 !! token = None.
Proof.
  intros Hf Hp Ha Hk. rewrite (DeleteToken_exec f token r Hf). simpl.
  split; [|apply lookup_delete_eq].
  rewrite (bool_decide_eq_true_2 _ Hk). by rewrite orb_true_r.
Qed.

(** ** Assign *)

Lemma spop_choice_elem (pick token : string) (X : gset string) :
  spop_choice pick X = Some token → token ∈ X.
Proof.
  unfold spop_choice. case_bool_decide as Hin.
  - by intros [= <-].
  - destruct (elements X) as [|x l] eqn:E; simpl; [done|].
    intros [= <-]. apply elem_of_elements. rewrite E. by left.
Qed.

Lemma spop_choice_None (pick : string) (X : gset string) :
  spop_choice pick X = None ↔ X = ∅.
Proof.
  unfold spop_choice. split.
  - case_bool_decide; [done|].
    destruct (elements X) eqn:E; [|done].
    intros _. by apply leibniz_equiv, elements_empty_inv.
  - intros ->. rewrite bool_decide_eq_false_2 by set_solver.
    by rewrite elements_empty.
Qed.

(** C5, as amended. When the transaction of step (c) fails, Assign returns
    the error with the popped token in neither the available pool nor the
    assigned set, after issuing the DEL of the lock key it set in step (b).
    When that DEL answers, the key is gone; when the DEL fails too, which
    Assign does not look at, the key stays in place until it expires,
    TokenLockTime after the Assign. *)
Theorem Assign_failed_publish_lock_rollback
    (f : Faults) (now : Z) (pick token : string) (r : Redis) :
  I1 r →
  spop_fails f = false → spop_choice pick (token_pool r) = Some token →
  setnx_fails f = false → key_live now (lock_key token) r = false →
  exec_fails f = true →
  let r' := (AssignToken f now pick r).1 in
  (AssignToken f now pick r).2 = Err ErrRedis
  ∧ (token ∉ token_pool r') ∧ (token ∉ assigned_tokens r')
  ∧ (del_fails f = false →
     lock_keys r' !! lock_key token = None
     ∧ ∀ instant, key_live instant (lock_key token) r' = false)
  ∧ (del_fails f = true →
     lock_keys r' !! lock_key token = Some (LockValue, now + TokenLockTime)
     ∧ ∀ instant, key_live instant (lock_key token) r'
                  = bool_decide (instant < now + TokenLockTime)).
Proof.
  intros Hinv Hpop Hpick Hnx Hfree Hexec.
  pose proof (spop_choice_elem _ _ _ Hpick) as Hin.
  assert (Hout : AssignToken f now pick r
    = (put_locks
         (if del_fails f
          then <[lock_key token := (LockValue, now + TokenLockTime)]>
                 (lock_keys r)
          else delete (lock_key token) (lock_keys r))
         (put_set KeyTokenPool (token_pool r ∖ {[token]}) r),
       Err ErrRedis)).
  { unfold AssignToken. unfold_st. simpl.
    rewrite Hpop. simpl. rewrite Hpick. rewrite Hnx.
    unfold key_live in *. simpl.
    destruct (lock_keys r !! lock_key token) as [[v e]|] eqn:Hl; simpl;
      rewrite ?Hfree, Hexec; simpl; destruct (del_fails f); simpl;
      by rewrite ?delete_insert_eq. }
  rewrite Hout. cbn [fst snd]. unfold I1 in Hinv.
  split; [done|]. split; [simpl; set_solver|]. split; [simpl; set_solver|].
  unfold key_live. simpl.
  split; intros ->; simpl.
  - rewrite lookup_delete_eq. by split.
  - rewrite lookup_insert_eq. by split.
Qed.

(** ** the store seen from one token *)

(** Whether the token is in the pool, whether it is assigned, its score. *)
Definition view (r : Redis) (t : string) : bool * bool * option Z :=
  (bool_decide (t ∈ token_pool r), bool_decide (t ∈ assigned_tokens r),
   keepalive_tokens r !! t).

Lemma view_ext (r r' : Redis) :
  (∀ t, view r t = view r' t) → lock_keys r = lock_keys r' → r = r'.
Proof.
  intros Hv Hl. apply store_eq; [| | |done].
  - apply set_eq. intros t. specialize (Hv t). unfold view in Hv.
    injection Hv as Hp _ _.
    rewrite <-(bool_decide_eq_true (t ∈ token_pool r)), Hp.
    apply bool_decide_eq_true.
  - apply set_eq. intros t. specialize (Hv t). unfold view in Hv.
    injection Hv as _ Ha _.
    rewrite <-(bool_decide_eq_true (t ∈ assigned_tokens r)), Ha.
    apply bool_decide_eq_true.
  - apply map_eq. intros t. specialize (Hv t). unfold view in Hv.
    by injection Hv as _ _ Hk.
Qed.

(** What a command does to the view of a token. *)
Definition command_on (c : command) (t : string) (v : bool * bool * option Z)
  : bool * bool * option Z :=
  let '(p, a, k) := v in
  match c with
  | SAdd KeyTokenPool m => if decide (m = t) then (true, a, k) else v
  | SAdd KeyAssignedTokens m => if decide (m = t) then (p, true, k) else v
  | SRem KeyTokenPool m => if decide (m = t) then (false, a, k) else v
  | SRem KeyAssignedTokens m => if decide (m = t) then (p, false, k) else v
  | ZAdd _ score m => if decide (m = t) then (p, a, Some score) else v
  | ZRem _ m => if decide (m = t) then (p, a, None) else v
  end.

Lemma view_apply (c : command) (r : Redis) (t : string) :
  view (apply c r).1 t = command_on c t (view r t).
Proof.
  unfold view.
  destruct c as [[] m|[] m|[] s m|[] m]; simpl; case_decide; subst;
    rewrite ?lookup_insert_eq, ?lookup_delete_eq,
      ?lookup_insert_ne, ?lookup_delete_ne by done;
    repeat f_equal; try done;
    first [ apply bool_decide_eq_true_2; set_solver
          | apply bool_decide_eq_false_2; set_solver
          | apply bool_decide_ext; set_solver ].
Qed.

Lemma locks_apply (c : command) (r : Redis) :
  lock_keys (apply c r).1 = lock_keys r.
Proof. by destruct c as [[] m|[] m|[] s m|[] m]. Qed.

Lemma apply_all_cons (c : command) (p : list command) (r : Redis) :
  (apply_all (c :: p) r).1 = (apply_all p (apply c r).1).1.
Proof.
  cbn [apply_all]. destruct (apply c r) as [r1 n]. cbn [fst].
  by destruct (apply_all p r1).
Qed.

Lemma apply_all_app (p q : list command) (r : Redis) :
  (apply_all (p ++ q) r).1 = (apply_all q (apply_all p r).1).1.
Proof.
  revert r. induction p as [|c p IH]; intros r; [done|].
  change ((c :: p) ++ q) with (c :: (p ++ q)).
  by rewrite !apply_all_cons, IH.
Qed.

Lemma view_apply_all (p : list command) (r : Redis) (t : string) :
  view (apply_all p r).1 t = foldl (λ v c, command_on c t v) (view r t) p.
Proof.
  revert r. induction p as [|c p IH]; intros r; [done|].
  rewrite apply_all_cons, IH, view_apply. done.
Qed.

Lemma locks_apply_all (p : list command) (r : Redis) :
  lock_keys (apply_all p r).1 = lock_keys r.
Proof.
  revert r. induction p as [|c p IH]; intros r; [done|].
  by rewrite apply_all_cons, IH, locks_apply.
Qed.

Lemma I1_view (r : Redis) :
  I1 r ↔ ∀ t, (view r t).1.1 && (view r t).1.2 = false.
Proof.
  unfold I1, view. simpl. split.
  - intros Hd t. repeat case_bool_decide; try done. exfalso. set_solver.
  - intros Hv t Hp Ha. specialize (Hv t).
    by rewrite !bool_decide_eq_true_2 in Hv.
Qed.

(** ** the two sweeps of Reconcile *)

(** What the assigned sweep decides for a token it fetched. *)
Inductive action := Keep | Release | Purge.

Definition assigned_action (f : Faults) (releaseBefore deleteBefore : Z)
    (r : Redis) (t : string) : action :=
  if zscore_fails f t then Keep
  else match keepalive_tokens r !! t with
       | None => Purge
       | Some expiry =>
           if bool_decide (expiry ≤ deleteBefore) then Purge
           else if bool_decide (expiry ≤ releaseBefore) then Release
           else Keep
       end.

Definition assigned_commands (a : action) (t : string) : list command :=
  match a with
  | Keep => []
  | Release => [SRem KeyAssignedTokens t; SAdd KeyTokenPool t]
  | Purge => [SRem KeyAssignedTokens t; ZRem KeyKeepaliveTokens t]
  end.

Definition tally (a : action) (c : CleanupResult) : CleanupResult :=
  match a with
  | Keep => c
  | Release => released_incr c
  | Purge => deleted_incr c
  end.

Definition action_on (a : action) (v : bool * bool * option Z)
  : bool * bool * option Z :=
  let '(p, _, k) := v in
  match a with
  | Keep => v
  | Release => (true, false, k)
  | Purge => (p, false, None)
  end.

(** What the pool sweep decides: keep, remove from the pool only (no score
    was found), or remove from the pool and the index. *)
Inductive pool_action := PKeep | PDrop | PPurge.

Definition pool_decision (deleteBefore : Z) (r : Redis) (t : string)
  : pool_action :=
  match keepalive_tokens r !! t with
  | None => PDrop
  | Some expiry => if bool_decide (expiry ≤ deleteBefore) then PPurge else PKeep
  end.

Definition pool_commands (a : pool_action) (t : string) : list command :=
  match a with
  | PKeep => []
  | PDrop => [SRem KeyTokenPool t]
  | PPurge => [SRem KeyTokenPool t; ZRem KeyKeepaliveTokens t]
  end.

Definition pool_tally (a : pool_action) (c : CleanupResult) : CleanupResult :=
  match a with
  | PKeep => c
  | _ => deleted_incr c
  end.

Definition pool_on (a : pool_action) (v : bool * bool * option Z)
  : bool * bool * option Z :=
  let '(_, s, k) := v in
  match a with
  | PKeep => v
  | PDrop => (false, s, k)
  | PPurge => (false, s, None)
  end.

Section Sweeps.
Variables (f : Faults) (releaseBefore deleteBefore : Z).

Lemma assigned_loop_spec tokens pipe res r :
  assigned_loop f releaseBefore deleteBefore tokens pipe res r =
    (r, (pipe ++ flat_map
                   (λ t, assigned_commands
                           (assigned_action f releaseBefore deleteBefore r t) t)
                   tokens,
         foldl (λ c t, tally (assigned_action f releaseBefore deleteBefore r t) c)
           res tokens)).
Proof.
  revert pipe res. induction tokens as [|t ts IH]; intros pipe res.
  - simpl. by rewrite app_nil_r.
  - cbn [assigned_loop flat_map foldl]. unfold_st.
    assert (Ha : assigned_action f releaseBefore deleteBefore r t
                 = if zscore_fails f t then Keep
                   else match keepalive_tokens r !! t with
                        | None => Purge
                        | Some expiry =>
                            if bool_decide (expiry ≤ deleteBefore) then Purge
                            else if bool_decide (expiry ≤ releaseBefore)
                                 then Release else Keep
                        end) by done.
    destruct (zscore_fails f t); [by rewrite IH, Ha|].
    destruct (keepalive_tokens r !! t) as [e|];
      repeat case_bool_decide; rewrite IH, Ha; cbn [assigned_commands tally];
      by rewrite <-?app_assoc.
Qed.

Lemma view_assigned_commands (act : string → action) tokens r t :
  view (apply_all (flat_map (λ u, assigned_commands (act u) u) tokens) r).1 t
  = if decide (t ∈ tokens) then action_on (act t) (view r t) else view r t.
Proof.
  revert r. induction tokens as [|u ts IH]; intros r.
  - destruct (decide (t ∈ [])) as [Hin|]; [by apply elem_of_nil in Hin|done].
  - cbn [flat_map]. rewrite apply_all_app, IH. clear IH.
    assert (Hone : view (apply_all (assigned_commands (act u) u) r).1 t
                   = if decide (u = t) then action_on (act u) (view r t)
                     else view r t).
    { rewrite view_apply_all.
      destruct (act u), (view r t) as [[p a] k];
        repeat (simpl; case_decide; try done). }
    rewrite Hone. clear Hone.
    destruct (decide (u = t)) as [->|Hne].
    + rewrite (decide_True (P := t ∈ t :: ts)) by set_solver.
      case_decide; [|done].
      by destruct (act t), (view r t) as [[p a] k].
    + destruct (decide (t ∈ ts)) as [Hin|Hin].
      * by rewrite decide_True by set_solver.
      * by rewrite decide_False by set_solver.
Qed.
End Sweeps.

Lemma view_pool_commands (act : string → pool_action) tokens r t :
  view (apply_all (flat_map (λ u, pool_commands (act u) u) tokens) r).1 t
  = if decide (t ∈ tokens) then pool_on (act t) (view r t) else view r t.
Proof.
  revert r. induction tokens as [|u ts IH]; intros r.
  - destruct (decide (t ∈ [])) as [Hin|]; [by apply elem_of_nil in Hin|done].
  - cbn [flat_map]. rewrite apply_all_app, IH. clear IH.
    assert (Hone : view (apply_all (pool_commands (act u) u) r).1 t
                   = if decide (u = t) then pool_on (act u) (view r t)
                     else view r t).
    { rewrite view_apply_all.
      destruct (act u), (view r t) as [[p a] k];
        repeat (simpl; case_decide; try done). }
    rewrite Hone. clear Hone.
    destruct (decide (u = t)) as [->|Hne].
    + rewrite (decide_True (P := t ∈ t :: ts)) by set_solver.
      case_decide; [|done].
      by destruct (act t), (view r t) as [[p a] k].
    + destruct (decide (t ∈ ts)) as [Hin|Hin].
      * by rewrite decide_True by set_solver.
      * by rewrite decide_False by set_solver.
Qed.

Lemma pool_loop_cases f deleteBefore tokens pipe res r :
  (∃ res', pool_loop f deleteBefore tokens pipe res r = (r, inl res')
           ∧ is_Some (ProcessingError res')
           ∧ ∃ t, t ∈ tokens ∧ zscore_fails f t = true)
  ∨ (pool_loop f deleteBefore tokens pipe res r
     = (r, inr (pipe ++ flat_map
                          (λ t, pool_commands (pool_decision deleteBefore r t) t)
                          tokens,
                foldl (λ c t, pool_tally (pool_decision deleteBefore r t) c)
                  res tokens))
     ∧ ∀ t, t ∈ tokens → zscore_fails f t = false).
Proof.
  revert pipe res. induction tokens as [|t ts IH]; intros pipe res.
  - right. split; [simpl; by rewrite app_nil_r|]. by intros t Ht%elem_of_nil.
  - cbn [pool_loop flat_map foldl]. unfold_st.
    assert (Ha : pool_decision deleteBefore r t
                 = match keepalive_tokens r !! t with
                   | None => PDrop
                   | Some expiry =>
                       if bool_decide (expiry ≤ deleteBefore) then PPurge
                       else PKeep
                   end) by done.
    destruct (zscore_fails f t) eqn:Hz.
    { left. eexists. split; [done|]. split; [by eexists|].
      exists t. split; [by left|done]. }
    assert (Hstep : ∀ pipe' res',
      pipe' = pipe ++ pool_commands (pool_decision deleteBefore r t) t →
      res' = pool_tally (pool_decision deleteBefore r t) res →
      (∃ res'', pool_loop f deleteBefore ts pipe' res' r = (r, inl res'')
                ∧ is_Some (ProcessingError res'')
                ∧ ∃ u, u ∈ t :: ts ∧ zscore_fails f u = true)
      ∨ (pool_loop f deleteBefore ts pipe' res' r
         = (r, inr ((pipe ++ pool_commands (pool_decision deleteBefore r t) t
                       ++ flat_map
                            (λ t, pool_commands (pool_decision deleteBefore r t) t)
                            ts),
                    foldl (λ c t, pool_tally (pool_decision deleteBefore r t) c)
                      (pool_tally (pool_decision deleteBefore r t) res) ts))
         ∧ ∀ u, u ∈ t :: ts → zscore_fails f u = false)).
    { intros pipe' res' -> ->.
      destruct (IH (pipe ++ pool_commands (pool_decision deleteBefore r t) t)
                  (pool_tally (pool_decision deleteBefore r t) res))
        as [(res'' & -> & He & u & Hu & Hfu)|[-> Hall]].
      - left. exists res''. split; [done|]. split; [done|].
        exists u. split; [by right|done].
      - right. rewrite <-app_assoc. split; [done|].
        intros u [->|Hu]%elem_of_cons; [done|by apply Hall]. }
    destruct (keepalive_tokens r !! t) as [e|];
      repeat case_bool_decide; apply Hstep; rewrite Ha;
      rewrite ?bool_decide_eq_true_2, ?bool_decide_eq_false_2 by done;
      simpl; by rewrite ?app_nil_r.
Qed.

Lemma tally_error (act : string → action) tokens res :
  ProcessingError (foldl (λ c t, tally (act t) c) res tokens)
  = ProcessingError res.
Proof.
  revert res. induction tokens as [|t ts IH]; intros res; [done|].
  simpl. rewrite IH. by destruct (act t).
Qed.

Lemma pool_tally_error (act : string → pool_action) tokens res :
  ProcessingError (foldl (λ c t, pool_tally (act t) c) res tokens)
  = ProcessingError res.
Proof.
  revert res. induction tokens as [|t ts IH]; intros res; [done|].
  simpl. rewrite IH. by destruct (act t).
Qed.

Lemma elements_nil_iff (X : gset string) :
  length (elements X) = 0%nat ↔ X = ∅.
Proof.
  rewrite length_zero_iff_nil. split.
  - intros H. by apply leibniz_equiv, elements_empty_inv.
  - intros ->. apply elements_empty.
Qed.

(** The four ways cleanupAssignedTokens ends. *)
Lemma cleanupAssignedTokens_cases f releaseBefore deleteBefore r :
  let out := cleanupAssignedTokens f releaseBefore deleteBefore r in
  let act := assigned_action f releaseBefore deleteBefore r in
  let counts := foldl (λ c t, tally (act t) c) empty_result
                  (elements (assigned_tokens r)) in
  (smembers_fails f = true
   ∧ out = (r, with_error (Wrapped "failed to fetch assigned tokens" ErrRedis)
                 empty_result))
  ∨ (smembers_fails f = false ∧ assigned_tokens r = ∅
     ∧ out = (r, empty_result))
  ∨ (smembers_fails f = false ∧ assigned_tokens r ≠ ∅ ∧ exec_fails f = true
     ∧ out = (r, with_error
                   (Wrapped "failed to execute cleanup for assigned tokens"
                      ErrRedis) counts))
  ∨ (smembers_fails f = false ∧ assigned_tokens r ≠ ∅ ∧ exec_fails f = false
     ∧ out.2 = counts
     ∧ lock_keys out.1 = lock_keys r
     ∧ ∀ t, view out.1 t
            = if decide (t ∈ assigned_tokens r)
              then action_on (act t) (view r t) else view r t).
Proof.
  simpl. unfold cleanupAssignedTokens. unfold_st.
  change (get_set KeyAssignedTokens r) with (assigned_tokens r).
  destruct (smembers_fails f); [by left|]. right.
  case_bool_decide as Hlen.
  { left. by apply elements_nil_iff in Hlen. }
  right. rewrite elements_nil_iff in Hlen.
  rewrite assigned_loop_spec. cbn [app].
  destruct (exec_fails f); [by left|]. right.
  destruct (apply_all _ r) as [r1 ns] eqn:E.
  assert (Hr1 : r1 = (apply_all
     (flat_map (λ t, assigned_commands
                       (assigned_action f releaseBefore deleteBefore r t) t)
        (elements (assigned_tokens r))) r).1) by by rewrite E.
  simpl. repeat split; try done.
  - by rewrite Hr1, locks_apply_all.
  - intros t. rewrite Hr1, view_assigned_commands.
    destruct (decide (t ∈ assigned_tokens r)) as [Hin|Hin].
    + by rewrite decide_True by by apply elem_of_elements.
    + rewrite decide_False; [done|]. by rewrite elem_of_elements.
Qed.

(** The ways cleanupPoolTokens ends. *)
Lemma cleanupPoolTokens_cases f deleteBefore r :
  let out := cleanupPoolTokens f deleteBefore r in
  let act := pool_decision deleteBefore r in
  let counts := foldl (λ c t, pool_tally (act t) c) empty_result
                  (elements (token_pool r)) in
  (smembers_fails f = true
   ∧ out = (r, with_error (Wrapped "failed to fetch pool tokens" ErrRedis)
                 empty_result))
  ∨ (smembers_fails f = false ∧ token_pool r = ∅ ∧ out = (r, empty_result))
  ∨ (smembers_fails f = false ∧ token_pool r ≠ ∅
     ∧ (∃ t, t ∈ token_pool r ∧ zscore_fails f t = true)
     ∧ out.1 = r ∧ is_Some (ProcessingError out.2))
  ∨ (smembers_fails f = false ∧ token_pool r ≠ ∅
     ∧ (∀ t, t ∈ token_pool r → zscore_fails f t = false)
     ∧ exec_fails f = true
     ∧ out = (r, with_error
                   (Wrapped "failed to execute cleanup for pool tokens"
                      ErrRedis) counts))
  ∨ (smembers_fails f = false ∧ token_pool r ≠ ∅
     ∧ (∀ t, t ∈ token_pool r → zscore_fails f t = false)
     ∧ exec_fails f = false
     ∧ out.2 = counts
     ∧ lock_keys out.1 = lock_keys r
     ∧ ∀ t, view out.1 t
            = if decide (t ∈ token_pool r)
              then pool_on (act t) (view r t) else view r t).
Proof.
  simpl. unfold cleanupPoolTokens. unfold_st.
  change (get_set KeyTokenPool r) with (token_pool r).
  destruct (smembers_fails f); [by left|]. right.
  case_bool_decide as Hlen.
  { left. by apply elements_nil_iff in Hlen. }
  right. rewrite elements_nil_iff in Hlen.
  destruct (pool_loop_cases f deleteBefore (elements (token_pool r)) []
              empty_result r)
    as [(res' & -> & He & u & Hu & Hfu)|[-> Hall]].
  { left. repeat split; try done. exists u. by rewrite <-elem_of_elements. }
  right. cbn [app].
  assert (Hall' : ∀ t, t ∈ token_pool r → zscore_fails f t = false).
  { intros t Ht. apply Hall. by apply elem_of_elements. }
  destruct (exec_fails f); [by left|]. right.
  destruct (apply_all _ r) as [r1 ns] eqn:E.
  assert (Hr1 : r1 = (apply_all
     (flat_map (λ t, pool_commands (pool_decision deleteBefore r t) t)
        (elements (token_pool r))) r).1) by by rewrite E.
  simpl. repeat split; try done.
  - by rewrite Hr1, locks_apply_all.
  - intros t. rewrite Hr1, view_pool_commands.
    destruct (decide (t ∈ token_pool r)) as [Hin|Hin].
    + by rewrite decide_True by by apply elem_of_elements.
    + rewrite decide_False; [done|]. by rewrite elem_of_elements.
Qed.

(** ** I1 is kept by every call *)

Ltac split_calls :=
  repeat match goal with
    | |- context [if ?b then _ else _] => destruct b eqn:?; simpl
    | |- context [match spop_choice ?p ?X with _ => _ end] =>
        destruct (spop_choice p X) eqn:?; simpl
    end.

Lemma I1_SaveToken f now token r :
  token ∉ assigned_tokens r → I1 r → I1 (SaveToken f now token r).1.
Proof.
  unfold SaveToken, I1. unfold_st. simpl. intros Hfresh Hinv.
  split_calls; simpl; set_solver.
Qed.

Lemma I1_AssignToken f now pick r : I1 r → I1 (AssignToken f now pick r).1.
Proof.
  unfold AssignToken, I1. unfold_st. simpl. intros Hinv.
  split_calls; simpl; try set_solver.
  all: match goal with
       | H : spop_choice _ _ = Some _ |- _ => apply spop_choice_elem in H
       end; set_solver.
Qed.

Lemma I1_KeepAlive f now token r : I1 r → I1 (KeepAlive f now token r).1.
Proof.
  unfold KeepAlive, I1. unfold_st. simpl. intros Hinv.
  split_calls; simpl; set_solver.
Qed.

Lemma I1_UnblockToken f now token r : I1 r → I1 (UnblockToken f now token r).1.
Proof.
  unfold UnblockToken, I1. unfold_st. simpl. intros Hinv.
  split_calls; simpl; set_solver.
Qed.

Lemma I1_DeleteToken f token r : I1 r → I1 (DeleteToken f token r).1.
Proof.
  unfold DeleteToken, I1. unfold_st. simpl. intros Hinv.
  split_calls; simpl; set_solver.
Qed.

Lemma I1_cleanupAssignedTokens f releaseBefore deleteBefore r :
  I1 r → I1 (cleanupAssignedTokens f releaseBefore deleteBefore r).1.
Proof.
  intros Hinv.
  destruct (cleanupAssignedTokens_cases f releaseBefore deleteBefore r)
    as [[_ ->]|[(_ & _ & ->)|[(_ & _ & _ & ->)|(_ & _ & _ & _ & _ & Hv)]]];
    try done.
  apply I1_view. intros t. rewrite Hv.
  rewrite I1_view in Hinv. specialize (Hinv t).
  case_decide; [|done].
  destruct (assigned_action _ _ _ _ _), (view r t) as [[p a] k]; simpl in *;
    try done. by destruct p.
Qed.

Lemma I1_cleanupPoolTokens f deleteBefore r :
  I1 r → I1 (cleanupPoolTokens f deleteBefore r).1.
Proof.
  intros Hinv.
  destruct (cleanupPoolTokens_cases f deleteBefore r)
    as [[_ ->]|[(_ & _ & ->)|[(_ & _ & _ & -> & _)
       |[(_ & _ & _ & _ & ->)|(_ & _ & _ & _ & _ & _ & Hv)]]]];
    try done.
  apply I1_view. intros t. rewrite Hv.
  rewrite I1_view in Hinv. specialize (Hinv t).
  case_decide; [|done].
  by destruct (pool_decision _ _ _), (view r t) as [[p a] k].
Qed.

Lemma run_sweeps_store sched fa fp releaseBefore deleteBefore r :
  (run_sweeps sched fa fp releaseBefore deleteBefore r).1
  = match sched with
    | AssignedThenPool =>
        (cleanupPoolTokens fp deleteBefore
           (cleanupAssignedTokens fa releaseBefore deleteBefore r).1).1
    | PoolThenAssigned =>
        (cleanupAssignedTokens fa releaseBefore deleteBefore
           (cleanupPoolTokens fp deleteBefore r).1).1
    end.
Proof.
  unfold run_sweeps. unfold_st. destruct sched.
  - destruct (cleanupAssignedTokens _ _ _ r) as [r1 a]. simpl.
    by destruct (cleanupPoolTokens _ _ r1).
  - destruct (cleanupPoolTokens _ _ r) as [r1 a]. simpl.
    by destruct (cleanupAssignedTokens _ _ _ r1).
Qed.

Lemma CleanupExpiredTokens_store sched fa fp now r :
  (CleanupExpiredTokens sched fa fp now r).1
  = (run_sweeps sched fa fp (now - TokenAutoReleaseTime)
       (now - TokenDeletionTime) r).1.
Proof.
  unfold CleanupExpiredTokens, cleanupExpiredTokens. unfold_st.
  destruct (run_sweeps _ _ _ _ _ r) as [r1 chan]. simpl.
  by destruct (ProcessingError _).
Qed.

Lemma I1_CleanupExpiredTokens sched fa fp now r :
  I1 r → I1 (CleanupExpiredTokens sched fa fp now r).1.
Proof.
  intros Hinv. rewrite CleanupExpiredTokens_store, run_sweeps_store.
  destruct sched;
    auto using I1_cleanupAssignedTokens, I1_cleanupPoolTokens.
Qed.

Lemma I1_perform o r : admissible o r → I1 r → I1 (perform o r).
Proof.
  destruct o; simpl; intros Hadm Hinv.
  - unfold GenerateToken. unfold_st.
    pose proof (I1_SaveToken f now uuid r (proj2 Hadm) Hinv) as H.
    by destruct (SaveToken f now uuid r).
  - by apply I1_AssignToken.
  - by apply I1_KeepAlive.
  - by apply I1_UnblockToken.
  - by apply I1_DeleteToken.
  - by apply I1_CleanupExpiredTokens.
  - by rewrite GetAvailableTokens_store.
  - by rewrite GetAssignedTokensWithExpiry_store.
Qed.

(** ** the sweeps when no call fails *)

Definition score_action (releaseBefore deleteBefore : Z) (k : option Z)
  : action :=
  match k with
  | None => Purge
  | Some expiry =>
      if bool_decide (expiry ≤ deleteBefore) then Purge
      else if bool_decide (expiry ≤ releaseBefore) then Release
      else Keep
  end.

Definition score_decision (deleteBefore : Z) (k : option Z) : pool_action :=
  match k with
  | None => PDrop
  | Some expiry => if bool_decide (expiry ≤ deleteBefore) then PPurge else PKeep
  end.

(** The assigned sweep, then the pool sweep, on the view of one token. *)
Definition assigned_sweep_on (releaseBefore deleteBefore : Z)
    (v : bool * bool * option Z) : bool * bool * option Z :=
  if v.1.2 then action_on (score_action releaseBefore deleteBefore v.2) v
  else v.

Definition pool_sweep_on (deleteBefore : Z) (v : bool * bool * option Z)
  : bool * bool * option Z :=
  if v.1.1 then pool_on (score_decision deleteBefore v.2) v else v.

Lemma cleanupAssignedTokens_no_faults releaseBefore deleteBefore r :
  let out := cleanupAssignedTokens no_faults releaseBefore deleteBefore r in
  out.2 = foldl (λ c t, tally (score_action releaseBefore deleteBefore
                                 (keepalive_tokens r !! t)) c)
            empty_result (elements (assigned_tokens r))
  ∧ lock_keys out.1 = lock_keys r
  ∧ ∀ t, view out.1 t
         = assigned_sweep_on releaseBefore deleteBefore (view r t).
Proof.
  destruct (cleanupAssignedTokens_cases no_faults releaseBefore deleteBefore r)
    as [[? _]|[(_ & He & ->)|[(_ & _ & ? & _)|(_ & _ & _ & Hres & Hl & Hv)]]];
    try done.
  - simpl. rewrite He, elements_empty. repeat split; try done.
    intros t. unfold assigned_sweep_on, view. simpl.
    rewrite He.
    by rewrite (bool_decide_eq_false_2 (t ∈ (∅ : gset string)))
      by apply not_elem_of_empty.
  - simpl. repeat split; try done.
    intros t. rewrite Hv. unfold assigned_sweep_on.
    change ((view r t).1.2) with (bool_decide (t ∈ assigned_tokens r)).
    change ((view r t).2) with (keepalive_tokens r !! t).
    case_decide.
    + by rewrite bool_decide_eq_true_2.
    + by rewrite bool_decide_eq_false_2.
Qed.

Lemma cleanupPoolTokens_no_faults deleteBefore r :
  let out := cleanupPoolTokens no_faults deleteBefore r in
  out.2 = foldl (λ c t, pool_tally (score_decision deleteBefore
                                      (keepalive_tokens r !! t)) c)
            empty_result (elements (token_pool r))
  ∧ lock_keys out.1 = lock_keys r
  ∧ ∀ t, view out.1 t = pool_sweep_on deleteBefore (view r t).
Proof.
  destruct (cleanupPoolTokens_cases no_faults deleteBefore r)
    as [[? _]|[(_ & He & ->)|[(_ & _ & (t & _ & ?) & _)
       |[(_ & _ & _ & ? & _)|(_ & _ & _ & _ & Hres & Hl & Hv)]]]];
    try done.
  - simpl. rewrite He, elements_empty. repeat split; try done.
    intros t. unfold pool_sweep_on, view. simpl.
    rewrite He.
    by rewrite (bool_decide_eq_false_2 (t ∈ (∅ : gset string)))
      by apply not_elem_of_empty.
  - simpl. repeat split; try done.
    intros t. rewrite Hv. unfold pool_sweep_on.
    change ((view r t).1.1) with (bool_decide (t ∈ token_pool r)).
    change ((view r t).2) with (keepalive_tokens r !! t).
    case_decide.
    + by rewrite bool_decide_eq_true_2.
    + by rewrite bool_decide_eq_false_2.
Qed.

(** On every token, the two sweeps commute. *)
Lemma sweeps_commute_on releaseBefore deleteBefore v :
  pool_sweep_on deleteBefore (assigned_sweep_on releaseBefore deleteBefore v)
  = assigned_sweep_on releaseBefore deleteBefore (pool_sweep_on deleteBefore v).
Proof.
  destruct v as [[[] []] [e|]];
    unfold pool_sweep_on, assigned_sweep_on, score_action, score_decision;
    simpl; repeat (case_bool_decide; simpl); try done; lia.
Qed.

Lemma foldl_tally_ext (act act' : string → action) tokens res :
  (∀ t, act t = act' t) →
  foldl (λ c t, tally (act t) c) res tokens
  = foldl (λ c t, tally (act' t) c) res tokens.
Proof.
  intros Hext. revert res.
  induction tokens as [|t ts IH]; intros res; [done|].
  simpl. by rewrite Hext, IH.
Qed.

Definition purges (d : string → pool_action) (t : string) : Prop :=
  d t ≠ PKeep.

#[global] Instance pool_action_eq_dec : EqDecision pool_action.
Proof. solve_decision. Defined.

#[global] Instance purges_dec d t : Decision (purges d t).
Proof. unfold purges. apply _. Defined.

Lemma foldl_pool_tally (d : string → pool_action) tokens res :
  foldl (λ c t, pool_tally (d t) c) res tokens
  = mkCleanupResult (TokensReleased res)
      (TokensDeleted res + Z.of_nat (length (filter (purges d) tokens)))
      (ProcessingError res).
Proof.
  revert res. induction tokens as [|t ts IH]; intros res.
  - simpl. destruct res. simpl. f_equal. lia.
  - cbn [foldl]. rewrite IH, filter_cons.
    destruct (decide (purges d t)) as [Hp|Hp]; unfold purges in Hp;
      destruct (d t) eqn:E; try done; try (exfalso; by apply Hp);
      cbn [pool_tally deleted_incr TokensReleased TokensDeleted
             ProcessingError length];
      f_equal; lia.
Qed.

Lemma length_filter_elements (P : string → Prop) `{!∀ t, Decision (P t)}
    (X : gset string) :
  length (filter P (elements X)) = size (filter P X).
Proof.
  unfold size, set_size. simpl. apply Permutation_length.
  apply NoDup_Permutation.
  - apply NoDup_filter, NoDup_elements.
  - apply NoDup_elements.
  - intros t. rewrite list_elem_of_filter, !elem_of_elements, elem_of_filter.
    done.
Qed.

(** The pure facts behind the equality of the counts. *)
Lemma score_action_after_pool releaseBefore deleteBefore v :
  score_action releaseBefore deleteBefore (pool_sweep_on deleteBefore v).2
  = score_action releaseBefore deleteBefore v.2.
Proof.
  destruct v as [[[] a] [e|]];
    unfold pool_sweep_on, score_action, score_decision; simpl; try done.
  repeat (case_bool_decide; simpl); try done; lia.
Qed.

Lemma assigned_after_pool deleteBefore v :
  (pool_sweep_on deleteBefore v).1.2 = v.1.2.
Proof.
  destruct v as [[[] a] k]; unfold pool_sweep_on; simpl; [|done].
  by destruct (score_decision deleteBefore k).
Qed.

Lemma purged_after_assigned releaseBefore deleteBefore v :
  let v' := assigned_sweep_on releaseBefore deleteBefore v in
  (v'.1.1 = true ∧ score_decision deleteBefore v'.2 ≠ PKeep)
  ↔ (v.1.1 = true ∧ score_decision deleteBefore v.2 ≠ PKeep).
Proof.
  destruct v as [[p []] [e|]];
    unfold assigned_sweep_on, score_action, score_decision; simpl; try done;
    repeat (case_bool_decide; simpl); try done; try lia; naive_solver.
Qed.

(** The counts a sweep returns when it runs on a store with no failure. *)
Definition assigned_counts (releaseBefore deleteBefore : Z) (r : Redis)
  : CleanupResult :=
  foldl (λ c t, tally (score_action releaseBefore deleteBefore
                         (keepalive_tokens r !! t)) c)
    empty_result (elements (assigned_tokens r)).

Definition pool_counts (deleteBefore : Z) (r : Redis) : CleanupResult :=
  foldl (λ c t, pool_tally (score_decision deleteBefore
                              (keepalive_tokens r !! t)) c)
    empty_result (elements (token_pool r)).

Section Commute.
Variables (releaseBefore deleteBefore : Z).

(** The counts of the assigned sweep are the same after the pool sweep. *)
Lemma assigned_counts_after_pool_sweep r r' :
  (∀ t, view r' t = pool_sweep_on deleteBefore (view r t)) →
  assigned_counts releaseBefore deleteBefore r'
  = assigned_counts releaseBefore deleteBefore r.
Proof.
  intros Hv. unfold assigned_counts.
  assert (Hsame : assigned_tokens r' = assigned_tokens r).
  { apply set_eq. intros t.
    pose proof (f_equal (λ v, v.1.2) (Hv t)) as H. simpl in H.
    rewrite assigned_after_pool in H. unfold view in H. simpl in H.
    rewrite <-(bool_decide_eq_true (t ∈ assigned_tokens r')), H.
    apply bool_decide_eq_true. }
  rewrite Hsame. apply foldl_tally_ext. intros t.
  change (keepalive_tokens r' !! t) with (view r' t).2.
  rewrite Hv. apply score_action_after_pool.
Qed.

(** The counts of the pool sweep are the same after the assigned sweep. *)
Lemma pool_counts_after_assigned_sweep r r' :
  (∀ t, view r' t = assigned_sweep_on releaseBefore deleteBefore (view r t)) →
  pool_counts deleteBefore r' = pool_counts deleteBefore r.
Proof.
  intros Hv. unfold pool_counts.
  rewrite !foldl_pool_tally, !length_filter_elements.
  assert (Heq :
    filter (purges (λ t, score_decision deleteBefore (keepalive_tokens r' !! t)))
      (token_pool r')
    = filter (purges (λ t, score_decision deleteBefore (keepalive_tokens r !! t)))
        (token_pool r)).
  { apply set_eq. intros t. rewrite !elem_of_filter. unfold purges.
    pose proof (purged_after_assigned releaseBefore deleteBefore (view r t))
      as H.
    simpl in H. rewrite <-Hv in H. unfold view in H. simpl in H.
    rewrite !bool_decide_eq_true in H. tauto. }
  by rewrite Heq.
Qed.

Variable r : Redis.

Let after_assigned :=
  cleanupAssignedTokens no_faults releaseBefore deleteBefore r.
Let after_pool := cleanupPoolTokens no_faults deleteBefore r.

Lemma sweeps_commute_store :
  (cleanupPoolTokens no_faults deleteBefore after_assigned.1).1
  = (cleanupAssignedTokens no_faults releaseBefore deleteBefore after_pool.1).1.
Proof.
  subst after_assigned after_pool.
  destruct (cleanupAssignedTokens_no_faults releaseBefore deleteBefore r)
    as (_ & Hl1 & Hv1).
  destruct (cleanupPoolTokens_no_faults deleteBefore r) as (_ & Hl2 & Hv2).
  destruct (cleanupPoolTokens_no_faults deleteBefore
              (cleanupAssignedTokens no_faults releaseBefore deleteBefore r).1)
    as (_ & Hl3 & Hv3).
  destruct (cleanupAssignedTokens_no_faults releaseBefore deleteBefore
              (cleanupPoolTokens no_faults deleteBefore r).1)
    as (_ & Hl4 & Hv4).
  simpl in *. apply view_ext; [|congruence].
  intros t. rewrite Hv3, Hv1, Hv4, Hv2. apply sweeps_commute_on.
Qed.

Lemma assigned_counts_after_pool :
  (cleanupAssignedTokens no_faults releaseBefore deleteBefore after_pool.1).2
  = after_assigned.2.
Proof.
  subst after_assigned after_pool.
  destruct (cleanupAssignedTokens_no_faults releaseBefore deleteBefore r)
    as (-> & _ & _).
  destruct (cleanupPoolTokens_no_faults deleteBefore r) as (_ & _ & Hv).
  destruct (cleanupAssignedTokens_no_faults releaseBefore deleteBefore
              (cleanupPoolTokens no_faults deleteBefore r).1)
    as (-> & _ & _).
  by apply assigned_counts_after_pool_sweep.
Qed.

Lemma pool_counts_after_assigned :
  (cleanupPoolTokens no_faults deleteBefore after_assigned.1).2 = after_pool.2.
Proof.
  subst after_assigned after_pool.
  destruct (cleanupPoolTokens_no_faults deleteBefore r) as (-> & _ & _).
  destruct (cleanupAssignedTokens_no_faults releaseBefore deleteBefore r)
    as (_ & _ & Hv).
  destruct (cleanupPoolTokens_no_faults deleteBefore
              (cleanupAssignedTokens no_faults releaseBefore deleteBefore r).1)
    as (-> & _ & _).
  by apply pool_counts_after_assigned_sweep.
Qed.
End Commute.

Lemma no_faults_assigned_error releaseBefore deleteBefore r :
  ProcessingError (cleanupAssignedTokens no_faults releaseBefore deleteBefore r).2
  = None.
Proof.
  destruct (cleanupAssignedTokens_no_faults releaseBefore deleteBefore r)
    as (-> & _ & _).
  by rewrite tally_error.
Qed.

Lemma no_faults_pool_error deleteBefore r :
  ProcessingError (cleanupPoolTokens no_faults deleteBefore r).2 = None.
Proof.
  destruct (cleanupPoolTokens_no_faults deleteBefore r) as (-> & _ & _).
  by rewrite pool_tally_error.
Qed.

(** C8. With the current time fixed and no call failing, running the
    assigned sweep and then the pool sweep ends in the same store and the
    same released and deleted totals as running the pool sweep and then the
    assigned sweep; cleanupExpiredTokens returns the same under both orders. *)
Theorem reconcile_sweeps_commute (now : Z) (r : Redis) :
  let releaseBefore := now - TokenAutoReleaseTime in
  let deleteBefore := now - TokenDeletionTime in
  let a1 := cleanupAssignedTokens no_faults releaseBefore deleteBefore r in
  let p1 := cleanupPoolTokens no_faults deleteBefore a1.1 in
  let p2 := cleanupPoolTokens no_faults deleteBefore r in
  let a2 := cleanupAssignedTokens no_faults releaseBefore deleteBefore p2.1 in
  p1.1 = a2.1
  ∧ TokensReleased a1.2 + TokensReleased p1.2
    = TokensReleased p2.2 + TokensReleased a2.2
  ∧ TokensDeleted a1.2 + TokensDeleted p1.2
    = TokensDeleted p2.2 + TokensDeleted a2.2
  ∧ cleanupExpiredTokens AssignedThenPool no_faults no_faults now r
    = cleanupExpiredTokens PoolThenAssigned no_faults no_faults now r.
Proof.
  intros rB dB a1 p1 p2 a2.
  pose proof (sweeps_commute_store rB dB r) as Hstore.
  pose proof (assigned_counts_after_pool rB dB r) as Ha.
  pose proof (pool_counts_after_assigned rB dB r) as Hp.
  pose proof (no_faults_assigned_error rB dB r) as Hea.
  pose proof (no_faults_pool_error dB r) as Hep.
  fold a1 p2 in Hstore, Ha, Hp, Hea, Hep. fold p1 a2 in Hstore, Ha, Hp.
  split; [done|]. split; [rewrite Ha, Hp; lia|].
  split; [rewrite Ha, Hp; lia|].
  unfold cleanupExpiredTokens, run_sweeps. unfold_st.
  fold rB dB. fold a1 p2.
  destruct a1 as [ra1 ca1] eqn:E1, p2 as [rp2 cp2] eqn:E2. simpl in *.
  fold p1 a2.
  destruct p1 as [rp1 cp1], a2 as [ra2 ca2]. simpl in *. subst.
  f_equal. unfold collect. simpl. rewrite Hea, Hep. f_equal; lia.
Qed.

(** ** the invariant over completed calls *)

Lemma reachable_I1 (r : Redis) : reachable r → I1 r.
Proof.
  induction 1 as [|o r Hr IH Hadm].
  - unfold I1, empty_store. simpl. set_solver.
  - by apply I1_perform.
Qed.

(** The precondition of Generate is needed: saving the id of an assigned
    token puts it in both sets. *)
Lemma SaveToken_collision_breaks_I1 (now : Z) (token : string) (r : Redis) :
  token ∈ assigned_tokens r → ¬ I1 (SaveToken no_faults now token r).1.
Proof.
  unfold SaveToken, I1. unfold_st. simpl. intros Hin Hdisj.
  apply (Hdisj token); set_solver.
Qed.

(** C1. In every store reached from the empty one by completed calls
    (Generate of a fresh id, Assign, Renew, Unblock, Delete, Reconcile, the two
    listings, each with any failing store call), no token is both in the
    available pool and in the assigned set: every token is in exactly one of
    the states Available, Assigned, Absent. *)
Theorem reachable_token_in_one_state (r : Redis) (t : string) :
  reachable r →
  ¬ (Available r t ∧ Assigned r t)
  ∧ ((Available r t ∧ ¬ Assigned r t ∧ ¬ Absent r t)
     ∨ (¬ Available r t ∧ Assigned r t ∧ ¬ Absent r t)
     ∨ (¬ Available r t ∧ ¬ Assigned r t ∧ Absent r t)).
Proof.
  intros Hr. apply reachable_I1 in Hr.
  unfold I1, Available, Assigned, Absent in *.
  destruct (decide (t ∈ token_pool r)), (decide (t ∈ assigned_tokens r));
    [exfalso; set_solver|..]; split; tauto.
Qed.

Definition store_generated : Redis :=
  perform (Generate no_faults 1000 "a1") empty_store.
Definition store_assigned : Redis :=
  perform (Assign no_faults 1000 "a1") store_generated.

Lemma reachable_token_in_one_state_witness :
  ¬ (Available store_assigned "a1" ∧ Assigned store_assigned "a1")
  ∧ ((Available store_assigned "a1" ∧ ¬ Assigned store_assigned "a1"
      ∧ ¬ Absent store_assigned "a1")
     ∨ (¬ Available store_assigned "a1" ∧ Assigned store_assigned "a1"
        ∧ ¬ Absent store_assigned "a1")
     ∨ (¬ Available store_assigned "a1" ∧ ¬ Assigned store_assigned "a1"
        ∧ Absent store_assigned "a1")).
Proof.
  apply reachable_token_in_one_state.
  apply reachable_perform; [apply reachable_perform|].
  - apply reachable_empty.
  - simpl. split; apply not_elem_of_empty.
  - exact I.
Defined.

(** ** Reconcile after an Assign that is never renewed *)

Lemma AssignToken_Ok f now pick r r' t :
  AssignToken f now pick r = (r', Ok t) →
  t ∈ token_pool r ∧ view r' t = (false, true, Some (now + 60)).
Proof.
  unfold AssignToken. unfold_st. simpl.
  destruct (spop_fails f); [done|].
  destruct (spop_choice pick (token_pool r)) as [m|] eqn:Hpick; [|done].
  apply spop_choice_elem in Hpick. simpl.
  destruct (setnx_fails f); [done|].
  destruct (key_live now (lock_key m) _); [done|]. simpl.
  destruct (exec_fails f); [by destruct (del_fails f)|]. simpl.
  intros [= <- <-]. split; [done|]. unfold view. simpl.
  rewrite lookup_insert_eq.
  rewrite bool_decide_eq_false_2 by set_solver.
  by rewrite bool_decide_eq_true_2 by set_solver.
Qed.

Lemma reconcile_view sched now r t :
  view (CleanupExpiredTokens sched no_faults no_faults now r).1 t
  = pool_sweep_on (now - TokenDeletionTime)
      (assigned_sweep_on (now - TokenAutoReleaseTime) (now - TokenDeletionTime)
         (view r t)).
Proof.
  rewrite CleanupExpiredTokens_store, run_sweeps_store.
  set (rB := now - TokenAutoReleaseTime). set (dB := now - TokenDeletionTime).
  destruct sched.
  - destruct (cleanupPoolTokens_no_faults dB
                (cleanupAssignedTokens no_faults rB dB r).1) as (_ & _ & ->).
    by destruct (cleanupAssignedTokens_no_faults rB dB r) as (_ & _ & ->).
  - destruct (cleanupAssignedTokens_no_faults rB dB
                (cleanupPoolTokens no_faults dB r).1) as (_ & _ & ->).
    destruct (cleanupPoolTokens_no_faults dB r) as (_ & _ & ->).
    by rewrite sweeps_commute_on.
Qed.

(** What one Reconcile at [now] does to a token whose view is the one Assign
    left at [T]: nothing before T + 120, back to the pool from T + 120 up to
    T + 360, deleted from T + 360 on. *)
Lemma reconcile_after_assign sched T now r t :
  view r t = (false, true, Some (T + 60)) →
  view (CleanupExpiredTokens sched no_faults no_faults now r).1 t
  = if bool_decide (T + 360 ≤ now) then (false, false, None)
    else if bool_decide (T + 120 ≤ now) then (true, false, Some (T + 60))
    else (false, true, Some (T + 60)).
Proof.
  intros Hv. rewrite reconcile_view, Hv.
  unfold pool_sweep_on, assigned_sweep_on, score_action, score_decision,
    TokenAutoReleaseTime, TokenDeletionTime.
  simpl. repeat (case_bool_decide; simpl); try done; lia.
Qed.

Lemma view_pool r t b a k : view r t = (b, a, k) → (t ∈ token_pool r ↔ b = true).
Proof. unfold view. intros [= <- _ _]. by rewrite bool_decide_eq_true. Qed.

Lemma view_assigned r t b a k :
  view r t = (b, a, k) → (t ∈ assigned_tokens r ↔ a = true).
Proof. unfold view. intros [= _ <- _]. by rewrite bool_decide_eq_true. Qed.

(** C2, as the code behaves. A token assigned at T and not renewed is still
    assigned, and not in the pool, after a Reconcile run at any instant from
    T + lease window up to T + twice the lease window: the deadline Assign
    wrote is already T + 60 and the sweep compares it with now - 60. *)
Theorem lease_kept_past_its_window
    (sched : schedule) (f : Faults) (T now : Z) (pick t : string)
    (r0 r : Redis) :
  AssignToken f T pick r0 = (r, Ok t) →
  T + TokenAutoReleaseTime ≤ now < T + 2 * TokenAutoReleaseTime →
  let r' := (CleanupExpiredTokens sched no_faults no_faults now r).1 in
  t ∈ assigned_tokens r' ∧ t ∉ token_pool r'.
Proof.
  unfold TokenAutoReleaseTime. intros [_ Hv]%AssignToken_Ok Hnow. simpl.
  pose proof (reconcile_after_assign sched T now r t Hv) as Hv'.
  rewrite bool_decide_eq_false_2, bool_decide_eq_false_2 in Hv' by lia.
  rewrite (view_assigned _ _ _ _ _ Hv'), (view_pool _ _ _ _ _ Hv'). done.
Qed.

Lemma lease_kept_past_its_window_witness :
  "a1" ∈ assigned_tokens
           (CleanupExpiredTokens AssignedThenPool no_faults no_faults 1060
              store_assigned).1
  ∧ "a1" ∉ token_pool
             (CleanupExpiredTokens AssignedThenPool no_faults no_faults 1060
                store_assigned).1.
Proof.
  apply (lease_kept_past_its_window AssignedThenPool no_faults 1000 1060 "a1"
           "a1" store_generated store_assigned).
  - vm_compute. reflexivity.
  - unfold TokenAutoReleaseTime. lia.
Defined.

(** C4, as the code behaves. A token assigned at T and not renewed is moved
    to the available pool, not deleted, by a Reconcile run at any instant
    from T + deletion threshold up to T + deletion threshold + lease
    window. *)
Theorem stale_lease_released_not_deleted
    (sched : schedule) (f : Faults) (T now : Z) (pick t : string)
    (r0 r : Redis) :
  AssignToken f T pick r0 = (r, Ok t) →
  T + TokenDeletionTime ≤ now < T + TokenDeletionTime + TokenAutoReleaseTime →
  let r' := (CleanupExpiredTokens sched no_faults no_faults now r).1 in
  t ∈ token_pool r' ∧ t ∉ assigned_tokens r'.
Proof.
  unfold TokenAutoReleaseTime, TokenDeletionTime.
  intros [_ Hv]%AssignToken_Ok Hnow. simpl.
  pose proof (reconcile_after_assign sched T now r t Hv) as Hv'.
  rewrite bool_decide_eq_false_2, bool_decide_eq_true_2 in Hv' by lia.
  rewrite (view_assigned _ _ _ _ _ Hv'), (view_pool _ _ _ _ _ Hv'). done.
Qed.

Lemma stale_lease_released_not_deleted_witness :
  "a1" ∈ token_pool
           (CleanupExpiredTokens AssignedThenPool no_faults no_faults 1300
              store_assigned).1
  ∧ "a1" ∉ assigned_tokens
             (CleanupExpiredTokens AssignedThenPool no_faults no_faults 1300
                store_assigned).1.
Proof.
  apply (stale_lease_released_not_deleted AssignedThenPool no_faults 1000 1300
           "a1" "a1" store_generated store_assigned).
  - vm_compute. reflexivity.
  - unfold TokenAutoReleaseTime, TokenDeletionTime. lia.
Defined.

(** ** Reconcile when one sweep fails *)

Lemma failed_assigned_sweep_store f releaseBefore deleteBefore r :
  is_Some (ProcessingError
             (cleanupAssignedTokens f releaseBefore deleteBefore r).2) →
  (cleanupAssignedTokens f releaseBefore deleteBefore r).1 = r.
Proof.
  destruct (cleanupAssignedTokens_cases f releaseBefore deleteBefore r)
    as [[_ ->]|[(_ & _ & ->)|[(_ & _ & _ & ->)|(_ & _ & _ & -> & _)]]];
    try done.
  rewrite tally_error. by intros [? ?].
Qed.

Lemma failed_pool_sweep_store f deleteBefore r :
  is_Some (ProcessingError (cleanupPoolTokens f deleteBefore r).2) →
  (cleanupPoolTokens f deleteBefore r).1 = r.
Proof.
  destruct (cleanupPoolTokens_cases f deleteBefore r)
    as [[_ ->]|[(_ & _ & ->)|[(_ & _ & _ & -> & _)
       |[(_ & _ & _ & _ & ->)|(_ & _ & _ & _ & -> & _)]]]];
    try done.
  rewrite pool_tally_error. by intros [? ?].
Qed.

Lemma collect_two_error (x y : CleanupResult) :
  ProcessingError (foldl collect empty_result [x; y])
  = match ProcessingError x with
    | Some e => Some e
    | None => ProcessingError y
    end.
Proof.
  unfold collect. simpl.
  by destruct (ProcessingError x), (ProcessingError y).
Qed.

Lemma CleanupExpiredTokens_error sched fa fp now r e :
  ProcessingError (cleanupExpiredTokens sched fa fp now r).2 = Some e →
  (CleanupExpiredTokens sched fa fp now r).2 = Err e.
Proof.
  unfold CleanupExpiredTokens. unfold_st.
  destruct (cleanupExpiredTokens sched fa fp now r) as [r1 res]. simpl.
  by intros ->.
Qed.

(** C3, as amended. When exactly one of the two sweeps ends with a
    processing error and the other does not, Reconcile returns that error
    and no counts; the store it leaves is the one the successful sweep
    commits when run alone, and that sweep's counts are those of its run
    alone, dropped with the result. *)
Theorem one_failed_sweep_hides_the_counts
    (sched : schedule) (fa fp : Faults) (now : Z) (r : Redis)
    (a p : CleanupResult) (e : error) :
  let releaseBefore := now - TokenAutoReleaseTime in
  let deleteBefore := now - TokenDeletionTime in
  sweep_results sched fa fp releaseBefore deleteBefore r = (a, p) →
  (ProcessingError a = Some e ∧ ProcessingError p = None)
  ∨ (ProcessingError p = Some e ∧ ProcessingError a = None) →
  (CleanupExpiredTokens sched fa fp now r).2 = Err e
  ∧ (ProcessingError p = None →
     (CleanupExpiredTokens sched fa fp now r).1
     = (cleanupPoolTokens fp deleteBefore r).1
     ∧ p = (cleanupPoolTokens fp deleteBefore r).2)
  ∧ (ProcessingError a = None →
     (CleanupExpiredTokens sched fa fp now r).1
     = (cleanupAssignedTokens fa releaseBefore deleteBefore r).1
     ∧ a = (cleanupAssignedTokens fa releaseBefore deleteBefore r).2).
Proof.
  intros rB dB Hres Hone. split.
  - apply CleanupExpiredTokens_error.
    unfold cleanupExpiredTokens, run_sweeps. unfold_st. fold rB dB.
    unfold sweep_results in Hres. destruct sched.
    + destruct (cleanupAssignedTokens fa rB dB r) as [r1 a'].
      destruct (cleanupPoolTokens fp dB r1) as [r2 p']. simpl in Hres.
      injection Hres as -> ->. cbv beta iota. cbn [snd].
      rewrite collect_two_error.
      destruct Hone as [[-> _]|[-> ->]]; done.
    + destruct (cleanupPoolTokens fp dB r) as [r1 p'].
      destruct (cleanupAssignedTokens fa rB dB r1) as [r2 a']. simpl in Hres.
      injection Hres as -> ->. cbv beta iota. cbn [snd].
      rewrite collect_two_error.
      destruct Hone as [[-> ->]|[-> _]]; done.
  - rewrite CleanupExpiredTokens_store, run_sweeps_store. fold rB dB.
    unfold sweep_results in Hres.
    split; intros Hok; destruct Hone as [[Ha Hp]|[Hp Ha]]; try congruence;
      destruct sched.
    + destruct (cleanupAssignedTokens fa rB dB r) as [r1 a'] eqn:EA.
      injection Hres as -> <-. simpl.
      pose proof (failed_assigned_sweep_store fa rB dB r) as Hst.
      rewrite EA in Hst. simpl in Hst. by rewrite Hst by by rewrite Ha.
    + destruct (cleanupPoolTokens fp dB r) as [r1 p'] eqn:EP.
      injection Hres as <- ->. simpl. split; [|done].
      apply failed_assigned_sweep_store. by rewrite Ha.
    + destruct (cleanupAssignedTokens fa rB dB r) as [r1 a'] eqn:EA.
      injection Hres as -> <-. simpl. split; [|done].
      apply failed_pool_sweep_store. by rewrite Hp.
    + destruct (cleanupPoolTokens fp dB r) as [r1 p'] eqn:EP.
      injection Hres as <- ->. simpl.
      pose proof (failed_pool_sweep_store fp dB r) as Hst.
      rewrite EP in Hst. simpl in Hst. by rewrite Hst by by rewrite Hp.
Qed.

(** Only the transaction (Exec) of the call fails. *)
Definition exec_fails_only : Faults :=
  mkFaults false false false false (λ _, false) false (λ _, false) true
    false.

(** Only the SETNX of the call fails. *)
Definition setnx_fails_only : Faults :=
  mkFaults false false false true (λ _, false) false (λ _, false) false
    false.

(** "a1" generated at 900 and assigned at 940, "b1" generated at 1000. *)
Definition store_two_tokens : Redis :=
  perform (Assign no_faults 940 "a1")
    (perform (Generate no_faults 1000 "b1")
       (perform (Generate no_faults 900 "a1") empty_store)).

(** "a1" popped from the pool by an Assign whose SETNX failed. *)
Definition store_orphan : Redis :=
  perform (Assign setnx_fails_only 1000 "a1") store_generated.

Ltac by_compute :=
  match goal with
  | |- ?P => apply (bool_decide_unpack P); vm_compute; exact I
  end.

(** C3, as stated, fails: at 1300 the assigned sweep commits the deletion
    of "a1" (one token deleted), the pool sweep queues the removal of "b1"
    and its transaction fails, and Reconcile returns the error alone, with no
    counts. *)
Lemma failed_sweep_counts_not_reported :
  let committed :=
    (cleanupAssignedTokens no_faults 1240 1000 store_two_tokens).1 in
  let out := CleanupExpiredTokens AssignedThenPool no_faults exec_fails_only
               1300 store_two_tokens in
  (cleanupAssignedTokens no_faults 1240 1000 store_two_tokens).2
  = mkCleanupResult 0 1 None
  ∧ "a1" ∈ assigned_tokens store_two_tokens
  ∧ ("a1" ∉ assigned_tokens out.1)
  ∧ (pool_loop exec_fails_only 1000 (elements (token_pool committed)) []
       empty_result committed).2
    = inr ([SRem KeyTokenPool "b1"; ZRem KeyKeepaliveTokens "b1"],
           mkCleanupResult 0 1 None)
  ∧ ProcessingError (cleanupPoolTokens exec_fails_only 1000 committed).2
    = Some (Wrapped "failed to execute cleanup for pool tokens" ErrRedis)
  ∧ out.2 = Err (Wrapped "failed to execute cleanup for pool tokens" ErrRedis)
  ∧ ¬ ∃ counts, out.2 = Ok counts.
Proof.
  cbv zeta.
  split; [vm_compute; reflexivity|].
  split; [by_compute|].
  split; [by_compute|].
  split; [vm_compute; reflexivity|].
  split; [vm_compute; reflexivity|].
  split; [vm_compute; reflexivity|].
  intros [counts H]. vm_compute in H. discriminate H.
Qed.

Lemma one_failed_sweep_hides_the_counts_witness :
  (CleanupExpiredTokens AssignedThenPool no_faults exec_fails_only 1300
     store_two_tokens).2
  = Err (Wrapped "failed to execute cleanup for pool tokens" ErrRedis)
  ∧ (ProcessingError
       (mkCleanupResult 0 1
          (Some (Wrapped "failed to execute cleanup for pool tokens" ErrRedis)))
     = None →
     (CleanupExpiredTokens AssignedThenPool no_faults exec_fails_only 1300
        store_two_tokens).1
     = (cleanupPoolTokens exec_fails_only (1300 - TokenDeletionTime)
          store_two_tokens).1
     ∧ mkCleanupResult 0 1
         (Some (Wrapped "failed to execute cleanup for pool tokens" ErrRedis))
       = (cleanupPoolTokens exec_fails_only (1300 - TokenDeletionTime)
            store_two_tokens).2)
  ∧ (ProcessingError (mkCleanupResult 0 1 None) = None →
     (CleanupExpiredTokens AssignedThenPool no_faults exec_fails_only 1300
        store_two_tokens).1
     = (cleanupAssignedTokens no_faults (1300 - TokenAutoReleaseTime)
          (1300 - TokenDeletionTime) store_two_tokens).1
     ∧ mkCleanupResult 0 1 None
       = (cleanupAssignedTokens no_faults (1300 - TokenAutoReleaseTime)
            (1300 - TokenDeletionTime) store_two_tokens).2).
Proof.
  apply (one_failed_sweep_hides_the_counts AssignedThenPool no_faults
           exec_fails_only 1300 store_two_tokens (mkCleanupResult 0 1 None)
           (mkCleanupResult 0 1
              (Some (Wrapped "failed to execute cleanup for pool tokens"
                       ErrRedis)))
           (Wrapped "failed to execute cleanup for pool tokens" ErrRedis)).
  - vm_compute. reflexivity.
  - right. split; reflexivity.
Defined.

Lemma Assign_failed_publish_lock_rollback_witness :
  let r' := (AssignToken exec_fails_only 1000 "a1" store_generated).1 in
  (AssignToken exec_fails_only 1000 "a1" store_generated).2 = Err ErrRedis
  ∧ ("a1" ∉ token_pool r') ∧ ("a1" ∉ assigned_tokens r')
  ∧ (del_fails exec_fails_only = false →
     lock_keys r' !! lock_key "a1" = None
     ∧ ∀ instant, key_live instant (lock_key "a1") r' = false)
  ∧ (del_fails exec_fails_only = true →
     lock_keys r' !! lock_key "a1" = Some (LockValue, 1000 + TokenLockTime)
     ∧ ∀ instant, key_live instant (lock_key "a1") r'
                  = bool_decide (instant < 1000 + TokenLockTime)).
Proof.
  apply (Assign_failed_publish_lock_rollback exec_fails_only 1000 "a1" "a1"
           store_generated).
  - apply reachable_I1, reachable_perform; [apply reachable_empty|].
    simpl. split; apply not_elem_of_empty.
  - reflexivity.
  - vm_compute. reflexivity.
  - reflexivity.
  - vm_compute. reflexivity.
  - reflexivity.
Defined.

(** The transaction of the call and the DEL that follows it both fail. *)
Definition exec_and_del_fail : Faults :=
  mkFaults false false false false (λ _, false) false (λ _, false) true
    true.

(** C5, as stated, fails: SPOP and SETNX answer, the transaction of
    step (c) fails and so does the DEL; Assign returns the error and the lock
    key of the popped token is still held, until 1060. *)
Lemma failed_DEL_leaves_the_lock :
  let out := AssignToken exec_and_del_fail 1000 "a1" store_generated in
  I1 store_generated
  ∧ spop_choice "a1" (token_pool store_generated) = Some "a1"
  ∧ key_live 1000 (lock_key "a1") store_generated = false
  ∧ exec_fails exec_and_del_fail = true
  ∧ out.2 = Err ErrRedis
  ∧ lock_keys out.1 !! lock_key "a1" = Some (LockValue, 1060)
  ∧ key_live 1000 (lock_key "a1") out.1 = true
  ∧ key_live 1059 (lock_key "a1") out.1 = true.
Proof.
  cbv zeta. split.
  { apply reachable_I1, reachable_perform; [apply reachable_empty|].
    simpl. split; apply not_elem_of_empty. }
  repeat split; vm_compute; reflexivity.
Qed.

Lemma Delete_orphan_succeeds_witness :
  (DeleteToken no_faults "a1" store_orphan).2 = None
  ∧ keepalive_tokens (DeleteToken no_faults "a1" store_orphan).1 !! "a1" = None.
Proof.
  apply (Delete_orphan_succeeds no_faults "a1" store_orphan).
  - reflexivity.
  - by_compute.
  - by_compute.
  - by_compute.
Defined.

(** ** the goroutines call by call: I1 under every interleaving *)

(** A pipeline whose execution keeps I1. *)
Definition I1_safe (pipe : list command) : Prop :=
  ∀ r, I1 r → I1 (apply_all pipe r).1.

Definition task_safe (k : task) : Prop :=
  match k with
  | Scanning _ pipe _ => I1_safe pipe
  | _ => True
  end.

Lemma I1_safe_nil : I1_safe [].
Proof. by intros r. Qed.

Lemma I1_safe_app p q : I1_safe p → I1_safe q → I1_safe (p ++ q).
Proof. intros Hp Hq r Hr. rewrite apply_all_app. by apply Hq, Hp. Qed.

Lemma I1_safe_assigned_commands (act : string → action) tokens :
  I1_safe (flat_map (λ u, assigned_commands (act u) u) tokens).
Proof.
  intros r Hr. apply I1_view. intros t. rewrite view_assigned_commands.
  rewrite I1_view in Hr. specialize (Hr t). case_decide; [|done].
  destruct (act t), (view r t) as [[p a] k]; simpl in *; try done.
  by destruct p.
Qed.

Lemma I1_safe_pool_commands (act : string → pool_action) tokens :
  I1_safe (flat_map (λ u, pool_commands (act u) u) tokens).
Proof.
  intros r Hr. apply I1_view. intros t. rewrite view_pool_commands.
  rewrite I1_view in Hr. specialize (Hr t). case_decide; [|done].
  by destruct (act t), (view r t) as [[p a] k].
Qed.

Section Interleaving.
Variables (fa fp : Faults) (releaseBefore deleteBefore : Z).

Lemma assigned_step_safe k r :
  I1 r → task_safe k →
  I1 (assigned_step fa releaseBefore deleteBefore k r).1
  ∧ task_safe (assigned_step fa releaseBefore deleteBefore k r).2.
Proof.
  intros Hr Hk. destruct k as [|[|t ts] pipe res| |]; cbn [assigned_step].
  - unfold_st. destruct (smembers_fails fa); [done|].
    case_bool_decide; [done|]. split; [done|apply I1_safe_nil].
  - unfold_st. destruct (exec_fails fa); [done|].
    pose proof (Hk r Hr) as H. by destruct (apply_all pipe r).
  - unfold mbind, St_bind. rewrite assigned_loop_spec. split; [done|].
    apply I1_safe_app; [done|].
    apply (I1_safe_assigned_commands
             (assigned_action fa releaseBefore deleteBefore r) [t]).
  - done.
  - done.
Qed.

Lemma pool_step_safe k r :
  I1 r → task_safe k →
  I1 (pool_step fp deleteBefore k r).1
  ∧ task_safe (pool_step fp deleteBefore k r).2.
Proof.
  intros Hr Hk. destruct k as [|[|t ts] pipe res| |]; cbn [pool_step].
  - unfold_st. destruct (smembers_fails fp); [done|].
    case_bool_decide; [done|]. split; [done|apply I1_safe_nil].
  - unfold_st. destruct (exec_fails fp); [done|].
    pose proof (Hk r Hr) as H. by destruct (apply_all pipe r).
  - unfold mbind, St_bind.
    destruct (pool_loop_cases fp deleteBefore [t] pipe res r)
      as [(res' & -> & _)|[-> _]]; [done|].
    split; [done|]. apply I1_safe_app; [done|].
    apply (I1_safe_pool_commands (pool_decision deleteBefore r) [t]).
  - done.
  - done.
Qed.

Definition goroutines_safe (g : goroutines) : Prop :=
  task_safe g.1.1 ∧ task_safe g.1.2.

Lemma turn_safe b g r :
  I1 r → goroutines_safe g →
  I1 (turn fa fp releaseBefore deleteBefore b g r).1
  ∧ goroutines_safe (turn fa fp releaseBefore deleteBefore b g r).2.
Proof.
  intros Hr Hg. destruct g as [[ka kp] chan], Hg as [Ha Hp], b;
    cbn [turn]; rewrite St_bind_run; cbn [fst snd] in *.
  - destruct (assigned_step_safe ka r Hr Ha) as [H1 H2]. by repeat split.
  - destruct (pool_step_safe kp r Hr Hp) as [H1 H2]. by repeat split.
Qed.

Lemma interleave_safe turns g r :
  I1 r → goroutines_safe g →
  I1 (interleave fa fp releaseBefore deleteBefore turns g r).1
  ∧ goroutines_safe (interleave fa fp releaseBefore deleteBefore turns g r).2.
Proof.
  revert g r. induction turns as [|b turns IH]; intros g r Hr Hg; [done|].
  cbn [interleave]. rewrite St_bind_run.
  destruct (turn_safe b g r Hr Hg) as [H1 H2]. by apply IH.
Qed.

Lemma assigned_rest_safe k r :
  I1 r → task_safe k →
  I1 (assigned_rest fa releaseBefore deleteBefore k r).1.
Proof.
  intros Hr Hk. destruct k as [|ts pipe res| |]; cbn [assigned_rest];
    try done.
  - rewrite St_bind_run. by apply I1_cleanupAssignedTokens.
  - rewrite St_bind_run, assigned_loop_spec. cbn [fst snd].
    rewrite St_bind_run. apply assigned_step_safe; [done|].
    apply I1_safe_app; [done|apply I1_safe_assigned_commands].
Qed.

Lemma pool_rest_safe k r :
  I1 r → task_safe k → I1 (pool_rest fp deleteBefore k r).1.
Proof.
  intros Hr Hk. destruct k as [|ts pipe res| |]; cbn [pool_rest]; try done.
  - rewrite St_bind_run. by apply I1_cleanupPoolTokens.
  - rewrite St_bind_run.
    destruct (pool_loop_cases fp deleteBefore ts pipe res r)
      as [(res' & -> & _)|[-> _]]; [done|].
    cbn [fst snd]. rewrite St_bind_run. apply pool_step_safe; [done|].
    apply I1_safe_app; [done|apply I1_safe_pool_commands].
Qed.
End Interleaving.

(** With no turn given, the interleaved run is the assigned sweep followed
    by the pool sweep. *)
Lemma interleaved_nil (fa fp : Faults) (now : Z) (r : Redis) :
  cleanupExpiredTokens_interleaved [] fa fp now r
  = cleanupExpiredTokens AssignedThenPool fa fp now r.
Proof.
  unfold cleanupExpiredTokens_interleaved, cleanupExpiredTokens, run_sweeps.
  unfold_st. simpl. unfold_st.
  destruct (cleanupAssignedTokens _ _ _ r) as [r1 a].
  by destruct (cleanupPoolTokens _ _ r1) as [r2 p].
Qed.

(** X1. Whatever the order in which the calls of the two goroutines reach the
    store, and whichever of them fail, cleanupExpiredTokens keeps I1. *)
Theorem interleaved_reconcile_keeps_I1
    (turns : list bool) (fa fp : Faults) (now : Z) (r : Redis) :
  I1 r → I1 (cleanupExpiredTokens_interleaved turns fa fp now r).1.
Proof.
  intros Hr. unfold cleanupExpiredTokens_interleaved.
  rewrite St_bind_run.
  pose proof (interleave_safe fa fp (now - TokenAutoReleaseTime)
                (now - TokenDeletionTime) turns (Fetching, Fetching, []) r Hr)
    as [Hr1 [Ha Hp]]; [done|].
  destruct (interleave _ _ _ _ turns _ r) as [r1 [[ka kp] chan]].
  cbn [fst snd] in *. rewrite !St_bind_run.
  apply pool_rest_safe; [|done]. by apply assigned_rest_safe.
Qed.

(** ** the goroutines call by call: every interleaving is serial *)

(** A decision the pool goroutine took earlier still fits the score now. *)
Definition compat (deleteBefore : Z) (d : pool_action) (k : option Z) : Prop :=
  match d with
  | PKeep => score_decision deleteBefore k = PKeep
  | PPurge => score_decision deleteBefore k ≠ PKeep
  | PDrop => k = None
  end.

Lemma compat_decision deleteBefore k :
  compat deleteBefore (score_decision deleteBefore k) k.
Proof.
  destruct k as [e|]; unfold compat, score_decision; [|done].
  by case_bool_decide.
Qed.

Lemma compat_after_assigned releaseBefore deleteBefore d v :
  compat deleteBefore d v.2 →
  compat deleteBefore d (assigned_sweep_on releaseBefore deleteBefore v).2.
Proof.
  destruct v as [[p []] [e|]], d;
    unfold compat, assigned_sweep_on, score_action, score_decision; simpl;
    repeat (case_bool_decide; simpl); try done; lia.
Qed.

Lemma pool_kept_after_assigned releaseBefore deleteBefore v :
  v.1.1 = true → (assigned_sweep_on releaseBefore deleteBefore v).1.1 = true.
Proof.
  destruct v as [[p []] [e|]]; unfold assigned_sweep_on, score_action; simpl;
    repeat (case_bool_decide; simpl); done.
Qed.

Lemma released_is_kept releaseBefore deleteBefore v :
  (assigned_sweep_on releaseBefore deleteBefore v).1.1 = true →
  v.1.1 = false →
  score_decision deleteBefore
    (assigned_sweep_on releaseBefore deleteBefore v).2 = PKeep.
Proof.
  destruct v as [[p []] [e|]];
    unfold assigned_sweep_on, score_action, score_decision; simpl;
    repeat (case_bool_decide; simpl); try done; try congruence; lia.
Qed.

Lemma pool_on_compat deleteBefore d v :
  v.1.1 = true → compat deleteBefore d v.2 →
  pool_on d v = pool_sweep_on deleteBefore v.
Proof.
  destruct v as [[p a] [e|]], d;
    unfold compat, pool_sweep_on, score_decision; simpl;
    intros ->; repeat (case_bool_decide; simpl); try done.
Qed.

Lemma assigned_sweep_on_unassigned releaseBefore deleteBefore v :
  v.1.2 = false → assigned_sweep_on releaseBefore deleteBefore v = v.
Proof. unfold assigned_sweep_on. by intros ->. Qed.

Lemma pool_sweep_on_kept deleteBefore v :
  v.1.1 = false ∨ score_decision deleteBefore v.2 = PKeep →
  pool_sweep_on deleteBefore v = v.
Proof.
  unfold pool_sweep_on. intros [->| ->]; [done|]. by destruct v as [[[] ?] ?].
Qed.

(** Sums over resultChan. *)
Definition released_sum (l : list CleanupResult) : Z :=
  foldr (λ c n, TokensReleased c + n) 0 l.
Definition deleted_sum (l : list CleanupResult) : Z :=
  foldr (λ c n, TokensDeleted c + n) 0 l.

Lemma released_sum_app l l' :
  released_sum (l ++ l') = released_sum l + released_sum l'.
Proof. induction l as [|c l IH]; simpl; [done|]. rewrite IH. lia. Qed.

Lemma deleted_sum_app l l' :
  deleted_sum (l ++ l') = deleted_sum l + deleted_sum l'.
Proof. induction l as [|c l IH]; simpl; [done|]. rewrite IH. lia. Qed.

Lemma collect_no_error (l : list CleanupResult) (c : CleanupResult) :
  ProcessingError c = None →
  Forall (λ x, ProcessingError x = None) l →
  foldl collect c l
  = mkCleanupResult (TokensReleased c + released_sum l)
      (TokensDeleted c + deleted_sum l) None.
Proof.
  intros Hc Hl. revert c Hc. induction Hl as [|x l Hx Hl IH]; intros c Hc.
  - destruct c. simpl in *. subst. f_equal; lia.
  - cbn [foldl]. rewrite IH.
    + unfold collect. simpl. f_equal; lia.
    + unfold collect. simpl. by rewrite Hx.
Qed.

Definition pending (k : task) : bool :=
  match k with
  | Fetching | Scanning _ _ _ => true
  | _ => false
  end.

(** What a goroutine is still expected to send, [counts] being what its
    sweep counts on the store as it is now. *)
Definition expected (counts : CleanupResult) (k : task) : CleanupResult :=
  match k with
  | Fetching | Scanning _ _ _ => counts
  | Sending result => result
  | Exited => empty_result
  end.

Section Serial.
Variables (releaseBefore deleteBefore : Z).

(** The view of a token once the goroutines still pending have swept. *)
Definition outcome (ka kp : task) (v : bool * bool * option Z)
  : bool * bool * option Z :=
  let v1 := if pending ka
            then assigned_sweep_on releaseBefore deleteBefore v else v in
  if pending kp then pool_sweep_on deleteBefore v1 else v1.

(** The assigned goroutine in its loop holds the commands and counts of
    the tokens it has read, as the store would make it decide now. *)
Definition assigned_inv (r : Redis) (k : task) : Prop :=
  match k with
  | Scanning tokens pipe result =>
      ∃ seen,
        seen ++ tokens = elements (assigned_tokens r)
        ∧ pipe = flat_map
                   (λ t, assigned_commands
                           (score_action releaseBefore deleteBefore
                              (keepalive_tokens r !! t)) t) seen
        ∧ result = foldl
                     (λ c t, tally (score_action releaseBefore deleteBefore
                                      (keepalive_tokens r !! t)) c)
                     empty_result seen
  | Sending result => ProcessingError result = None
  | _ => True
  end.

(** The pool goroutine in its loop: the tokens it fetched are in the pool,
    the pool tokens it did not fetch are kept by the sweep, and its
    decisions so far fit the scores as they are now. *)
Definition pool_inv (r : Redis) (k : task) : Prop :=
  match k with
  | Scanning tokens pipe result =>
      ∃ seen (d : string → pool_action),
        NoDup (seen ++ tokens)
        ∧ (∀ t, t ∈ seen ++ tokens → t ∈ token_pool r)
        ∧ (∀ t, t ∈ token_pool r → t ∉ seen ++ tokens →
                score_decision deleteBefore (keepalive_tokens r !! t) = PKeep)
        ∧ pipe = flat_map (λ t, pool_commands (d t) t) seen
        ∧ result = foldl (λ c t, pool_tally (d t) c) empty_result seen
        ∧ (∀ t, t ∈ seen → compat deleteBefore (d t) (keepalive_tokens r !! t))
  | Sending result => ProcessingError result = None
  | _ => True
  end.

Record serial_inv (r0 r : Redis) (g : goroutines) : Prop := mk_serial_inv {
  inv_assigned : assigned_inv r g.1.1;
  inv_pool : pool_inv r g.1.2;
  inv_chan : Forall (λ c, ProcessingError c = None) g.2;
  inv_locks : lock_keys r = lock_keys r0;
  inv_view : ∀ t, outcome g.1.1 g.1.2 (view r t)
                  = outcome Fetching Fetching (view r0 t);
  inv_released :
    released_sum g.2
    + TokensReleased
        (expected (assigned_counts releaseBefore deleteBefore r) g.1.1)
    + TokensReleased (expected (pool_counts deleteBefore r) g.1.2)
    = TokensReleased (assigned_counts releaseBefore deleteBefore r0)
      + TokensReleased (pool_counts deleteBefore r0);
  inv_deleted :
    deleted_sum g.2
    + TokensDeleted
        (expected (assigned_counts releaseBefore deleteBefore r) g.1.1)
    + TokensDeleted (expected (pool_counts deleteBefore r) g.1.2)
    = TokensDeleted (assigned_counts releaseBefore deleteBefore r0)
      + TokensDeleted (pool_counts deleteBefore r0)
}.

Lemma serial_inv_init r0 : serial_inv r0 r0 (Fetching, Fetching, []).
Proof. split; simpl; try done. Qed.

(** The steps of the assigned goroutine when no call fails. *)
Lemma assigned_step_fetch r :
  assigned_step no_faults releaseBefore deleteBefore Fetching r
  = (r, if bool_decide (assigned_tokens r = ∅) then Sending empty_result
        else Scanning (elements (assigned_tokens r)) [] empty_result).
Proof.
  cbn [assigned_step]. unfold_st. simpl.
  rewrite (bool_decide_ext _ _ (elements_nil_iff (assigned_tokens r))).
  by case_bool_decide.
Qed.

Lemma assigned_step_scan t ts pipe res r :
  assigned_step no_faults releaseBefore deleteBefore (Scanning (t :: ts) pipe res) r
  = (r, Scanning ts
          (pipe ++ assigned_commands
                     (score_action releaseBefore deleteBefore
                        (keepalive_tokens r !! t)) t)
          (tally (score_action releaseBefore deleteBefore
                    (keepalive_tokens r !! t)) res)).
Proof.
  cbn [assigned_step]. rewrite St_bind_run, assigned_loop_spec.
  cbn [fst snd flat_map foldl]. by rewrite app_nil_r.
Qed.

Lemma assigned_step_exec pipe res r :
  assigned_step no_faults releaseBefore deleteBefore (Scanning [] pipe res) r
  = ((apply_all pipe r).1, Sending res).
Proof.
  cbn [assigned_step]. unfold_st. simpl. by destruct (apply_all pipe r).
Qed.

Lemma pool_step_fetch r :
  pool_step no_faults deleteBefore Fetching r
  = (r, if bool_decide (token_pool r = ∅) then Sending empty_result
        else Scanning (elements (token_pool r)) [] empty_result).
Proof.
  cbn [pool_step]. unfold_st. simpl.
  rewrite (bool_decide_ext _ _ (elements_nil_iff (token_pool r))).
  by case_bool_decide.
Qed.

Lemma pool_step_scan t ts pipe res r :
  pool_step no_faults deleteBefore (Scanning (t :: ts) pipe res) r
  = (r, Scanning ts
          (pipe ++ pool_commands
                     (score_decision deleteBefore (keepalive_tokens r !! t)) t)
          (pool_tally (score_decision deleteBefore (keepalive_tokens r !! t))
             res)).
Proof.
  cbn [pool_step]. rewrite St_bind_run.
  destruct (pool_loop_cases no_faults deleteBefore [t] pipe res r)
    as [(res' & _ & _ & u & _ & Hu)|[-> _]]; [done|].
  cbn [fst snd flat_map foldl]. by rewrite app_nil_r.
Qed.

Lemma pool_step_exec pipe res r :
  pool_step no_faults deleteBefore (Scanning [] pipe res) r
  = ((apply_all pipe r).1, Sending res).
Proof.
  cbn [pool_step]. unfold_st. simpl. by destruct (apply_all pipe r).
Qed.
End Serial.

Lemma flat_map_agree {A B} (f g : A → list B) (l : list A) :
  (∀ x, x ∈ l → f x = g x) → flat_map f l = flat_map g l.
Proof.
  induction l as [|x l IH]; intros H; [done|].
  simpl. rewrite (H x) by by left.
  rewrite IH; [done|]. intros y Hy. apply H. by right.
Qed.

Lemma foldl_agree {A B} (f g : A → B → A) (l : list B) (a : A) :
  (∀ c x, x ∈ l → f c x = g c x) → foldl f a l = foldl g a l.
Proof.
  revert a. induction l as [|x l IH]; intros a H; [done|].
  simpl. rewrite (H a x) by by left.
  apply IH. intros c y Hy. apply H. by right.
Qed.

Lemma view_in_pool r t : (view r t).1.1 = true ↔ t ∈ token_pool r.
Proof. unfold view. simpl. apply bool_decide_eq_true. Qed.

Lemma view_not_in_pool r t : (view r t).1.1 = false ↔ t ∉ token_pool r.
Proof. unfold view. simpl. apply bool_decide_eq_false. Qed.

Lemma view_is_assigned r t : (view r t).1.2 = true ↔ t ∈ assigned_tokens r.
Proof. unfold view. simpl. apply bool_decide_eq_true. Qed.

Section SerialSteps.
Variables (releaseBefore deleteBefore : Z).

Lemma assigned_inv_after_pool r r' k :
  (∀ t, view r' t = pool_sweep_on deleteBefore (view r t)) →
  assigned_inv releaseBefore deleteBefore r k →
  assigned_inv releaseBefore deleteBefore r' k.
Proof.
  intros Hv. destruct k as [|ts pipe res|res|]; try done.
  intros (seen & Hseen & -> & ->). exists seen.
  assert (Hsame : assigned_tokens r' = assigned_tokens r).
  { apply set_eq. intros t. rewrite <-!view_is_assigned, Hv.
    by rewrite assigned_after_pool. }
  assert (Hact : ∀ t, score_action releaseBefore deleteBefore
                        (keepalive_tokens r' !! t)
                      = score_action releaseBefore deleteBefore
                          (keepalive_tokens r !! t)).
  { intros t. change (keepalive_tokens r' !! t) with (view r' t).2.
    rewrite Hv. apply score_action_after_pool. }
  rewrite Hsame. split; [done|]. split.
  - apply flat_map_agree. intros t _. by rewrite Hact.
  - apply foldl_agree. intros c t _. by rewrite Hact.
Qed.

Lemma pool_inv_after_assigned r r' k :
  (∀ t, view r' t = assigned_sweep_on releaseBefore deleteBefore (view r t)) →
  pool_inv deleteBefore r k → pool_inv deleteBefore r' k.
Proof.
  intros Hv. destruct k as [|ts pipe res|res|]; try done.
  intros (seen & d & Hnd & Hin & Hout & -> & -> & Hd). exists seen, d.
  split; [done|]. split; [|split; [|split; [done|split; [done|]]]].
  - intros t Ht. rewrite <-view_in_pool, Hv.
    apply pool_kept_after_assigned, view_in_pool. by apply Hin.
  - intros t Ht Hnot.
    change (keepalive_tokens r' !! t) with (view r' t).2. rewrite Hv.
    destruct (decide (t ∈ token_pool r)) as [Hp|Hp].
    + apply (compat_after_assigned releaseBefore deleteBefore PKeep).
      by apply Hout.
    + apply released_is_kept.
      * rewrite <-Hv. by apply view_in_pool.
      * by apply view_not_in_pool.
  - intros t Ht. change (keepalive_tokens r' !! t) with (view r' t).2.
    rewrite Hv. apply compat_after_assigned. by apply Hd.
Qed.

(** Executing the pipeline of the assigned goroutine is the assigned sweep. *)
Lemma assigned_exec_view r pipe res t :
  assigned_inv releaseBefore deleteBefore r (Scanning [] pipe res) →
  view (apply_all pipe r).1 t
  = assigned_sweep_on releaseBefore deleteBefore (view r t)
  ∧ res = assigned_counts releaseBefore deleteBefore r.
Proof.
  intros (seen' & Hseen & -> & ->). rewrite app_nil_r in Hseen. subst seen'.
  split; [|done].
  rewrite (view_assigned_commands
             (λ t, score_action releaseBefore deleteBefore
                     (keepalive_tokens r !! t))).
  unfold assigned_sweep_on.
  change ((view r t).1.2) with (bool_decide (t ∈ assigned_tokens r)).
  change ((view r t).2) with (keepalive_tokens r !! t).
  destruct (decide (t ∈ assigned_tokens r)) as [Hin|Hin].
  - rewrite decide_True by by apply elem_of_elements.
    by rewrite bool_decide_eq_true_2.
  - rewrite decide_False by by rewrite elem_of_elements.
    by rewrite bool_decide_eq_false_2.
Qed.
(** Executing the pipeline of the pool goroutine is the pool sweep. *)
Lemma pool_exec_view r pipe res t :
  pool_inv deleteBefore r (Scanning [] pipe res) →
  view (apply_all pipe r).1 t = pool_sweep_on deleteBefore (view r t)
  ∧ res = pool_counts deleteBefore r.
Proof.
  intros (seen & d & Hnd & Hin & Hout & -> & -> & Hd).
  rewrite app_nil_r in Hnd, Hin, Hout. split.
  - rewrite view_pool_commands.
    destruct (decide (t ∈ seen)) as [Hs|Hs].
    + apply pool_on_compat; [by apply view_in_pool, Hin|by apply Hd].
    + symmetry. apply pool_sweep_on_kept.
      destruct (decide (t ∈ token_pool r)) as [Hp|Hp].
      * right. by apply Hout.
      * left. by apply view_not_in_pool.
  - unfold pool_counts. rewrite !foldl_pool_tally. do 2 f_equal. f_equal.
    apply Permutation_length, NoDup_Permutation.
    + by apply NoDup_filter.
    + apply NoDup_filter, NoDup_elements.
    + intros u. rewrite !list_elem_of_filter, elem_of_elements. unfold purges.
      split.
      * intros [Hpu Hu]. split; [|by apply Hin].
        specialize (Hd u Hu). destruct (d u); simpl in Hd; try done.
        by rewrite Hd.
      * intros [Hpu Hu].
        destruct (decide (u ∈ seen)) as [Hs|Hs]; [|by destruct Hpu; apply Hout].
        split; [|done]. intros Hk. specialize (Hd u Hs). rewrite Hk in Hd.
        done.
Qed.

Lemma assigned_turn_inv r0 r ka kp chan :
  serial_inv releaseBefore deleteBefore r0 r (ka, kp, chan) →
  serial_inv releaseBefore deleteBefore r0
    (assigned_step no_faults releaseBefore deleteBefore ka r).1
    ((assigned_step no_faults releaseBefore deleteBefore ka r).2, kp,
     chan ++ sent ka).
Proof.
  intros [HA HP HC HL HV HR HD]. cbn [fst snd] in *.
  destruct ka as [|[|t ts] pipe res|res|].
  - (* SMEMBERS *)
    rewrite assigned_step_fetch. cbn [fst snd sent]. rewrite app_nil_r.
    case_bool_decide as He; [|split; cbn [fst snd]; try done; by exists []].
    split; cbn [fst snd]; try done.
    + intros t. rewrite <-HV. unfold outcome. cbn [pending].
      rewrite assigned_sweep_on_unassigned; [done|].
      unfold view. simpl. rewrite He.
      by apply bool_decide_eq_false_2, not_elem_of_empty.
    + rewrite <-HR. cbn [expected]. unfold assigned_counts.
      by rewrite He, elements_empty.
    + rewrite <-HD. cbn [expected]. unfold assigned_counts.
      by rewrite He, elements_empty.
  - (* Exec *)
    rewrite assigned_step_exec. cbn [fst snd sent]. rewrite app_nil_r.
    assert (Hv : ∀ t, view (apply_all pipe r).1 t
                      = assigned_sweep_on releaseBefore deleteBefore (view r t))
      by (intros t; by apply (assigned_exec_view r pipe res t)).
    destruct (assigned_exec_view r pipe res "" HA) as [_ Hres].
    split; cbn [fst snd].
    + simpl. rewrite Hres. apply tally_error.
    + by apply (pool_inv_after_assigned r).
    + done.
    + by rewrite locks_apply_all.
    + intros t. rewrite <-HV. unfold outcome. cbn [pending]. by rewrite Hv.
    + rewrite <-HR. cbn [expected].
      rewrite (pool_counts_after_assigned_sweep releaseBefore deleteBefore r)
        by done.
      by rewrite Hres.
    + rewrite <-HD. cbn [expected].
      rewrite (pool_counts_after_assigned_sweep releaseBefore deleteBefore r)
        by done.
      by rewrite Hres.
  - (* ZSCORE *)
    rewrite assigned_step_scan. cbn [fst snd sent]. rewrite app_nil_r.
    split; cbn [fst snd]; try done.
    destruct HA as (seen & Hseen & -> & ->). exists (seen ++ [t]).
    rewrite <-app_assoc. split; [done|].
    rewrite flat_map_app, foldl_app. simpl. by rewrite app_nil_r.
  - (* the send *)
    cbn [assigned_step sent fst snd]. unfold mret, St_ret. cbn [fst snd].
    split; cbn [fst snd]; try done.
    + apply Forall_app. split; [done|]. by apply Forall_singleton.
    + rewrite <-HR, released_sum_app. simpl. lia.
    + rewrite <-HD, deleted_sum_app. simpl. lia.
  - cbn [assigned_step sent fst snd]. unfold mret, St_ret. cbn [fst snd].
    rewrite app_nil_r. by split.
Qed.
Lemma pool_turn_inv r0 r ka kp chan :
  serial_inv releaseBefore deleteBefore r0 r (ka, kp, chan) →
  serial_inv releaseBefore deleteBefore r0
    (pool_step no_faults deleteBefore kp r).1
    (ka, (pool_step no_faults deleteBefore kp r).2, chan ++ sent kp).
Proof.
  intros [HA HP HC HL HV HR HD]. cbn [fst snd] in *.
  destruct kp as [|[|t ts] pipe res|res|].
  - (* SMEMBERS *)
    rewrite pool_step_fetch. cbn [fst snd sent]. rewrite app_nil_r.
    case_bool_decide as He.
    + split; cbn [fst snd]; try done.
      * intros t. rewrite <-HV. unfold outcome. cbn [pending].
        symmetry. apply pool_sweep_on_kept.
        assert (Hp : (view r t).1.1 = false).
        { apply view_not_in_pool. rewrite He. apply not_elem_of_empty. }
        destruct (pending ka); [|by left].
        destruct ((assigned_sweep_on releaseBefore deleteBefore (view r t)).1.1)
          eqn:E; [|by left].
        right. by apply released_is_kept.
      * rewrite <-HR. cbn [expected]. unfold pool_counts.
        by rewrite He, elements_empty.
      * rewrite <-HD. cbn [expected]. unfold pool_counts.
        by rewrite He, elements_empty.
    + split; cbn [fst snd]; try done.
      exists [], (λ _, PKeep). cbn [app].
      split; [apply NoDup_elements|].
      split; [by intros t Ht%elem_of_elements|].
      split; [by intros t Ht%elem_of_elements|].
      split; [done|]. split; [done|]. by intros t Ht%elem_of_nil.
  - (* Exec *)
    rewrite pool_step_exec. cbn [fst snd sent]. rewrite app_nil_r.
    assert (Hv : ∀ t, view (apply_all pipe r).1 t
                      = pool_sweep_on deleteBefore (view r t))
      by (intros t; by apply (pool_exec_view r pipe res t)).
    destruct (pool_exec_view r pipe res "" HP) as [_ Hres].
    split; cbn [fst snd].
    + by apply (assigned_inv_after_pool r).
    + simpl. rewrite Hres. apply pool_tally_error.
    + done.
    + by rewrite locks_apply_all.
    + intros t. rewrite <-HV. unfold outcome. cbn [pending]. rewrite Hv.
      destruct (pending ka); [|done]. symmetry. apply sweeps_commute_on.
    + rewrite <-HR. cbn [expected].
      rewrite (assigned_counts_after_pool_sweep releaseBefore deleteBefore r)
        by done.
      by rewrite Hres.
    + rewrite <-HD. cbn [expected].
      rewrite (assigned_counts_after_pool_sweep releaseBefore deleteBefore r)
        by done.
      by rewrite Hres.
  - (* ZSCORE *)
    rewrite pool_step_scan. cbn [fst snd sent]. rewrite app_nil_r.
    split; cbn [fst snd]; try done.
    destruct HP as (seen & d & Hnd & Hin & Hout & -> & -> & Hd).
    set (dt := score_decision deleteBefore (keepalive_tokens r !! t)).
    exists (seen ++ [t]), (λ u, if decide (u = t) then dt else d u).
    rewrite <-app_assoc. cbn [app].
    assert (Hfresh : ∀ u, u ∈ seen → u ≠ t).
    { intros u Hu ->. apply NoDup_app in Hnd as (_ & Hnot & _).
      apply (Hnot t Hu). by left. }
    split; [done|]. split; [done|]. split; [done|].
    split; [|split].
    + rewrite flat_map_app. cbn [flat_map]. rewrite app_nil_r.
      rewrite decide_True by done. f_equal.
      apply flat_map_agree. intros u Hu.
      by rewrite decide_False by by apply Hfresh.
    + rewrite foldl_app. cbn [foldl]. rewrite decide_True by done. f_equal.
      apply foldl_agree. intros c u Hu.
      by rewrite decide_False by by apply Hfresh.
    + intros u [Hu|Hu%list_elem_of_singleton]%elem_of_app.
      * rewrite decide_False by by apply Hfresh. by apply Hd.
      * subst u. rewrite decide_True by done. apply compat_decision.
  - (* the send *)
    cbn [pool_step sent fst snd]. unfold mret, St_ret. cbn [fst snd].
    split; cbn [fst snd]; try done.
    + apply Forall_app. split; [done|]. by apply Forall_singleton.
    + rewrite <-HR, released_sum_app. simpl. lia.
    + rewrite <-HD, deleted_sum_app. simpl. lia.
  - cbn [pool_step sent fst snd]. unfold mret, St_ret. cbn [fst snd].
    rewrite app_nil_r. by split.
Qed.
End SerialSteps.

Lemma cleanupAssignedTokens_run releaseBefore deleteBefore r :
  cleanupAssignedTokens no_faults releaseBefore deleteBefore r
  = if bool_decide (assigned_tokens r = ∅) then (r, empty_result)
    else ((apply_all
             (flat_map
                (λ t, assigned_commands
                        (score_action releaseBefore deleteBefore
                           (keepalive_tokens r !! t)) t)
                (elements (assigned_tokens r))) r).1,
          assigned_counts releaseBefore deleteBefore r).
Proof.
  unfold cleanupAssignedTokens. rewrite St_bind_run.
  unfold SMembers. cbn [smembers_fails no_faults fst snd get_set].
  rewrite (bool_decide_ext _ _ (elements_nil_iff (assigned_tokens r))).
  case_bool_decide; [done|].
  rewrite St_bind_run, assigned_loop_spec. cbn [fst snd app].
  rewrite St_bind_run. unfold Exec. cbn [exec_fails no_faults].
  by destruct (apply_all _ r).
Qed.

Lemma cleanupPoolTokens_run deleteBefore r :
  cleanupPoolTokens no_faults deleteBefore r
  = if bool_decide (token_pool r = ∅) then (r, empty_result)
    else ((apply_all
             (flat_map
                (λ t, pool_commands
                        (score_decision deleteBefore (keepalive_tokens r !! t))
                        t)
                (elements (token_pool r))) r).1,
          pool_counts deleteBefore r).
Proof.
  unfold cleanupPoolTokens. rewrite St_bind_run.
  unfold SMembers. cbn [smembers_fails no_faults fst snd get_set].
  rewrite (bool_decide_ext _ _ (elements_nil_iff (token_pool r))).
  case_bool_decide; [done|].
  rewrite St_bind_run.
  destruct (pool_loop_cases no_faults deleteBefore (elements (token_pool r))
              [] empty_result r)
    as [(res' & _ & _ & u & _ & Hu)|[-> _]]; [done|].
  cbn [fst snd app]. rewrite St_bind_run. unfold Exec.
  cbn [exec_fails no_faults]. by destruct (apply_all _ r).
Qed.

Section SerialRuns.
Variables (releaseBefore deleteBefore : Z) (r0 : Redis).

Lemma turn_inv b g r :
  serial_inv releaseBefore deleteBefore r0 r g →
  serial_inv releaseBefore deleteBefore r0 (turn no_faults no_faults releaseBefore deleteBefore b g r).1
    (turn no_faults no_faults releaseBefore deleteBefore b g r).2.
Proof.
  destruct g as [[ka kp] chan], b; cbn [turn]; rewrite St_bind_run; intros H.
  - by apply assigned_turn_inv.
  - by apply pool_turn_inv.
Qed.

Lemma interleave_inv turns g r :
  serial_inv releaseBefore deleteBefore r0 r g →
  serial_inv releaseBefore deleteBefore r0 (interleave no_faults no_faults releaseBefore deleteBefore turns g r).1
    (interleave no_faults no_faults releaseBefore deleteBefore turns g r).2.
Proof.
  revert g r. induction turns as [|b turns IH]; intros g r H; [done|].
  cbn [interleave]. rewrite St_bind_run. by apply IH, turn_inv.
Qed.

(** Running a pending goroutine to its end is taking its next step and
    running it to its end from there. *)
Lemma assigned_rest_step k r :
  pending k = true →
  assigned_rest no_faults releaseBefore deleteBefore k r
  = assigned_rest no_faults releaseBefore deleteBefore
      (assigned_step no_faults releaseBefore deleteBefore k r).2
      (assigned_step no_faults releaseBefore deleteBefore k r).1.
Proof.
  destruct k as [|[|t ts] pipe res|res|]; try done; intros _.
  - rewrite assigned_step_fetch. cbn [fst snd].
    cbn [assigned_rest]. rewrite St_bind_run, cleanupAssignedTokens_run.
    case_bool_decide; [done|]. cbn [assigned_rest].
    rewrite St_bind_run, assigned_loop_spec. cbn [fst snd app].
    by rewrite St_bind_run, assigned_step_exec.
  - rewrite assigned_step_exec. cbn [fst snd assigned_rest].
    rewrite St_bind_run, assigned_loop_spec. cbn [fst snd flat_map foldl].
    rewrite app_nil_r, St_bind_run, assigned_step_exec. done.
  - rewrite assigned_step_scan. cbn [fst snd assigned_rest].
    rewrite !St_bind_run, !assigned_loop_spec. cbn [fst snd flat_map foldl].
    by rewrite <-app_assoc.
Qed.

Lemma pool_rest_step k r :
  pending k = true →
  pool_rest no_faults deleteBefore k r
  = pool_rest no_faults deleteBefore
      (pool_step no_faults deleteBefore k r).2
      (pool_step no_faults deleteBefore k r).1.
Proof.
  destruct k as [|[|t ts] pipe res|res|]; try done; intros _.
  - rewrite pool_step_fetch. cbn [fst snd].
    cbn [pool_rest]. rewrite St_bind_run, cleanupPoolTokens_run.
    case_bool_decide; [done|]. cbn [pool_rest].
    rewrite St_bind_run.
    destruct (pool_loop_cases no_faults deleteBefore (elements (token_pool r))
                [] empty_result r)
      as [(res' & _ & _ & u & _ & Hu)|[-> _]]; [done|].
    cbn [fst snd app]. by rewrite St_bind_run, pool_step_exec.
  - rewrite pool_step_exec. cbn [fst snd pool_rest].
    rewrite St_bind_run. cbn [pool_loop]. unfold mret at 1, St_ret at 1.
    cbn [fst snd]. by rewrite St_bind_run, pool_step_exec.
  - rewrite pool_step_scan. cbn [fst snd pool_rest].
    rewrite !St_bind_run.
    destruct (pool_loop_cases no_faults deleteBefore (t :: ts) pipe res r)
      as [(res' & _ & _ & u & _ & Hu)|[-> _]]; [done|].
    destruct (pool_loop_cases no_faults deleteBefore ts
                (pipe ++ pool_commands
                           (score_decision deleteBefore
                              (keepalive_tokens r !! t)) t)
                (pool_tally
                   (score_decision deleteBefore (keepalive_tokens r !! t)) res)
                r)
      as [(res' & _ & _ & u & _ & Hu)|[-> _]]; [done|].
    cbn [fst snd flat_map foldl]. by rewrite <-app_assoc.
Qed.
Lemma assigned_sent_inv r res kp chan :
  serial_inv releaseBefore deleteBefore r0 r (Sending res, kp, chan) →
  serial_inv releaseBefore deleteBefore r0 r (Exited, kp, chan ++ [res]).
Proof. intros H. by apply assigned_turn_inv in H. Qed.

Lemma pool_sent_inv r res ka chan :
  serial_inv releaseBefore deleteBefore r0 r (ka, Sending res, chan) →
  serial_inv releaseBefore deleteBefore r0 r (ka, Exited, chan ++ [res]).
Proof. intros H. by apply pool_turn_inv in H. Qed.

Lemma assigned_rest_scanning_inv ts pipe res r kp chan :
  serial_inv releaseBefore deleteBefore r0 r (Scanning ts pipe res, kp, chan) →
  serial_inv releaseBefore deleteBefore r0
    (assigned_rest no_faults releaseBefore deleteBefore
       (Scanning ts pipe res) r).1
    (Exited, kp,
     chan ++ (assigned_rest no_faults releaseBefore deleteBefore
                (Scanning ts pipe res) r).2).
Proof.
  revert pipe res r chan. induction ts as [|t ts IH]; intros pipe res r chan H;
    rewrite assigned_rest_step by done; apply assigned_turn_inv in H;
    cbn [sent] in H; rewrite app_nil_r in H.
  - rewrite assigned_step_exec in *. cbn [fst snd assigned_rest] in *.
    by apply assigned_sent_inv.
  - rewrite assigned_step_scan in *. cbn [fst snd] in *. by apply IH.
Qed.

Lemma assigned_rest_inv r ka kp chan :
  serial_inv releaseBefore deleteBefore r0 r (ka, kp, chan) →
  serial_inv releaseBefore deleteBefore r0
    (assigned_rest no_faults releaseBefore deleteBefore ka r).1
    (Exited, kp,
     chan ++ (assigned_rest no_faults releaseBefore deleteBefore ka r).2).
Proof.
  intros H. destruct ka as [|ts pipe res|res|].
  - rewrite assigned_rest_step by done. apply assigned_turn_inv in H.
    cbn [sent] in H. rewrite app_nil_r in H.
    rewrite assigned_step_fetch in *. cbn [fst snd] in *.
    case_bool_decide.
    + by apply assigned_sent_inv.
    + by apply assigned_rest_scanning_inv.
  - by apply assigned_rest_scanning_inv.
  - by apply assigned_sent_inv.
  - cbn [assigned_rest]. unfold mret, St_ret. cbn [fst snd].
    by rewrite app_nil_r.
Qed.

Lemma pool_rest_scanning_inv ts pipe res r ka chan :
  serial_inv releaseBefore deleteBefore r0 r (ka, Scanning ts pipe res, chan) →
  serial_inv releaseBefore deleteBefore r0
    (pool_rest no_faults deleteBefore (Scanning ts pipe res) r).1
    (ka, Exited,
     chan ++ (pool_rest no_faults deleteBefore (Scanning ts pipe res) r).2).
Proof.
  revert pipe res r chan. induction ts as [|t ts IH]; intros pipe res r chan H;
    rewrite pool_rest_step by done; apply pool_turn_inv in H;
    cbn [sent] in H; rewrite app_nil_r in H.
  - rewrite pool_step_exec in *. cbn [fst snd pool_rest] in *.
    by apply pool_sent_inv.
  - rewrite pool_step_scan in *. cbn [fst snd] in *. by apply IH.
Qed.

Lemma pool_rest_inv r ka kp chan :
  serial_inv releaseBefore deleteBefore r0 r (ka, kp, chan) →
  serial_inv releaseBefore deleteBefore r0
    (pool_rest no_faults deleteBefore kp r).1
    (ka, Exited, chan ++ (pool_rest no_faults deleteBefore kp r).2).
Proof.
  intros H. destruct kp as [|ts pipe res|res|].
  - rewrite pool_rest_step by done. apply pool_turn_inv in H.
    cbn [sent] in H. rewrite app_nil_r in H.
    rewrite pool_step_fetch in *. cbn [fst snd] in *.
    case_bool_decide.
    + by apply pool_sent_inv.
    + by apply pool_rest_scanning_inv.
  - by apply pool_rest_scanning_inv.
  - by apply pool_sent_inv.
  - cbn [pool_rest]. unfold mret, St_ret. cbn [fst snd].
    by rewrite app_nil_r.
Qed.
End SerialRuns.

(** What every interleaved run with no failing call ends in. *)
Lemma interleaved_run_characterised (turns : list bool) (now : Z) (r : Redis) :
  let releaseBefore := now - TokenAutoReleaseTime in
  let deleteBefore := now - TokenDeletionTime in
  let out := cleanupExpiredTokens_interleaved turns no_faults no_faults now r in
  (∀ t, view out.1 t
        = pool_sweep_on deleteBefore
            (assigned_sweep_on releaseBefore deleteBefore (view r t)))
  ∧ lock_keys out.1 = lock_keys r
  ∧ out.2 = mkCleanupResult
              (TokensReleased (assigned_counts releaseBefore deleteBefore r)
               + TokensReleased (pool_counts deleteBefore r))
              (TokensDeleted (assigned_counts releaseBefore deleteBefore r)
               + TokensDeleted (pool_counts deleteBefore r))
              None.
Proof.
  intros rB dB. unfold cleanupExpiredTokens_interleaved. fold rB dB.
  rewrite St_bind_run.
  pose proof (interleave_inv rB dB r turns (Fetching, Fetching, []) r
                (serial_inv_init rB dB r)) as H.
  destruct (interleave _ _ _ _ turns _ r) as [r1 [[ka kp] chan]].
  cbn [fst snd] in *. rewrite St_bind_run.
  apply assigned_rest_inv in H.
  destruct (assigned_rest _ _ _ ka r1) as [r2 a]. cbn [fst snd] in *.
  rewrite St_bind_run. apply pool_rest_inv in H.
  destruct (pool_rest _ _ kp r2) as [r3 p]. cbn [fst snd] in *.
  destruct H as [_ _ HC HL HV HR HD]. cbn [fst snd expected] in *.
  unfold mret, St_ret. cbn [fst snd]. split; [|split].
  - intros t. exact (HV t).
  - done.
  - rewrite app_assoc, collect_no_error by done. simpl in *. f_equal; lia.
Qed.

(** X2. Every interleaving of the calls of the two goroutines, none of them
    failing, leaves the store and returns the result of the assigned sweep
    followed by the pool sweep. *)
Theorem interleaved_reconcile_is_serial
    (turns : list bool) (now : Z) (r : Redis) :
  cleanupExpiredTokens_interleaved turns no_faults no_faults now r
  = cleanupExpiredTokens AssignedThenPool no_faults no_faults now r.
Proof.
  rewrite <-interleaved_nil.
  destruct (interleaved_run_characterised turns now r) as (Hv & Hl & Hres).
  destruct (interleaved_run_characterised [] now r) as (Hv' & Hl' & Hres').
  simpl in *.
  destruct (cleanupExpiredTokens_interleaved turns _ _ now r) as [r1 c1].
  destruct (cleanupExpiredTokens_interleaved [] _ _ now r) as [r2 c2].
  simpl in *. f_equal; [|congruence].
  apply view_ext; [|congruence]. intros t. by rewrite Hv, Hv'.
Qed.

Lemma reachable_store_two_tokens : reachable store_two_tokens.
Proof.
  unfold store_two_tokens.
  apply reachable_perform;
    [apply reachable_perform;
       [apply reachable_perform; [apply reachable_empty|]|]|].
  - simpl. split; apply not_elem_of_empty.
  - simpl. split; by_compute.
  - exact I.
Defined.

Lemma interleaved_reconcile_keeps_I1_witness :
  I1 (cleanupExpiredTokens_interleaved [true; false; false; true; false]
        no_faults exec_fails_only 1300 store_two_tokens).1.
Proof.
  apply interleaved_reconcile_keeps_I1.
  apply reachable_I1, reachable_store_two_tokens.
Defined.

(** ** Assign: the empty pool, the popped token, the lock *)

(** AssignToken, call by call. *)
Lemma AssignToken_run (f : Faults) (now : Z) (pick : string) (r : Redis) :
  AssignToken f now pick r =
    if spop_fails f then (r, Err ErrRedis)
    else match spop_choice pick (token_pool r) with
         | None => (r, Err ErrNoAvailableTokens)
         | Some token =>
             let r1 := put_set KeyTokenPool (token_pool r ∖ {[token]}) r in
             if setnx_fails f then (r1, Err ErrRedis)
             else if key_live now (lock_key token) r then
               (r1, Err ErrTokenAlreadyInUse)
             else if exec_fails f then
               (put_locks
                  (if del_fails f
                   then <[lock_key token := (LockValue, now + TokenLockTime)]>
                          (lock_keys r)
                   else delete (lock_key token) (lock_keys r)) r1,
                Err ErrRedis)
             else
               (mkRedis (token_pool r ∖ {[token]})
                  ({[token]} ∪ assigned_tokens r)
                  (<[token := now + 60]> (keepalive_tokens r))
                  (<[lock_key token := (LockValue, now + TokenLockTime)]>
                     (lock_keys r)),
                Ok token)
         end.
Proof.
  unfold AssignToken. unfold_st. simpl.
  destruct (spop_fails f); [done|].
  destruct (spop_choice pick (token_pool r)) as [token|]; [|done]. simpl.
  destruct (setnx_fails f); [done|].
  unfold key_live. simpl.
  destruct (lock_keys r !! lock_key token) as [[v e]|] eqn:Hl; simpl.
  - case_bool_decide; [done|]. destruct (exec_fails f); simpl; [|done].
    destruct (del_fails f); simpl; by rewrite ?delete_insert_eq.
  - destruct (exec_fails f); simpl; [|done].
    destruct (del_fails f); simpl; by rewrite ?delete_insert_eq.
Qed.

(** X12. Assign answers ErrNoAvailableTokens exactly when SPOP answers and the
    pool is empty, and then it leaves the store as it found it. *)
Theorem Assign_empty_pool (f : Faults) (now : Z) (pick : string) (r : Redis) :
  ((AssignToken f now pick r).2 = Err ErrNoAvailableTokens
   ↔ spop_fails f = false ∧ token_pool r = ∅)
  ∧ ((AssignToken f now pick r).2 = Err ErrNoAvailableTokens →
     (AssignToken f now pick r).1 = r).
Proof.
  rewrite AssignToken_run.
  destruct (spop_fails f); [by split; [split; [|intros [? _]]|]|].
  destruct (spop_choice pick (token_pool r)) as [token|] eqn:Hpick.
  - assert (token_pool r ≠ ∅) as Hne.
    { intros He. apply spop_choice_None with (pick := pick) in He. congruence. }
    cbv zeta.
    destruct (setnx_fails f), (key_live now (lock_key token) r),
      (exec_fails f); simpl; (split; [split; [done|by intros [_ ?]]|done]).
  - apply spop_choice_None in Hpick. by split.
Qed.

(** X13. A successful Assign moves exactly the token it returns from the pool
    to the assigned set, writes now + 60 as its deadline, and holds its lock
    key, which was free, until now + TokenLockTime; nothing else changes. *)
Theorem Assign_moves_one_token
    (f : Faults) (now : Z) (pick t : string) (r r' : Redis) :
  AssignToken f now pick r = (r', Ok t) →
  t ∈ token_pool r
  ∧ token_pool r' = token_pool r ∖ {[t]}
  ∧ assigned_tokens r' = {[t]} ∪ assigned_tokens r
  ∧ keepalive_tokens r' = <[t := now + 60]> (keepalive_tokens r)
  ∧ key_live now (lock_key t) r = false
  ∧ lock_keys r' = <[lock_key t := (LockValue, now + TokenLockTime)]>
                     (lock_keys r)
  ∧ (∀ instant, key_live instant (lock_key t) r'
                = bool_decide (instant < now + TokenLockTime)).
Proof.
  rewrite AssignToken_run.
  destruct (spop_fails f); [done|].
  destruct (spop_choice pick (token_pool r)) as [token|] eqn:Hpick; [|done].
  apply spop_choice_elem in Hpick. cbv zeta.
  destruct (setnx_fails f); [done|].
  destruct (key_live now (lock_key token) r) eqn:Hlive; [done|].
  destruct (exec_fails f); [done|].
  intros [= <- <-]. simpl. repeat split; try done.
  intros instant. unfold key_live. simpl. by rewrite lookup_insert_eq.
Qed.

Lemma Assign_moves_one_token_witness :
  "a1" ∈ token_pool store_generated
  ∧ token_pool store_assigned = token_pool store_generated ∖ {["a1"]}
  ∧ assigned_tokens store_assigned
    = {["a1"]} ∪ assigned_tokens store_generated
  ∧ keepalive_tokens store_assigned
    = <["a1" := 1000 + 60]> (keepalive_tokens store_generated)
  ∧ key_live 1000 (lock_key "a1") store_generated = false
  ∧ lock_keys store_assigned
    = <[lock_key "a1" := (LockValue, 1000 + TokenLockTime)]>
        (lock_keys store_generated)
  ∧ (∀ instant, key_live instant (lock_key "a1") store_assigned
                = bool_decide (instant < 1000 + TokenLockTime)).
Proof.
  apply (Assign_moves_one_token no_faults 1000 "a1" "a1" store_generated
           store_assigned).
  vm_compute. reflexivity.
Defined.




(** X15. Assign never puts back the token it popped: whenever it returns an
    error after SPOP gave a token, that token has left the pool, is not
    assigned, and the keepalive index is as before. *)
Theorem Assign_error_drops_the_popped_token
    (f : Faults) (now : Z) (pick t : string) (e : error) (r : Redis) :
  I1 r →
  spop_fails f = false → spop_choice pick (token_pool r) = Some t →
  (AssignToken f now pick r).2 = Err e →
  let r' := (AssignToken f now pick r).1 in
  t ∈ token_pool r
  ∧ Absent r' t
  ∧ token_pool r' = token_pool r ∖ {[t]}
  ∧ assigned_tokens r' = assigned_tokens r
  ∧ keepalive_tokens r' = keepalive_tokens r.
Proof.
  intros Hinv Hpop Hpick. rewrite AssignToken_run, Hpop, Hpick. cbv zeta.
  apply spop_choice_elem in Hpick. unfold Absent, I1 in *.
  destruct (setnx_fails f), (key_live now (lock_key t) r), (exec_fails f);
    simpl; intros He; try done; repeat split; try done; set_solver.
Qed.

Lemma Assign_error_drops_the_popped_token_witness :
  "a1" ∈ token_pool store_generated
  ∧ Absent store_orphan "a1"
  ∧ token_pool store_orphan = token_pool store_generated ∖ {["a1"]}
  ∧ assigned_tokens store_orphan = assigned_tokens store_generated
  ∧ keepalive_tokens store_orphan = keepalive_tokens store_generated.
Proof.
  apply (Assign_error_drops_the_popped_token setnx_fails_only 1000 "a1" "a1"
           ErrRedis store_generated).
  - apply reachable_I1, reachable_perform; [apply reachable_empty|].
    simpl. split; apply not_elem_of_empty.
  - reflexivity.
  - vm_compute. reflexivity.
  - vm_compute. reflexivity.
Defined.

(** The lock key and the sets a successful Assign leaves. *)
Lemma Assign_moves_one_token_aux
    (f : Faults) (now : Z) (pick t : string) (r r' : Redis) :
  AssignToken f now pick r = (r', Ok t) →
  lock_keys r' !! lock_key t = Some (LockValue, now + TokenLockTime)
  ∧ t ∈ assigned_tokens r'.
Proof.
  rewrite AssignToken_run.
  destruct (spop_fails f); [done|].
  destruct (spop_choice pick (token_pool r)) as [token|] eqn:Hpick; [|done].
  cbv zeta.
  destruct (setnx_fails f); [done|].
  destruct (key_live now (lock_key token) r) eqn:Hlive; [done|].
  destruct (exec_fails f); [done|].
  intros [= <- <-]. simpl. rewrite lookup_insert_eq. split; [done|set_solver].
Qed.

(** ** Unblock, Renew, Delete *)

Lemma UnblockToken_run (f : Faults) (now : Z) (token : string) (r : Redis) :
  UnblockToken f now token r =
    if sismember_fails f KeyAssignedTokens then
      (r, Some (Wrapped "failed to check if token is assigned" ErrRedis))
    else if bool_decide (token ∈ assigned_tokens r) then
      if exec_fails f then (r, Some (Wrapped "failed to unblock token" ErrRedis))
      else
        (mkRedis ({[token]} ∪ token_pool r) (assigned_tokens r ∖ {[token]})
           (<[token := now + TokenAutoReleaseTime]> (keepalive_tokens r))
           (lock_keys r),
         None)
    else (r, Some ErrTokenNotAssigned).
Proof.
  unfold UnblockToken. unfold_st. simpl.
  destruct (sismember_fails f KeyAssignedTokens); [done|].
  case_bool_decide; [|done]. by destruct (exec_fails f).
Qed.

Lemma KeepAlive_run (f : Faults) (now : Z) (token : string) (r : Redis) :
  KeepAlive f now token r =
    if sismember_fails f KeyTokenPool then
      (r, Some (Wrapped "failed to check token in pool" ErrRedis))
    else if sismember_fails f KeyAssignedTokens then
      (r, Some (Wrapped "failed to check token in assigned" ErrRedis))
    else if bool_decide (token ∈ token_pool r)
            || bool_decide (token ∈ assigned_tokens r) then
      if zadd_fails f then (r, Some ErrFailedKeepAlive)
      else
        (put_zset (<[token := now + TokenAutoReleaseTime]> (keepalive_tokens r))
           r,
         None)
    else (r, Some ErrTokenNotFound).
Proof.
  unfold KeepAlive. unfold_st. simpl.
  destruct (sismember_fails f KeyTokenPool); [done|].
  destruct (sismember_fails f KeyAssignedTokens); [done|].
  repeat case_bool_decide; simpl; try done; by destruct (zadd_fails f).
Qed.

(** X16. A token that is unblocked and popped again before the lock key of
    its earlier Assign has expired (TokenLockTime after that Assign) is not
    handed out: Assign answers ErrTokenAlreadyInUse and the token is left in
    neither set, with its keepalive entry. From the expiry of the lock on,
    the same Assign hands it out. *)
Theorem reassign_before_the_lock_expires_loses_the_token
    (f fu : Faults) (T Tu now : Z) (pick pick' t : string)
    (r0 r1 r2 : Redis) :
  AssignToken f T pick r0 = (r1, Ok t) →
  UnblockToken fu Tu t r1 = (r2, None) →
  spop_choice pick' (token_pool r2) = Some t →
  let out := AssignToken no_faults now pick' r2 in
  (now < T + TokenLockTime →
   out.2 = Err ErrTokenAlreadyInUse
   ∧ Absent out.1 t
   ∧ keepalive_tokens out.1 !! t = Some (Tu + TokenAutoReleaseTime))
  ∧ (T + TokenLockTime ≤ now → out.2 = Ok t ∧ Assigned out.1 t).
Proof.
  intros Ha Hu Hpick.
  apply Assign_moves_one_token_aux in Ha as (Hlock & _).
  rewrite UnblockToken_run in Hu.
  destruct (sismember_fails fu KeyAssignedTokens); [done|].
  case_bool_decide as Hin; [|done].
  destruct (exec_fails fu); [done|]. injection Hu as <-.
  cbv zeta. rewrite AssignToken_run. simpl in *. rewrite Hpick.
  unfold key_live. simpl. rewrite Hlock. unfold Absent, Assigned.
  split; intros Hnow.
  - rewrite bool_decide_eq_true_2 by done. simpl. rewrite lookup_insert_eq.
    repeat split; try done; set_solver.
  - rewrite bool_decide_eq_false_2 by lia. simpl. split; [done|set_solver].
Qed.

(** "a1" assigned at 1000 and unblocked at 1010. *)
Definition store_unblocked : Redis :=
  perform (Unblock no_faults 1010 "a1") store_assigned.

(** "a1" generated at 900 and "b1" generated at 1000, both in the pool. *)
Definition store_two_pooled : Redis :=
  perform (Generate no_faults 1000 "b1")
    (perform (Generate no_faults 900 "a1") empty_store).

Lemma reassign_before_the_lock_expires_loses_the_token_witness :
  let out := AssignToken no_faults 1020 "a1" store_unblocked in
  (1020 < 1000 + TokenLockTime →
   out.2 = Err ErrTokenAlreadyInUse
   ∧ Absent out.1 "a1"
   ∧ keepalive_tokens out.1 !! "a1" = Some (1010 + TokenAutoReleaseTime))
  ∧ (1000 + TokenLockTime ≤ 1020 → out.2 = Ok "a1" ∧ Assigned out.1 "a1").
Proof.
  apply (reassign_before_the_lock_expires_loses_the_token no_faults no_faults
           1000 1010 1020 "a1" "a1" "a1" store_generated store_assigned
           store_unblocked).
  - vm_compute. reflexivity.
  - vm_compute. reflexivity.
  - vm_compute. reflexivity.
Defined.

(** X18. Renew (KeepAlive) succeeds exactly when its three calls answer and
    the token is in the pool or in the assigned set: it accepts a token that
    is only available. On success the one change is the token's deadline,
    now + TokenAutoReleaseTime: the sets and the lock keys are as before.
    On every error the store is unchanged, and a token in neither set gets
    ErrTokenNotFound whenever the two membership reads answer. *)
Theorem KeepAlive_renews_known_tokens
    (f : Faults) (now : Z) (token : string) (r : Redis) :
  let out := KeepAlive f now token r in
  (out.2 = None
   ↔ sismember_fails f KeyTokenPool = false
     ∧ sismember_fails f KeyAssignedTokens = false
     ∧ zadd_fails f = false
     ∧ (token ∈ token_pool r ∨ token ∈ assigned_tokens r))
  ∧ (out.2 = None →
     keepalive_tokens out.1
     = <[token := now + TokenAutoReleaseTime]> (keepalive_tokens r)
     ∧ token_pool out.1 = token_pool r
     ∧ assigned_tokens out.1 = assigned_tokens r
     ∧ lock_keys out.1 = lock_keys r)
  ∧ (out.2 ≠ None → out.1 = r)
  ∧ (sismember_fails f KeyTokenPool = false →
     sismember_fails f KeyAssignedTokens = false →
     token ∉ token_pool r → token ∉ assigned_tokens r →
     out.2 = Some ErrTokenNotFound).
Proof.
  cbv zeta. rewrite KeepAlive_run.
  destruct (sismember_fails f KeyTokenPool);
    [by repeat split; try done; intros (? & _)|].
  destruct (sismember_fails f KeyAssignedTokens);
    [by repeat split; try done; intros (_ & ? & _)|].
  destruct (decide (token ∈ token_pool r)) as [Hp|Hp],
    (decide (token ∈ assigned_tokens r)) as [Ha|Ha];
    rewrite ?(bool_decide_eq_true_2 _ Hp), ?(bool_decide_eq_true_2 _ Ha),
      ?(bool_decide_eq_false_2 _ Hp), ?(bool_decide_eq_false_2 _ Ha);
    simpl; try destruct (zadd_fails f); simpl;
    repeat split; try done; try tauto;
    try (by intros (_ & _ & ? & _)); try (by intros (_ & _ & _ & [?|?])).
Qed.

(** X19. Unblock succeeds exactly when the membership read and the
    transaction answer and the token is assigned. It then moves the token to
    the pool and writes now + TokenAutoReleaseTime as its deadline, and it
    leaves the lock key of the token in place. On every error the store is
    unchanged; a token that is not assigned gets ErrTokenNotAssigned, also
    when it is in the pool. *)
Theorem Unblock_moves_an_assigned_token
    (f : Faults) (now : Z) (token : string) (r : Redis) :
  let out := UnblockToken f now token r in
  (out.2 = None
   ↔ sismember_fails f KeyAssignedTokens = false
     ∧ exec_fails f = false
     ∧ token ∈ assigned_tokens r)
  ∧ (out.2 = None →
     token ∈ token_pool out.1
     ∧ (token ∉ assigned_tokens out.1)
     ∧ token_pool out.1 = {[token]} ∪ token_pool r
     ∧ assigned_tokens out.1 = assigned_tokens r ∖ {[token]}
     ∧ keepalive_tokens out.1
       = <[token := now + TokenAutoReleaseTime]> (keepalive_tokens r)
     ∧ lock_keys out.1 = lock_keys r)
  ∧ (out.2 ≠ None → out.1 = r)
  ∧ (sismember_fails f KeyAssignedTokens = false →
     token ∉ assigned_tokens r → out.2 = Some ErrTokenNotAssigned).
Proof.
  cbv zeta. rewrite UnblockToken_run.
  destruct (sismember_fails f KeyAssignedTokens);
    [by repeat split; try done; intros (? & _)|].
  case_bool_decide as Ha.
  - destruct (exec_fails f); simpl.
    + repeat split; try done; by intros (_ & ? & _).
    + repeat split; try done; set_solver.
  - simpl. repeat split; try done. by intros (_ & _ & ?).
Qed.

(** X20. Deleting a token twice: once the transaction of a Delete has run,
    a second Delete of the same token changes nothing and answers
    ErrTokenNotFound. *)
Theorem Delete_twice_is_not_found
    (f f' : Faults) (token : string) (r : Redis) :
  exec_fails f = false → exec_fails f' = false →
  DeleteToken f' token (DeleteToken f token r).1
  = ((DeleteToken f token r).1, Some ErrTokenNotFound).
Proof.
  intros Hf Hf'. rewrite (DeleteToken_exec f token r Hf). simpl.
  rewrite (DeleteToken_exec f' token _ Hf'). simpl.
  rewrite lookup_delete_eq.
  rewrite (bool_decide_eq_false_2 (token ∈ token_pool r ∖ {[token]}))
    by set_solver.
  rewrite (bool_decide_eq_false_2 (token ∈ assigned_tokens r ∖ {[token]}))
    by set_solver.
  rewrite (bool_decide_eq_false_2 (is_Some (@None Z)))
    by (by intros [? ?]).
  simpl. f_equal. apply store_eq; simpl; [set_solver|set_solver| |done].
  by rewrite delete_delete_eq.
Qed.

Lemma Delete_twice_is_not_found_witness :
  DeleteToken no_faults "a1" (DeleteToken no_faults "a1" store_assigned).1
  = ((DeleteToken no_faults "a1" store_assigned).1, Some ErrTokenNotFound).
Proof.
  apply (Delete_twice_is_not_found no_faults no_faults "a1" store_assigned);
    reflexivity.
Defined.

(** X21. Generate followed by Delete of the generated id is a round trip: for
    an id the store does not know, the store is back to what it was and
    both calls succeed. *)
Theorem Generate_then_Delete_restores_the_store
    (f f' : Faults) (now : Z) (uuid : string) (r : Redis) :
  sadd_fails f = false → zadd_fails f = false → exec_fails f' = false →
  uuid ∉ token_pool r → uuid ∉ assigned_tokens r →
  keepalive_tokens r !! uuid = None →
  (GenerateToken f now uuid r).2 = (uuid, None)
  ∧ uuid ∈ token_pool (GenerateToken f now uuid r).1
  ∧ DeleteToken f' uuid (GenerateToken f now uuid r).1 = (r, None).
Proof.
  intros Hs Hz He Hp Ha Hk.
  unfold GenerateToken, SaveToken. unfold_st. rewrite Hs. simpl. rewrite Hz.
  simpl. split; [done|]. split; [set_solver|].
  rewrite (DeleteToken_exec f' uuid _ He). simpl.
  rewrite (bool_decide_eq_true_2 (uuid ∈ {[uuid]} ∪ token_pool r))
    by set_solver.
  simpl. f_equal. apply store_eq; simpl; [set_solver|set_solver| |done].
  by rewrite delete_insert_id by done.
Qed.

Lemma Generate_then_Delete_restores_the_store_witness :
  (GenerateToken no_faults 1000 "a1" empty_store).2 = ("a1", None)
  ∧ "a1" ∈ token_pool (GenerateToken no_faults 1000 "a1" empty_store).1
  ∧ DeleteToken no_faults "a1" (GenerateToken no_faults 1000 "a1" empty_store).1
    = (empty_store, None).
Proof.
  apply (Generate_then_Delete_restores_the_store no_faults no_faults 1000 "a1"
           empty_store); try reflexivity; apply not_elem_of_empty.
Defined.

(** ** two Assign at once *)

(** Its calls taken one after the other, the call-by-call AssignToken is
    AssignToken. *)
Lemma assign_steps_are_AssignToken (f : Faults) (now : Z) (pick : string)
    (r : Redis) :
  (k1 ← assign_step f now pick Popping;
   k2 ← assign_step f now pick k1;
   k3 ← assign_step f now pick k2;
   assign_step f now pick k3) r
  = ((AssignToken f now pick r).1, Returned (AssignToken f now pick r).2).
Proof.
  unfold AssignToken. cbn [assign_step]. unfold_st. simpl.
  destruct (spop_fails f); [done|].
  destruct (spop_choice pick (token_pool r)) as [token|]; [|done].
  cbn [assign_step]. unfold_st. simpl.
  destruct (setnx_fails f); [done|].
  destruct (key_live now (lock_key token) _); [done|].
  cbn [assign_step]. unfold_st. simpl.
  destruct (exec_fails f); [|done].
  cbn [assign_step]. unfold_st. simpl. by destruct (del_fails f).
Qed.

(** The token an AssignToken holds once its SPOP has answered. *)
Definition held (k : assigning) : option string :=
  match k with
  | Locking token | Publishing token | RollingBack token => Some token
  | Returned (Ok token) => Some token
  | _ => None
  end.

(** What holds between the calls of two AssignToken: no token is in both
    sets, a held token is not in the pool, a returned token is assigned, and
    the two hold different tokens. *)
Record assigning_inv (r : Redis) (ka kb : assigning) : Prop := mk_assigning_inv {
  ainv_I1 : I1 r;
  ainv_held_a : ∀ t, held ka = Some t → t ∉ token_pool r;
  ainv_held_b : ∀ t, held kb = Some t → t ∉ token_pool r;
  ainv_done_a : ∀ t, ka = Returned (Ok t) → t ∈ assigned_tokens r;
  ainv_done_b : ∀ t, kb = Returned (Ok t) → t ∈ assigned_tokens r;
  ainv_apart : ∀ t u, held ka = Some t → held kb = Some u → t ≠ u
}.

Lemma assigning_inv_sym r ka kb :
  assigning_inv r ka kb → assigning_inv r kb ka.
Proof.
  intros [H1 H2 H3 H4 H5 H6]. split; try done.
  intros t u Ht Hu Heq. by apply (H6 u t).
Qed.

Lemma assign_step_inv (f : Faults) (now : Z) (pick : string) ka kb r :
  assigning_inv r ka kb →
  assigning_inv (assign_step f now pick ka r).1
    (assign_step f now pick ka r).2 kb.
Proof.
  intros [HI Ha Hb Hda Hdb Hap].
  destruct ka as [|t|t|t|res]; cbn [assign_step]; unfold_st.
  - destruct (spop_fails f); [by split|].
    change (get_set KeyTokenPool r) with (token_pool r).
    destruct (spop_choice pick (token_pool r)) as [t|] eqn:Hpick;
      [|by split].
    apply spop_choice_elem in Hpick. unfold I1 in *.
    split; simpl; try done.
    + set_solver.
    + intros u [= <-]. set_solver.
    + intros u Hu. specialize (Hb u Hu). set_solver.
    + intros u v [= <-] Hv ->. by apply (Hb _ Hv).
  - destruct (setnx_fails f); [by split|].
    destruct (key_live now (lock_key t) r); [by split|].
    split; simpl; try done.
  - destruct (exec_fails f).
    + split; simpl; try done.
    + specialize (Ha t eq_refl). unfold I1 in *.
      split; simpl; try done; set_solver.
  - destruct (del_fails f); split; simpl; try done.
  - by split.
Qed.

Lemma assign_interleave_inv (a b : assign_inputs) turns ka kb r :
  assigning_inv r ka kb →
  assigning_inv (assign_interleave a b turns (ka, kb) r).1
    (assign_interleave a b turns (ka, kb) r).2.1
    (assign_interleave a b turns (ka, kb) r).2.2.
Proof.
  revert ka kb r. induction turns as [|first turns IH]; intros ka kb r Hinv;
    [done|].
  cbn [assign_interleave]. destruct first; rewrite St_bind_run; apply IH.
  - by apply assign_step_inv.
  - by apply assigning_inv_sym, assign_step_inv, assigning_inv_sym.
Qed.

(** X17. Two Assign at once never hand out the same token. Whatever the
    order in which the calls of two AssignToken reach a store where no token
    is both available and assigned, and whichever of the calls fail, the store
    still has no token in both sets, and when both AssignToken return a token
    the two tokens differ and both are assigned. *)
Theorem concurrent_Assigns_hand_out_distinct_tokens
    (a b : assign_inputs) (turns : list bool) (r : Redis) :
  I1 r →
  let out := assign_interleave a b turns (Popping, Popping) r in
  I1 out.1
  ∧ ∀ t u, out.2 = (Returned (Ok t), Returned (Ok u)) →
           t ≠ u ∧ t ∈ assigned_tokens out.1 ∧ u ∈ assigned_tokens out.1.
Proof.
  intros Hr. cbv zeta.
  destruct (assign_interleave_inv a b turns Popping Popping r)
    as [HI _ _ Hda Hdb Hap]; [by split|].
  split; [done|]. intros t u Hout.
  destruct (assign_interleave a b turns (Popping, Popping) r) as [r' [ka kb]].
  cbn [fst snd] in *. injection Hout as -> ->.
  split; [by apply Hap|]. split; [by apply Hda|by apply Hdb].
Qed.

(** Both SPOP come before either SETNX, and both AssignToken return a
    token. *)
Lemma concurrent_Assigns_both_return :
  (assign_interleave (no_faults, 1010, "a1") (no_faults, 1011, "a1")
     [true; false; false; true; true; false] (Popping, Popping)
     store_two_pooled).2
  = (Returned (Ok "a1"), Returned (Ok "b1")).
Proof. vm_compute. reflexivity. Qed.

Lemma concurrent_Assigns_hand_out_distinct_tokens_witness :
  let out := assign_interleave (no_faults, 1010, "a1") (no_faults, 1011, "a1")
               [true; false; false; true; true; false]
               (Popping, Popping) store_two_pooled in
  I1 out.1
  ∧ ∀ t u, out.2 = (Returned (Ok t), Returned (Ok u)) →
           t ≠ u ∧ t ∈ assigned_tokens out.1 ∧ u ∈ assigned_tokens out.1.
Proof.
  apply (concurrent_Assigns_hand_out_distinct_tokens (no_faults, 1010, "a1")
           (no_faults, 1011, "a1") [true; false; false; true; true; false]
           store_two_pooled).
  apply reachable_I1.
  apply reachable_perform; [apply reachable_perform; [apply reachable_empty|]|].
  - simpl. split; apply not_elem_of_empty.
  - simpl. split; by_compute.
Defined.

(** ** the listing of leases *)

Lemma expiry_loop_fails (f : Faults) (now : Z) (tokens : list string)
    (expiryMap : gmap string Z) (r : Redis) :
  (∃ t, t ∈ tokens ∧ zscore_fails f t = true) →
  ∃ t, t ∈ tokens ∧ zscore_fails f t = true
       ∧ expiry_loop f now tokens expiryMap r
         = (r, Err (Wrapped ("failed to get expiry for token " +:+ t) ErrRedis)).
Proof.
  revert expiryMap. induction tokens as [|u ts IH]; intros m (t & Hin & Hf).
  - by apply elem_of_nil in Hin.
  - cbn [expiry_loop]. unfold_st.
    destruct (zscore_fails f u) eqn:Hu.
    { exists u. split; [by left|done]. }
    assert (∃ t, t ∈ ts ∧ zscore_fails f t = true) as Hrest.
    { exists t. split; [|done].
      apply elem_of_cons in Hin as [->|Hin]; [congruence|done]. }
    destruct (keepalive_tokens r !! u) as [d|]; simpl;
      [destruct (IH (<[u := Z.max (d - now) (-1)]> m) Hrest)
         as (t' & Hin' & Hf' & Heq)
      |destruct (IH (<[u := -1]> m) Hrest) as (t' & Hin' & Hf' & Heq)];
      rewrite Heq; exists t'; (split; [by right|done]).
Qed.

(** X22. The listing of leases is all or nothing: when the read of the
    deadline of one assigned token fails, ListAssigned returns no map at all,
    only the error naming a token whose read failed. *)
Theorem ListAssigned_fails_on_one_failed_read
    (f : Faults) (now : Z) (t : string) (r : Redis) :
  smembers_fails f = false →
  t ∈ assigned_tokens r → zscore_fails f t = true →
  ∃ u, u ∈ assigned_tokens r ∧ zscore_fails f u = true
       ∧ GetAssignedTokensWithExpiry f now r
         = (r, Err (Wrapped ("failed to get expiry for token " +:+ u) ErrRedis)).
Proof.
  intros Hs Hin Hf. unfold GetAssignedTokensWithExpiry. unfold_st.
  rewrite Hs. simpl.
  destruct (expiry_loop_fails f now (elements (assigned_tokens r)) ∅ r)
    as (u & Hu & Hfu & ->).
  { exists t. split; [by apply elem_of_elements|done]. }
  exists u. split; [by apply elem_of_elements in Hu|done].
Qed.

(** Only the read of the score of "a1" fails. *)
Definition zscore_fails_on_a1 : Faults :=
  mkFaults false false false false (λ _, false) false
    (λ t, bool_decide (t = "a1")) false false.

Lemma ListAssigned_fails_on_one_failed_read_witness :
  ∃ u, u ∈ assigned_tokens store_two_tokens
       ∧ zscore_fails zscore_fails_on_a1 u = true
       ∧ GetAssignedTokensWithExpiry zscore_fails_on_a1 1000 store_two_tokens
         = (store_two_tokens,
            Err (Wrapped ("failed to get expiry for token " +:+ u) ErrRedis)).
Proof.
  apply (ListAssigned_fails_on_one_failed_read zscore_fails_on_a1 1000 "a1"
           store_two_tokens).
  - reflexivity.
  - by_compute.
  - reflexivity.
Defined.

(** X23. After a successful Assign at T, a listing at [now] whose reads
    answer reports for the token the remaining time T + 60 - now, or -1 once
    that is below -1. *)
Theorem ListAssigned_after_Assign
    (f f' : Faults) (T now : Z) (pick t : string) (r0 r : Redis) :
  AssignToken f T pick r0 = (r, Ok t) →
  smembers_fails f' = false → (∀ u, zscore_fails f' u = false) →
  ∃ m, GetAssignedTokensWithExpiry f' now r = (r, Ok m)
       ∧ m !! t = Some (Z.max (T + 60 - now) (-1)).
Proof.
  intros Ha Hs Hz.
  pose proof (AssignToken_Ok _ _ _ _ _ _ Ha) as [_ Hv].
  pose proof (GetAssignedTokensWithExpiry_store f' now r) as Hst.
  unfold GetAssignedTokensWithExpiry in *. unfold_st. rewrite Hs in *.
  simpl in *.
  destruct (expiry_loop_total f' now (elements (assigned_tokens r)) r ∅ Hz)
    as [m Hm].
  exists m. split.
  - destruct (expiry_loop f' now _ ∅ r) as [r1 res]. simpl in *. by subst.
  - rewrite (expiry_loop_Ok f' now _ r ∅ m Hm t).
    unfold view in Hv. injection Hv as _ Hin Hk.
    apply bool_decide_eq_true in Hin.
    rewrite decide_True by by apply elem_of_elements.
    unfold remaining_lease. by rewrite Hk.
Qed.

Lemma ListAssigned_after_Assign_witness :
  ∃ m, GetAssignedTokensWithExpiry no_faults 1045 store_assigned
       = (store_assigned, Ok m)
       ∧ m !! "a1" = Some (Z.max (1000 + 60 - 1045) (-1)).
Proof.
  apply (ListAssigned_after_Assign no_faults no_faults 1000 1045 "a1" "a1"
           store_generated store_assigned).
  - vm_compute. reflexivity.
  - reflexivity.
  - intros u. reflexivity.
Defined.

(** ** the sweeps when a score cannot be read *)

(** X7. The assigned sweep skips a token whose score it cannot read and
    reports no error for it: when SMEMBERS and the transaction answer, the
    sweep ends without a processing error, every token whose read failed is
    left as it was, however old its deadline, and every other token is swept
    as if no read had failed. *)
Theorem assigned_sweep_skips_unreadable_tokens
    (f : Faults) (releaseBefore deleteBefore : Z) (r : Redis) :
  smembers_fails f = false → exec_fails f = false →
  let out := cleanupAssignedTokens f releaseBefore deleteBefore r in
  ProcessingError out.2 = None
  ∧ (∀ t, zscore_fails f t = true → view out.1 t = view r t)
  ∧ (∀ t, zscore_fails f t = false →
          view out.1 t
          = view (cleanupAssignedTokens no_faults releaseBefore deleteBefore r).1
              t).
Proof.
  intros Hs He. cbv zeta.
  destruct (cleanupAssignedTokens_no_faults releaseBefore deleteBefore r)
    as (_ & _ & Hnf).
  destruct (cleanupAssignedTokens_cases f releaseBefore deleteBefore r)
    as [[? _]|[(_ & Hempty & ->)|[(_ & _ & ? & _)|(_ & _ & _ & Hres & _ & Hv)]]];
    try congruence.
  - cbn [fst snd]. split; [done|]. split; [done|].
    intros t _. rewrite Hnf. unfold assigned_sweep_on.
    change ((view r t).1.2) with (bool_decide (t ∈ assigned_tokens r)).
    rewrite Hempty.
    by rewrite (bool_decide_eq_false_2 (t ∈ (∅ : gset string)))
      by apply not_elem_of_empty.
  - cbv zeta in Hres, Hv. rewrite Hres, tally_error. split; [done|].
    split; intros t Ht; rewrite Hv; unfold assigned_action; rewrite Ht.
    + by case_decide.
    + rewrite Hnf. unfold assigned_sweep_on.
      change ((view r t).1.2) with (bool_decide (t ∈ assigned_tokens r)).
      change ((view r t).2) with (keepalive_tokens r !! t).
      case_decide.
      * by rewrite bool_decide_eq_true_2.
      * by rewrite bool_decide_eq_false_2.
Qed.

Lemma assigned_sweep_skips_unreadable_tokens_witness :
  let out := cleanupAssignedTokens zscore_fails_on_a1 1040 800 store_two_tokens
  in
  ProcessingError out.2 = None
  ∧ (∀ t, zscore_fails zscore_fails_on_a1 t = true →
          view out.1 t = view store_two_tokens t)
  ∧ (∀ t, zscore_fails zscore_fails_on_a1 t = false →
          view out.1 t
          = view (cleanupAssignedTokens no_faults 1040 800 store_two_tokens).1
              t).
Proof.
  apply (assigned_sweep_skips_unreadable_tokens zscore_fails_on_a1 1040 800
           store_two_tokens); reflexivity.
Defined.

(** The assigned sweep removes no token from the pool. *)
Lemma pool_kept_by_assigned_sweep f releaseBefore deleteBefore r :
  token_pool r
  ⊆ token_pool (cleanupAssignedTokens f releaseBefore deleteBefore r).1.
Proof.
  destruct (cleanupAssignedTokens_cases f releaseBefore deleteBefore r)
    as [[_ ->]|[(_ & _ & ->)|[(_ & _ & _ & ->)|(_ & _ & _ & _ & _ & Hv)]]];
    try done.
  intros t Ht. specialize (Hv t).
  apply (bool_decide_eq_true_2 (t ∈ token_pool r)) in Ht.
  apply (f_equal (λ v, v.1.1)) in Hv.
  change ((view r t).1.1) with (bool_decide (t ∈ token_pool r)) in *.
  unfold view in Hv at 1. cbn [fst] in Hv.
  apply (bool_decide_eq_true (t ∈ token_pool _)). rewrite Hv.
  case_decide; [|done].
  destruct (assigned_action _ _ _ _ _); unfold view; simpl; try done.
Qed.

(** X8. The pool sweep gives up on the first score it cannot read, before
    its transaction: when the read fails for some token of the pool,
    Reconcile returns an error and no token has left the pool, not even one
    the sweep had already found expired. *)
Theorem unreadable_score_aborts_the_pool_sweep
    (sched : schedule) (fa fp : Faults) (now : Z) (t : string) (r : Redis) :
  smembers_fails fp = false → t ∈ token_pool r → zscore_fails fp t = true →
  (∃ e, (CleanupExpiredTokens sched fa fp now r).2 = Err e)
  ∧ token_pool r ⊆ token_pool (CleanupExpiredTokens sched fa fp now r).1.
Proof.
  intros Hs Hin Hz.
  set (rB := now - TokenAutoReleaseTime). set (dB := now - TokenDeletionTime).
  assert (Hfail : ∀ r1, t ∈ token_pool r1 →
            (cleanupPoolTokens fp dB r1).1 = r1
            ∧ is_Some (ProcessingError (cleanupPoolTokens fp dB r1).2)).
  { intros r1 Hin1.
    destruct (cleanupPoolTokens_cases fp dB r1)
      as [[? _]|[(_ & Hempty & _)|[(_ & _ & _ & Hst & Herr)
         |[(_ & _ & Hall & _)|(_ & _ & Hall & _)]]]];
      try congruence.
    - rewrite Hempty in Hin1. by apply not_elem_of_empty in Hin1.
    - done.
    - specialize (Hall t Hin1). congruence.
    - specialize (Hall t Hin1). congruence. }
  split.
  - assert (∃ e, ProcessingError (cleanupExpiredTokens sched fa fp now r).2
                 = Some e) as [e He].
    { unfold cleanupExpiredTokens, run_sweeps. unfold_st. fold rB dB.
      destruct sched.
      - pose proof (pool_kept_by_assigned_sweep fa rB dB r t Hin) as Hin1.
        destruct (cleanupAssignedTokens fa rB dB r) as [r1 a]. cbn [fst] in *.
        destruct (Hfail r1 Hin1) as [_ [e He]].
        destruct (cleanupPoolTokens fp dB r1) as [r2 p]. cbn [fst snd] in *.
        rewrite collect_two_error, He. destruct (ProcessingError a); by eauto.
      - destruct (Hfail r Hin) as [_ [e He]].
        destruct (cleanupPoolTokens fp dB r) as [r1 p]. cbn [fst snd] in *.
        destruct (cleanupAssignedTokens fa rB dB r1) as [r2 a].
        cbn [fst snd] in *.
        rewrite collect_two_error, He. by eauto. }
    exists e. by apply CleanupExpiredTokens_error.
  - rewrite CleanupExpiredTokens_store, run_sweeps_store. fold rB dB.
    destruct sched.
    + pose proof (pool_kept_by_assigned_sweep fa rB dB r) as Hsub.
      destruct (Hfail (cleanupAssignedTokens fa rB dB r).1 (Hsub t Hin))
        as [-> _].
      done.
    + destruct (Hfail r Hin) as [-> _].
      apply pool_kept_by_assigned_sweep.
Qed.

(** Only the read of the score of "b1" fails. *)
Definition zscore_fails_on_b1 : Faults :=
  mkFaults false false false false (λ _, false) false
    (λ t, bool_decide (t = "b1")) false false.

Lemma unreadable_score_aborts_the_pool_sweep_witness :
  (∃ e, (CleanupExpiredTokens AssignedThenPool no_faults zscore_fails_on_b1
           1300 store_two_pooled).2 = Err e)
  ∧ token_pool store_two_pooled
    ⊆ token_pool (CleanupExpiredTokens AssignedThenPool no_faults
                    zscore_fails_on_b1 1300 store_two_pooled).1.
Proof.
  apply (unreadable_score_aborts_the_pool_sweep AssignedThenPool no_faults
           zscore_fails_on_b1 1300 "b1" store_two_pooled).
  - reflexivity.
  - by_compute.
  - reflexivity.
Defined.

(** ** Reconcile, token by token *)

Lemma view_membership (r : Redis) (t : string) (p a : bool) (k : option Z) :
  view r t = (p, a, k) →
  (t ∈ token_pool r ↔ p = true) ∧ (t ∈ assigned_tokens r ↔ a = true)
  ∧ keepalive_tokens r !! t = k.
Proof.
  unfold view. intros [= <- <- <-]. by rewrite !bool_decide_eq_true.
Qed.

(** X3. What a Reconcile at [now] with no failing call leaves of a token,
    whatever the order in which the calls of its two goroutines reach the
    store. The token is assigned afterwards exactly when it was assigned with
    a deadline after now - TokenAutoReleaseTime; it is in the pool exactly
    when its deadline is after now - TokenDeletionTime and it was in the pool,
    or was assigned with a deadline up to now - TokenAutoReleaseTime; its
    keepalive entry is kept exactly when the deadline is after
    now - TokenDeletionTime or the token was in neither set; the lock keys
    are untouched. *)
Theorem reconcile_fate_of_a_token
    (turns : list bool) (now : Z) (t : string) (r : Redis) :
  let r' := (cleanupExpiredTokens_interleaved turns no_faults no_faults now r).1
  in
  (t ∈ assigned_tokens r'
   ↔ t ∈ assigned_tokens r
     ∧ ∃ s, keepalive_tokens r !! t = Some s ∧ now - TokenAutoReleaseTime < s)
  ∧ (t ∈ token_pool r'
     ↔ ∃ s, keepalive_tokens r !! t = Some s
            ∧ now - TokenDeletionTime < s
            ∧ (t ∈ token_pool r
               ∨ (t ∈ assigned_tokens r ∧ s ≤ now - TokenAutoReleaseTime)))
  ∧ (∀ s, keepalive_tokens r' !! t = Some s
          ↔ keepalive_tokens r !! t = Some s
            ∧ (now - TokenDeletionTime < s
               ∨ ((t ∉ token_pool r) ∧ (t ∉ assigned_tokens r))))
  ∧ lock_keys r' = lock_keys r.
Proof.
  cbv zeta.
  destruct (interleaved_run_characterised turns now r) as (Hv & Hl & _).
  cbv zeta in Hv, Hl. specialize (Hv t).
  set (r' := (cleanupExpiredTokens_interleaved turns no_faults no_faults now r).1)
    in *.
  split; [|split; [|split]]; [| | |done].
  all: unfold view in Hv at 2.
  all: unfold TokenAutoReleaseTime, TokenDeletionTime in *.
  all: destruct (decide (t ∈ token_pool r)) as [Hinp|Hinp];
       destruct (decide (t ∈ assigned_tokens r)) as [Hina|Hina];
       rewrite ?(bool_decide_eq_true_2 _ Hinp), ?(bool_decide_eq_true_2 _ Hina),
         ?(bool_decide_eq_false_2 _ Hinp), ?(bool_decide_eq_false_2 _ Hina)
         in Hv;
       destruct (keepalive_tokens r !! t) as [s0|] eqn:Hk;
       unfold pool_sweep_on, assigned_sweep_on, score_action, score_decision
         in Hv;
       simpl in Hv; repeat (case_bool_decide; simpl in Hv);
       apply view_membership in Hv as (Hp' & Ha' & Hk');
       rewrite ?Hp', ?Ha', ?Hk'; clear Hp' Ha' Hk';
       try lia; naive_solver lia.
Qed.

(** Sweeping a view twice is sweeping it once. *)
Lemma sweeps_idempotent_on (releaseBefore deleteBefore : Z) v :
  deleteBefore ≤ releaseBefore →
  let sweep v := pool_sweep_on deleteBefore
                   (assigned_sweep_on releaseBefore deleteBefore v) in
  sweep (sweep v) = sweep v.
Proof.
  intros Hle. destruct v as [[[] []] [e|]];
    unfold pool_sweep_on, assigned_sweep_on, score_action, score_decision;
    simpl; repeat (case_bool_decide; simpl); try done; lia.
Qed.

Lemma foldl_tally_Keep (act : string → action) tokens res :
  (∀ t, t ∈ tokens → act t = Keep) →
  foldl (λ c t, tally (act t) c) res tokens = res.
Proof.
  revert res. induction tokens as [|t ts IH]; intros res Hall; [done|].
  cbn [foldl]. rewrite (Hall t) by by left.
  apply IH. intros u Hu. apply Hall. by right.
Qed.

Lemma foldl_pool_tally_PKeep (act : string → pool_action) tokens res :
  (∀ t, t ∈ tokens → act t = PKeep) →
  foldl (λ c t, pool_tally (act t) c) res tokens = res.
Proof.
  revert res. induction tokens as [|t ts IH]; intros res Hall; [done|].
  cbn [foldl]. rewrite (Hall t) by by left.
  apply IH. intros u Hu. apply Hall. by right.
Qed.

(** Once swept, a store gives the sweeps nothing to count. *)
Lemma swept_store_counts (releaseBefore deleteBefore : Z) r r' :
  deleteBefore ≤ releaseBefore →
  (∀ t, view r' t
        = pool_sweep_on deleteBefore
            (assigned_sweep_on releaseBefore deleteBefore (view r t))) →
  assigned_counts releaseBefore deleteBefore r' = empty_result
  ∧ pool_counts deleteBefore r' = empty_result.
Proof.
  intros Hle Hv. split.
  - apply foldl_tally_Keep. intros t Ht%elem_of_elements.
    specialize (Hv t). destruct (view r t) as [[p a] k].
    destruct p, a, k as [e|];
      unfold pool_sweep_on, assigned_sweep_on, score_action, score_decision
        in Hv;
      simpl in Hv; repeat (case_bool_decide; simpl in Hv);
      apply view_membership in Hv as (_ & Ha & Hk);
      apply Ha in Ht; try done; rewrite Hk;
      unfold score_action; repeat case_bool_decide; try done; lia.
  - apply foldl_pool_tally_PKeep. intros t Ht%elem_of_elements.
    specialize (Hv t). destruct (view r t) as [[p a] k].
    destruct p, a, k as [e|];
      unfold pool_sweep_on, assigned_sweep_on, score_action, score_decision
        in Hv;
      simpl in Hv; repeat (case_bool_decide; simpl in Hv);
      apply view_membership in Hv as (Hp & _ & Hk);
      apply Hp in Ht; try done; rewrite Hk;
      unfold score_decision; repeat case_bool_decide; try done; lia.
Qed.

(** X4. Reconcile is idempotent at a fixed instant: after one run at [now]
    with no failing call, a second run at the same [now] changes nothing in
    the store and counts no token released and none deleted, whatever the
    interleaving of the goroutines in either run. *)
Theorem reconcile_is_idempotent (turns turns' : list bool) (now : Z) (r : Redis) :
  let once := cleanupExpiredTokens_interleaved turns no_faults no_faults now r
  in
  cleanupExpiredTokens_interleaved turns' no_faults no_faults now once.1
  = (once.1, empty_result).
Proof.
  cbv zeta.
  destruct (interleaved_run_characterised turns now r) as (Hv & Hl & _).
  cbv zeta in Hv, Hl.
  set (r1 := (cleanupExpiredTokens_interleaved turns no_faults no_faults now r).1)
    in *.
  destruct (interleaved_run_characterised turns' now r1) as (Hv' & Hl' & Hres).
  cbv zeta in Hv', Hl', Hres.
  assert (Hle : now - TokenDeletionTime ≤ now - TokenAutoReleaseTime).
  { unfold TokenAutoReleaseTime, TokenDeletionTime. lia. }
  destruct (swept_store_counts _ _ r r1 Hle Hv) as [Hca Hcp].
  rewrite Hca, Hcp in Hres.
  destruct (cleanupExpiredTokens_interleaved turns' _ _ now r1) as [r2 c2].
  cbn [fst snd] in *. f_equal; [|by rewrite Hres].
  apply view_ext; [|done]. intros t. rewrite Hv', Hv.
  by apply sweeps_idempotent_on.
Qed.

(** ** the counts Reconcile reports *)

#[global] Instance action_eq_dec : EqDecision action.
Proof. solve_decision. Defined.

Lemma foldl_tally_counts (act : string → action) tokens res :
  foldl (λ c t, tally (act t) c) res tokens
  = mkCleanupResult
      (TokensReleased res
       + Z.of_nat (length (filter (λ t, act t = Release) tokens)))
      (TokensDeleted res
       + Z.of_nat (length (filter (λ t, act t = Purge) tokens)))
      (ProcessingError res).
Proof.
  revert res. induction tokens as [|t ts IH]; intros res.
  - simpl. destruct res. simpl. f_equal; lia.
  - cbn [foldl]. rewrite IH, !filter_cons.
    destruct (act t) eqn:E;
      repeat (case_decide; try done);
      cbn [tally released_incr deleted_incr TokensReleased TokensDeleted
             ProcessingError length];
      f_equal; lia.
Qed.

(** With no failing call the order of the two sweeps does not show in what
    cleanupExpiredTokens returns. *)
Lemma cleanupExpiredTokens_either_order (sched : schedule) (now : Z) (r : Redis) :
  cleanupExpiredTokens sched no_faults no_faults now r
  = cleanupExpiredTokens_interleaved [] no_faults no_faults now r.
Proof.
  rewrite interleaved_nil. destruct sched; [done|].
  set (rB := now - TokenAutoReleaseTime). set (dB := now - TokenDeletionTime).
  pose proof (sweeps_commute_store rB dB r) as Hstore.
  pose proof (assigned_counts_after_pool rB dB r) as Ha.
  pose proof (pool_counts_after_assigned rB dB r) as Hp.
  pose proof (no_faults_assigned_error rB dB r) as Hea.
  pose proof (no_faults_pool_error dB r) as Hep.
  unfold cleanupExpiredTokens, run_sweeps. unfold_st. fold rB dB.
  destruct (cleanupAssignedTokens no_faults rB dB r) as [ra1 ca1].
  destruct (cleanupPoolTokens no_faults dB r) as [rp2 cp2].
  cbn [fst snd] in *.
  destruct (cleanupPoolTokens no_faults dB ra1) as [rp1 cp1].
  destruct (cleanupAssignedTokens no_faults rB dB rp2) as [ra2 ca2].
  cbn [fst snd] in *. subst.
  f_equal. unfold collect. simpl. rewrite Hea, Hep. f_equal; lia.
Qed.

(** X5. The counts Reconcile returns are the changes it made. With no
    failing call, on a store where no token is in both sets, the map holds
    under "assigned_tokens" the number of tokens that went from the assigned
    set to the pool, and under "token_pool" the number of tokens that were in
    one of the two sets and are in neither afterwards (deleted from the pool
    or from the assigned set). *)
Theorem reconcile_counts_are_the_changes
    (sched : schedule) (now : Z) (r : Redis) :
  I1 r →
  let out := CleanupExpiredTokens sched no_faults no_faults now r in
  out.2
  = Ok (<[key_name KeyTokenPool :=
            Z.of_nat (size ((token_pool r ∪ assigned_tokens r)
                            ∖ (token_pool out.1 ∪ assigned_tokens out.1)))]>
          (<[key_name KeyAssignedTokens :=
               Z.of_nat (size (assigned_tokens r ∩ token_pool out.1))]> ∅)).
Proof.
  intros Hinv. cbv zeta.
  unfold CleanupExpiredTokens. rewrite St_bind_run.
  rewrite cleanupExpiredTokens_either_order.
  destruct (interleaved_run_characterised [] now r) as (Hv & _ & Hres).
  cbv zeta in Hv, Hres.
  set (rB := now - TokenAutoReleaseTime) in *.
  set (dB := now - TokenDeletionTime) in *.
  assert (Hle : dB ≤ rB).
  { unfold rB, dB, TokenAutoReleaseTime, TokenDeletionTime. lia. }
  destruct (cleanupExpiredTokens_interleaved [] no_faults no_faults now r)
    as [r' c]. cbn [fst snd] in *. subst c. cbn [ProcessingError].
  unfold mret, St_ret. cbn [fst snd TokensReleased TokensDeleted].
  unfold assigned_counts, pool_counts.
  rewrite foldl_tally_counts, foldl_pool_tally, !length_filter_elements.
  cbn [TokensReleased TokensDeleted empty_result].
  set (act := λ t, score_action rB dB (keepalive_tokens r !! t)).
  set (dec := λ t, score_decision dB (keepalive_tokens r !! t)).
  assert (HR : filter (λ t, act t = Release) (assigned_tokens r)
               = assigned_tokens r ∩ token_pool r').
  { apply set_eq. intros t. rewrite elem_of_filter, elem_of_intersection.
    specialize (Hv t). specialize (Hinv t). unfold view in Hv at 2.
    unfold act. clear act dec.
    destruct (decide (t ∈ token_pool r)) as [Hinp|Hinp];
      destruct (decide (t ∈ assigned_tokens r)) as [Hina|Hina];
      try (exfalso; by apply Hinv);
      rewrite ?(bool_decide_eq_true_2 _ Hinp), ?(bool_decide_eq_true_2 _ Hina),
        ?(bool_decide_eq_false_2 _ Hinp), ?(bool_decide_eq_false_2 _ Hina)
        in Hv;
      destruct (keepalive_tokens r !! t) as [s0|] eqn:Hk;
      unfold pool_sweep_on, assigned_sweep_on, score_action, score_decision
        in *;
      simpl in Hv; repeat (case_bool_decide; simpl in Hv);
      apply view_membership in Hv as (Hp' & Ha' & Hk');
      rewrite ?Hp'; clear Hp' Ha' Hk';
      try lia; naive_solver. }
  assert (HD : filter (λ t, act t = Purge) (assigned_tokens r)
               ∪ filter (purges dec) (token_pool r)
               = (token_pool r ∪ assigned_tokens r)
                 ∖ (token_pool r' ∪ assigned_tokens r')).
  { apply set_eq. intros t.
    rewrite elem_of_union, !elem_of_filter, elem_of_difference, !elem_of_union.
    specialize (Hv t). specialize (Hinv t). unfold view in Hv at 2.
    unfold act, dec, purges. clear act dec HR.
    destruct (decide (t ∈ token_pool r)) as [Hinp|Hinp];
      destruct (decide (t ∈ assigned_tokens r)) as [Hina|Hina];
      try (exfalso; by apply Hinv);
      rewrite ?(bool_decide_eq_true_2 _ Hinp), ?(bool_decide_eq_true_2 _ Hina),
        ?(bool_decide_eq_false_2 _ Hinp), ?(bool_decide_eq_false_2 _ Hina)
        in Hv;
      destruct (keepalive_tokens r !! t) as [s0|] eqn:Hk;
      unfold pool_sweep_on, assigned_sweep_on, score_action, score_decision
        in *;
      simpl in Hv; repeat (case_bool_decide; simpl in Hv);
      apply view_membership in Hv as (Hp' & Ha' & Hk');
      rewrite ?Hp', ?Ha'; clear Hp' Ha' Hk';
      try lia; naive_solver. }
  assert (Hdisj : filter (λ t, act t = Purge) (assigned_tokens r)
                  ## filter (purges dec) (token_pool r)).
  { intros t Ha Hp. apply elem_of_filter in Ha as [_ Ha].
    apply elem_of_filter in Hp as [_ Hp]. exact (Hinv t Hp Ha). }
  rewrite <-HR, <-HD, (size_union _ _ Hdisj).
  by rewrite Nat2Z.inj_add, !Z.add_0_l, Z.add_0_r.
Qed.

Lemma reconcile_counts_are_the_changes_witness :
  let out := CleanupExpiredTokens AssignedThenPool no_faults no_faults 1100
               store_two_tokens in
  out.2
  = Ok (<[key_name KeyTokenPool :=
            Z.of_nat (size ((token_pool store_two_tokens
                             ∪ assigned_tokens store_two_tokens)
                            ∖ (token_pool out.1 ∪ assigned_tokens out.1)))]>
          (<[key_name KeyAssignedTokens :=
               Z.of_nat (size (assigned_tokens store_two_tokens
                               ∩ token_pool out.1))]> ∅)).
Proof.
  apply (reconcile_counts_are_the_changes AssignedThenPool 1100
           store_two_tokens).
  apply reachable_I1, reachable_store_two_tokens.
Defined.

(** ** Reconcile only removes *)

(** A token's view [v] against its view [v0] at the start of the run: it is
    in a set only if it was in one (assigned only if it was assigned), and
    its score is the old one unless it was in a set and the score is gone. *)
Definition fades (v0 v : bool * bool * option Z) : Prop :=
  (v.1.1 = true → v0.1.1 = true ∨ v0.1.2 = true)
  ∧ (v.1.2 = true → v0.1.2 = true)
  ∧ (v.2 = v0.2 ∨ (v.2 = None ∧ (v0.1.1 = true ∨ v0.1.2 = true))).

Definition only_removes (r0 r : Redis) : Prop :=
  lock_keys r = lock_keys r0 ∧ ∀ t, fades (view r0 t) (view r t).

(** A pipeline whose execution keeps [only_removes r0]. *)
Definition fade_safe (r0 : Redis) (pipe : list command) : Prop :=
  ∀ r, only_removes r0 r → only_removes r0 (apply_all pipe r).1.

(** What the goroutines hold while they scan: a pipeline that only removes,
    and tokens that were in the set they fetched. *)
Definition assigned_task_fades (r0 : Redis) (k : task) : Prop :=
  match k with
  | Scanning tokens pipe _ =>
      fade_safe r0 pipe ∧ ∀ t, t ∈ tokens → t ∈ assigned_tokens r0
  | _ => True
  end.

Definition pool_task_fades (r0 : Redis) (k : task) : Prop :=
  match k with
  | Scanning tokens pipe _ =>
      fade_safe r0 pipe
      ∧ ∀ t, t ∈ tokens → t ∈ token_pool r0 ∨ t ∈ assigned_tokens r0
  | _ => True
  end.

Lemma only_removes_refl r0 : only_removes r0 r0.
Proof. split; [done|]. intros t. unfold fades. tauto. Qed.

Lemma fade_safe_nil r0 : fade_safe r0 [].
Proof. by intros r. Qed.

Lemma fade_safe_app r0 p q :
  fade_safe r0 p → fade_safe r0 q → fade_safe r0 (p ++ q).
Proof. intros Hp Hq r Hr. rewrite apply_all_app. by apply Hq, Hp. Qed.

Lemma fade_safe_assigned_commands r0 (a : action) (u : string) :
  u ∈ assigned_tokens r0 → fade_safe r0 (assigned_commands a u).
Proof.
  intros Hu r [Hl Hv]. split; [by rewrite locks_apply_all|].
  intros t. specialize (Hv t).
  pose proof (view_assigned_commands (λ _, a) [u] r t) as Hone.
  cbn [flat_map] in Hone. rewrite app_nil_r in Hone. rewrite Hone. clear Hone.
  case_decide as Hin; [|done].
  apply list_elem_of_singleton in Hin as ->.
  assert ((view r0 u).1.2 = true) as H0 by by apply bool_decide_eq_true_2.
  unfold fades in *.
  destruct a, (view r u) as [[p b] k], (view r0 u) as [[p0 b0] k0];
    simpl in *; naive_solver.
Qed.

Lemma fade_safe_pool_commands r0 (d : pool_action) (u : string) :
  u ∈ token_pool r0 ∨ u ∈ assigned_tokens r0 →
  fade_safe r0 (pool_commands d u).
Proof.
  intros Hu r [Hl Hv]. split; [by rewrite locks_apply_all|].
  intros t. specialize (Hv t).
  pose proof (view_pool_commands (λ _, d) [u] r t) as Hone.
  cbn [flat_map] in Hone. rewrite app_nil_r in Hone. rewrite Hone. clear Hone.
  case_decide as Hin; [|done].
  apply list_elem_of_singleton in Hin as ->.
  assert ((view r0 u).1.1 = true ∨ (view r0 u).1.2 = true) as H0.
  { destruct Hu; [left|right]; by apply bool_decide_eq_true_2. }
  unfold fades in *.
  destruct d, (view r u) as [[p b] k], (view r0 u) as [[p0 b0] k0];
    simpl in *; naive_solver.
Qed.

Lemma only_removes_assigned r0 r t :
  only_removes r0 r → t ∈ assigned_tokens r → t ∈ assigned_tokens r0.
Proof.
  intros [_ Hv] Ht. destruct (Hv t) as (_ & Ha & _).
  apply (bool_decide_eq_true (t ∈ assigned_tokens r0)), Ha.
  by apply bool_decide_eq_true_2.
Qed.

Lemma only_removes_pool r0 r t :
  only_removes r0 r → t ∈ token_pool r →
  t ∈ token_pool r0 ∨ t ∈ assigned_tokens r0.
Proof.
  intros [_ Hv] Ht. destruct (Hv t) as (Hp & _ & _).
  unfold view in Hp. cbn [fst snd] in Hp.
  rewrite !bool_decide_eq_true in Hp. auto.
Qed.

Section Fading.
Variables (fa fp : Faults) (releaseBefore deleteBefore : Z) (r0 : Redis).

Lemma assigned_step_fades k r :
  only_removes r0 r → assigned_task_fades r0 k →
  only_removes r0 (assigned_step fa releaseBefore deleteBefore k r).1
  ∧ assigned_task_fades r0 (assigned_step fa releaseBefore deleteBefore k r).2.
Proof.
  intros Hr Hk. destruct k as [|[|t ts] pipe res| |]; cbn [assigned_step].
  - unfold_st. destruct (smembers_fails fa); [done|].
    case_bool_decide; [done|]. split; [done|].
    split; [apply fade_safe_nil|].
    intros t Ht%elem_of_elements. by apply (only_removes_assigned r0 r).
  - unfold_st. destruct Hk as [Hk _]. destruct (exec_fails fa); [done|].
    pose proof (Hk r Hr) as Hfin. by destruct (apply_all pipe r).
  - unfold mbind, St_bind. rewrite assigned_loop_spec. split; [done|].
    destruct Hk as [Hk Hts]. cbn [flat_map]. rewrite app_nil_r. split.
    + apply fade_safe_app; [done|].
      apply fade_safe_assigned_commands, Hts. by left.
    + intros u Hu. apply Hts. by right.
  - done.
  - done.
Qed.

Lemma pool_step_fades k r :
  only_removes r0 r → pool_task_fades r0 k →
  only_removes r0 (pool_step fp deleteBefore k r).1
  ∧ pool_task_fades r0 (pool_step fp deleteBefore k r).2.
Proof.
  intros Hr Hk. destruct k as [|[|t ts] pipe res| |]; cbn [pool_step].
  - unfold_st. destruct (smembers_fails fp); [done|].
    case_bool_decide; [done|]. split; [done|].
    split; [apply fade_safe_nil|].
    intros t Ht%elem_of_elements. by apply (only_removes_pool r0 r).
  - unfold_st. destruct Hk as [Hk _]. destruct (exec_fails fp); [done|].
    pose proof (Hk r Hr) as Hfin. by destruct (apply_all pipe r).
  - unfold mbind, St_bind.
    destruct (pool_loop_cases fp deleteBefore [t] pipe res r)
      as [(res' & -> & _)|[-> _]]; [done|].
    split; [done|]. destruct Hk as [Hk Hts].
    cbn [flat_map]. rewrite app_nil_r. split.
    + apply fade_safe_app; [done|].
      apply fade_safe_pool_commands, Hts. by left.
    + intros u Hu. apply Hts. by right.
  - done.
  - done.
Qed.

Lemma interleave_fades turns ka kp chan r :
  only_removes r0 r → assigned_task_fades r0 ka → pool_task_fades r0 kp →
  let out := interleave fa fp releaseBefore deleteBefore turns (ka, kp, chan) r
  in
  only_removes r0 out.1
  ∧ assigned_task_fades r0 out.2.1.1 ∧ pool_task_fades r0 out.2.1.2.
Proof.
  revert ka kp chan r.
  induction turns as [|b turns IH]; intros ka kp chan r Hr Ha Hp; [done|].
  cbn [interleave]. cbv zeta. rewrite St_bind_run. destruct b; cbn [turn].
  - rewrite St_bind_run. cbn [fst snd mret St_ret].
    destruct (assigned_step_fades ka r Hr Ha) as [H1 H2]. by apply IH.
  - rewrite St_bind_run. cbn [fst snd mret St_ret].
    destruct (pool_step_fades kp r Hr Hp) as [H1 H2]. by apply IH.
Qed.

Lemma assigned_loop_fades tokens pipe res r :
  fade_safe r0 pipe → (∀ t, t ∈ tokens → t ∈ assigned_tokens r0) →
  fade_safe r0
    (assigned_loop fa releaseBefore deleteBefore tokens pipe res r).2.1.
Proof.
  rewrite assigned_loop_spec. cbn [fst snd]. intros Hp Hts.
  apply fade_safe_app; [done|]. clear Hp.
  induction tokens as [|t ts IH]; [apply fade_safe_nil|].
  cbn [flat_map]. apply fade_safe_app.
  - apply fade_safe_assigned_commands, Hts. by left.
  - apply IH. intros u Hu. apply Hts. by right.
Qed.

Lemma assigned_rest_fades k r :
  only_removes r0 r → assigned_task_fades r0 k →
  only_removes r0 (assigned_rest fa releaseBefore deleteBefore k r).1.
Proof.
  intros Hr Hk. destruct k as [|ts pipe res| |]; cbn [assigned_rest];
    try done.
  - rewrite St_bind_run. cbn [fst snd mret St_ret].
    unfold cleanupAssignedTokens. unfold_st.
    destruct (smembers_fails fa); [done|].
    case_bool_decide; [done|].
    pose proof (assigned_loop_fades (elements (get_set KeyAssignedTokens r)) []
                  empty_result r (fade_safe_nil r0)) as Hsafe.
    rewrite assigned_loop_spec in *. cbn [fst snd] in *.
    destruct (exec_fails fa); [done|].
    assert (Hin : ∀ t, t ∈ elements (get_set KeyAssignedTokens r) →
                       t ∈ assigned_tokens r0).
    { intros t Ht%elem_of_elements. by apply (only_removes_assigned r0 r). }
    pose proof (Hsafe Hin r Hr) as Hfin.
    by destruct (apply_all _ r).
  - destruct Hk as [Hk Hts].
    pose proof (assigned_loop_fades ts pipe res r Hk Hts) as Hsafe.
    rewrite St_bind_run. rewrite assigned_loop_spec in *. cbn [fst snd] in *.
    rewrite St_bind_run. cbn [assigned_step]. unfold_st.
    destruct (exec_fails fa); [done|].
    pose proof (Hsafe r Hr) as Hfin. by destruct (apply_all _ r).
Qed.

Lemma pool_loop_fades tokens pipe res r :
  fade_safe r0 pipe →
  (∀ t, t ∈ tokens → t ∈ token_pool r0 ∨ t ∈ assigned_tokens r0) →
  match (pool_loop fp deleteBefore tokens pipe res r).2 with
  | inl _ => True
  | inr (pipe', _) => fade_safe r0 pipe'
  end
  ∧ (pool_loop fp deleteBefore tokens pipe res r).1 = r.
Proof.
  intros Hp Hts.
  destruct (pool_loop_cases fp deleteBefore tokens pipe res r)
    as [(res' & -> & _)|[-> _]]; [done|].
  cbn [fst snd]. split; [|done].
  apply fade_safe_app; [done|]. clear Hp.
  induction tokens as [|t ts IH]; [apply fade_safe_nil|].
  cbn [flat_map]. apply fade_safe_app.
  - apply fade_safe_pool_commands, Hts. by left.
  - apply IH. intros u Hu. apply Hts. by right.
Qed.

Lemma pool_rest_fades k r :
  only_removes r0 r → pool_task_fades r0 k →
  only_removes r0 (pool_rest fp deleteBefore k r).1.
Proof.
  intros Hr Hk. destruct k as [|ts pipe res| |]; cbn [pool_rest]; try done.
  - rewrite St_bind_run. cbn [fst snd mret St_ret].
    unfold cleanupPoolTokens. unfold_st.
    destruct (smembers_fails fp); [done|].
    case_bool_decide; [done|].
    assert (Hin : ∀ t, t ∈ elements (get_set KeyTokenPool r) →
                       t ∈ token_pool r0 ∨ t ∈ assigned_tokens r0).
    { intros t Ht%elem_of_elements. by apply (only_removes_pool r0 r). }
    destruct (pool_loop_fades (elements (get_set KeyTokenPool r)) []
                empty_result r (fade_safe_nil r0) Hin) as [Hsafe Hst].
    destruct (pool_loop fp deleteBefore _ [] empty_result r) as [r1 [res|[pipe res]]];
      cbn [fst snd] in *; subst r1; [done|].
    destruct (exec_fails fp); [done|].
    pose proof (Hsafe r Hr) as Hfin. by destruct (apply_all _ r).
  - destruct Hk as [Hk Hts].
    destruct (pool_loop_fades ts pipe res r Hk Hts) as [Hsafe Hst].
    rewrite St_bind_run.
    destruct (pool_loop fp deleteBefore ts pipe res r) as [r1 [res'|[pipe' res']]];
      cbn [fst snd] in *; subst r1; [done|].
    rewrite St_bind_run. cbn [pool_step]. unfold_st.
    destruct (exec_fails fp); [done|].
    pose proof (Hsafe r Hr) as Hfin. by destruct (apply_all _ r).
Qed.
End Fading.

(** X6. Reconcile only removes, whichever of its calls fail and whatever
    the order in which the calls of its two goroutines reach the store: a
    token in the pool afterwards was in the pool or assigned, an assigned
    token was assigned, no score is written or changed, and no lock key is
    touched. The keepalive entry of a token that is in neither set is never
    removed: Reconcile does not collect such leftovers. *)
Theorem reconcile_only_removes
    (turns : list bool) (fa fp : Faults) (now : Z) (t : string) (r : Redis) :
  let r' := (cleanupExpiredTokens_interleaved turns fa fp now r).1 in
  (t ∈ token_pool r' → t ∈ token_pool r ∨ t ∈ assigned_tokens r)
  ∧ (t ∈ assigned_tokens r' → t ∈ assigned_tokens r)
  ∧ (∀ s, keepalive_tokens r' !! t = Some s → keepalive_tokens r !! t = Some s)
  ∧ (t ∉ token_pool r → t ∉ assigned_tokens r →
     keepalive_tokens r' !! t = keepalive_tokens r !! t)
  ∧ lock_keys r' = lock_keys r.
Proof.
  cbv zeta.
  assert (only_removes r
            (cleanupExpiredTokens_interleaved turns fa fp now r).1) as [Hl Hv].
  { unfold cleanupExpiredTokens_interleaved. rewrite St_bind_run.
    pose proof (interleave_fades fa fp (now - TokenAutoReleaseTime)
                  (now - TokenDeletionTime) r turns Fetching Fetching [] r
                  (only_removes_refl r) I I) as (Hr1 & Ha & Hp).
    cbv zeta in Hr1, Ha, Hp.
    destruct (interleave _ _ _ _ turns _ r) as [r1 [[ka kp] chan]].
    cbn [fst snd] in *. rewrite !St_bind_run.
    apply pool_rest_fades; [|done]. by apply assigned_rest_fades. }
  specialize (Hv t). destruct Hv as (Hp & Ha & Hk).
  unfold view in Hp, Ha, Hk. cbn [fst snd] in Hp, Ha, Hk.
  split; [|split; [|split; [|split; [|done]]]].
  - intros Hin. apply (bool_decide_eq_true_2 (t ∈ token_pool _)) in Hin.
    destruct (Hp Hin) as [H|H]; [left|right];
      exact (bool_decide_eq_true_1 _ H).
  - intros Hin. apply (bool_decide_eq_true_2 (t ∈ assigned_tokens _)) in Hin.
    exact (bool_decide_eq_true_1 _ (Ha Hin)).
  - intros s Hs. destruct Hk as [Hk|[Hk _]]; congruence.
  - intros Hnp Hna. destruct Hk as [Hk|[_ [H|H]]]; [done|..];
      apply bool_decide_eq_true_1 in H; done.
Qed.

(** ** a renewed lease under Reconcile *)

(** X10. The life of a lease after a Renew. After KeepAlive has succeeded
    at T for an assigned token that is not in the pool, a Reconcile at [now]
    with no failing call, in whatever order its calls reach the store, leaves
    the token assigned when now < T + 2 * TokenAutoReleaseTime, moves it to
    the pool from then up to T + TokenAutoReleaseTime + TokenDeletionTime, and
    from that instant on deletes it with its keepalive entry. *)
Theorem renewed_lease_under_reconcile
    (turns : list bool) (f : Faults) (T now : Z) (t : string) (r : Redis) :
  t ∈ assigned_tokens r → t ∉ token_pool r →
  (KeepAlive f T t r).2 = None →
  let r' := (cleanupExpiredTokens_interleaved turns no_faults no_faults now
               (KeepAlive f T t r).1).1 in
  (now < T + 2 * TokenAutoReleaseTime →
   t ∈ assigned_tokens r' ∧ t ∉ token_pool r')
  ∧ (T + 2 * TokenAutoReleaseTime ≤ now
     < T + TokenAutoReleaseTime + TokenDeletionTime →
     t ∈ token_pool r' ∧ t ∉ assigned_tokens r')
  ∧ (T + TokenAutoReleaseTime + TokenDeletionTime ≤ now →
     Absent r' t ∧ keepalive_tokens r' !! t = None).
Proof.
  intros Ha Hp Hok. cbv zeta.
  rewrite KeepAlive_run in Hok |- *.
  destruct (sismember_fails f KeyTokenPool); [done|].
  destruct (sismember_fails f KeyAssignedTokens); [done|].
  rewrite (bool_decide_eq_true_2 _ Ha), orb_true_r in Hok |- *.
  destruct (zadd_fails f); [done|]. cbn [fst]. clear Hok.
  set (r1 := put_zset _ r).
  destruct (interleaved_run_characterised turns now r1) as (Hv & _ & _).
  cbv zeta in Hv. specialize (Hv t).
  assert (view r1 t = (false, true, Some (T + TokenAutoReleaseTime))) as Hv1.
  { unfold view, r1. simpl. rewrite lookup_insert_eq.
    by rewrite (bool_decide_eq_false_2 _ Hp), (bool_decide_eq_true_2 _ Ha). }
  rewrite Hv1 in Hv. clear Hv1.
  unfold Absent, TokenAutoReleaseTime, TokenDeletionTime in *.
  unfold pool_sweep_on, assigned_sweep_on, score_action, score_decision in Hv.
  simpl in Hv.
  repeat (case_bool_decide; simpl in Hv);
    apply view_membership in Hv as (Hp' & Ha' & Hk');
    rewrite Hp', Ha', Hk'; repeat split; intros; try done; try lia.
Qed.


Lemma renewed_lease_under_reconcile_witness :
  let r' := (cleanupExpiredTokens_interleaved [true; false] no_faults
               no_faults 1160 (KeepAlive no_faults 1050 "a1" store_assigned).1).1
  in
  (1160 < 1050 + 2 * TokenAutoReleaseTime →
   "a1" ∈ assigned_tokens r' ∧ "a1" ∉ token_pool r')
  ∧ (1050 + 2 * TokenAutoReleaseTime ≤ 1160
     < 1050 + TokenAutoReleaseTime + TokenDeletionTime →
     "a1" ∈ token_pool r' ∧ "a1" ∉ assigned_tokens r')
  ∧ (1050 + TokenAutoReleaseTime + TokenDeletionTime ≤ 1160 →
     Absent r' "a1" ∧ keepalive_tokens r' !! "a1" = None).
Proof.
  apply (renewed_lease_under_reconcile [true; false] no_faults 1050 1160 "a1"
           store_assigned).
  - by_compute.
  - by_compute.
  - vm_compute. reflexivity.
Defined.

(** ** Reconcile when both sweeps fail *)

(** X9. When both sweeps end with a processing error, the error Reconcile
    returns is the one of the sweep whose result reaches resultChan first,
    the assigned sweep's when that sweep is first and the pool sweep's when
    the pool sweep is first, and the store is as it was. *)
Theorem first_failed_sweep_names_the_error
    (sched : schedule) (fa fp : Faults) (now : Z) (r : Redis)
    (a p : CleanupResult) (ea ep : error) :
  sweep_results sched fa fp (now - TokenAutoReleaseTime)
    (now - TokenDeletionTime) r = (a, p) →
  ProcessingError a = Some ea → ProcessingError p = Some ep →
  CleanupExpiredTokens sched fa fp now r
  = (r, Err match sched with
            | AssignedThenPool => ea
            | PoolThenAssigned => ep
            end).
Proof.
  set (rB := now - TokenAutoReleaseTime). set (dB := now - TokenDeletionTime).
  intros Hres Ha Hp.
  assert (Hst : (CleanupExpiredTokens sched fa fp now r).1 = r).
  { rewrite CleanupExpiredTokens_store, run_sweeps_store. fold rB dB.
    unfold sweep_results in Hres. destruct sched.
    - pose proof (failed_assigned_sweep_store fa rB dB r) as Hsa.
      destruct (cleanupAssignedTokens fa rB dB r) as [r1 a'].
      injection Hres as -> Hp'. cbn [fst snd] in *.
      rewrite Hsa in * by by rewrite Ha.
      apply failed_pool_sweep_store. by rewrite Hp', Hp.
    - pose proof (failed_pool_sweep_store fp dB r) as Hsp.
      destruct (cleanupPoolTokens fp dB r) as [r1 p'].
      injection Hres as Ha' ->. cbn [fst snd] in *.
      rewrite Hsp in * by by rewrite Hp.
      apply failed_assigned_sweep_store. by rewrite Ha', Ha. }
  assert (Herr : (CleanupExpiredTokens sched fa fp now r).2
                 = Err match sched with
                       | AssignedThenPool => ea
                       | PoolThenAssigned => ep
                       end).
  { apply CleanupExpiredTokens_error.
    unfold cleanupExpiredTokens, run_sweeps. unfold_st. fold rB dB.
    unfold sweep_results in Hres. destruct sched.
    - destruct (cleanupAssignedTokens fa rB dB r) as [r1 a'].
      destruct (cleanupPoolTokens fp dB r1) as [r2 p']. simpl in Hres.
      injection Hres as -> ->. cbv beta iota. cbn [snd].
      by rewrite collect_two_error, Ha.
    - destruct (cleanupPoolTokens fp dB r) as [r1 p'].
      destruct (cleanupAssignedTokens fa rB dB r1) as [r2 a']. simpl in Hres.
      injection Hres as -> ->. cbv beta iota. cbn [snd].
      by rewrite collect_two_error, Hp. }
  destruct (CleanupExpiredTokens sched fa fp now r) as [r' res].
  cbn [fst snd] in *. by subst.
Qed.

(** Only SMEMBERS fails. *)
Definition smembers_fails_only : Faults :=
  mkFaults false false false false (λ _, false) true (λ _, false) false
    false.

Lemma first_failed_sweep_names_the_error_witness :
  CleanupExpiredTokens PoolThenAssigned smembers_fails_only smembers_fails_only
    1100 store_two_tokens
  = (store_two_tokens,
     Err match PoolThenAssigned with
         | AssignedThenPool => Wrapped "failed to fetch assigned tokens" ErrRedis
         | PoolThenAssigned => Wrapped "failed to fetch pool tokens" ErrRedis
         end).
Proof.
  apply (first_failed_sweep_names_the_error PoolThenAssigned
           smembers_fails_only smembers_fails_only 1100 store_two_tokens
           (mkCleanupResult 0 0
              (Some (Wrapped "failed to fetch assigned tokens" ErrRedis)))
           (mkCleanupResult 0 0
              (Some (Wrapped "failed to fetch pool tokens" ErrRedis)))
           (Wrapped "failed to fetch assigned tokens" ErrRedis)
           (Wrapped "failed to fetch pool tokens" ErrRedis)).
  - vm_compute. reflexivity.
  - reflexivity.
  - reflexivity.
Defined.

(** ** a handler's call between the reads of a sweep and its transaction *)

(** The assigned goroutine after its SMEMBERS and the reads of all the
    tokens it fetched, no call failing: the store is untouched, its next
    call is the Exec of the pipeline it queued. *)
Lemma assigned_scan_run (releaseBefore deleteBefore : Z) (r : Redis)
    (tokens : list string) (pipe : list command) (res : CleanupResult)
    (kp : task) (chan : list CleanupResult) :
  interleave no_faults no_faults releaseBefore deleteBefore
    (replicate (length tokens) true) (Scanning tokens pipe res, kp, chan) r
  = (r, (Scanning []
           (pipe ++ flat_map
                      (λ t, assigned_commands
                              (score_action releaseBefore deleteBefore
                                 (keepalive_tokens r !! t)) t) tokens)
           (foldl (λ c t, tally (score_action releaseBefore deleteBefore
                                   (keepalive_tokens r !! t)) c) res tokens),
         kp, chan)).
Proof.
  revert pipe res chan.
  induction tokens as [|t ts IH]; intros pipe res chan.
  - simpl. by rewrite app_nil_r.
  - cbn [length replicate interleave turn]. rewrite !St_bind_run.
    rewrite assigned_step_scan. cbn [fst snd mret St_ret sent].
    rewrite app_nil_r, IH. cbn [flat_map foldl]. by rewrite <-app_assoc.
Qed.

(** X11. Reconcile can undo a Delete. The assigned sweep decides from reads
    it makes before its transaction; when a Delete of a token it has found
    due for release completes after those reads and before the Exec, the
    Delete succeeds and the token is in neither set, and the Exec of the
    sweep then puts the token back in the pool, with no keepalive entry. *)
Theorem Delete_between_scan_and_Exec_is_undone
    (now s : Z) (t : string) (r : Redis) :
  t ∈ assigned_tokens r → keepalive_tokens r !! t = Some s →
  now - TokenDeletionTime < s ≤ now - TokenAutoReleaseTime →
  let releaseBefore := now - TokenAutoReleaseTime in
  let deleteBefore := now - TokenDeletionTime in
  let scanned :=
    interleave no_faults no_faults releaseBefore deleteBefore
      (replicate (S (size (assigned_tokens r))) true) (Fetching, Fetching, [])
      r in
  let deleted := DeleteToken no_faults t scanned.1 in
  let r' := (assigned_step no_faults releaseBefore deleteBefore
               scanned.2.1.1 deleted.1).1 in
  scanned.1 = r
  ∧ (∃ pipe res, scanned.2.1.1 = Scanning [] pipe res)
  ∧ deleted.2 = None ∧ Absent deleted.1 t
  ∧ t ∈ token_pool r' ∧ keepalive_tokens r' !! t = None.
Proof.
  intros Hin Hk Hs rB dB. cbv zeta.
  cbn [replicate interleave turn]. rewrite !St_bind_run.
  rewrite assigned_step_fetch. cbn [fst snd mret St_ret sent].
  rewrite bool_decide_eq_false_2 by set_solver.
  assert (size (assigned_tokens r) = length (elements (assigned_tokens r)))
    as -> by done.
  rewrite (assigned_scan_run rB dB r). cbn [fst snd app].
  split; [done|]. split; [by eauto|].
  rewrite (DeleteToken_exec no_faults t r eq_refl). cbn [fst snd].
  rewrite (bool_decide_eq_true_2 (t ∈ assigned_tokens r)) by done.
  rewrite orb_true_r. split; [done|]. unfold Absent. cbn [token_pool assigned_tokens].
  split; [set_solver|].
  rewrite assigned_step_exec. cbn [fst].
  set (rd := mkRedis _ _ _ _).
  pose proof (view_assigned_commands
                (λ t, score_action rB dB (keepalive_tokens r !! t))
                (elements (assigned_tokens r)) rd t) as Hv.
  rewrite decide_True in Hv by by apply elem_of_elements.
  rewrite Hk in Hv. unfold score_action in Hv.
  rewrite bool_decide_eq_false_2, bool_decide_eq_true_2 in Hv
    by (unfold rB, dB; lia).
  assert (view rd t = (false, false, None)) as Hrd.
  { unfold view, rd. simpl. rewrite lookup_delete_eq.
    rewrite (bool_decide_eq_false_2 (t ∈ token_pool r ∖ {[t]})) by set_solver.
    by rewrite (bool_decide_eq_false_2 (t ∈ assigned_tokens r ∖ {[t]}))
      by set_solver. }
  rewrite Hrd in Hv. cbn [action_on] in Hv.
  apply view_membership in Hv as (Hp & _ & Hk'). split; [by apply Hp|done].
Qed.

Lemma Delete_between_scan_and_Exec_is_undone_witness :
  let releaseBefore := 1130 - TokenAutoReleaseTime in
  let deleteBefore := 1130 - TokenDeletionTime in
  let scanned :=
    interleave no_faults no_faults releaseBefore deleteBefore
      (replicate (S (size (assigned_tokens store_assigned))) true)
      (Fetching, Fetching, []) store_assigned in
  let deleted := DeleteToken no_faults "a1" scanned.1 in
  let r' := (assigned_step no_faults releaseBefore deleteBefore
               scanned.2.1.1 deleted.1).1 in
  scanned.1 = store_assigned
  ∧ (∃ pipe res, scanned.2.1.1 = Scanning [] pipe res)
  ∧ deleted.2 = None ∧ Absent deleted.1 "a1"
  ∧ "a1" ∈ token_pool r' ∧ keepalive_tokens r' !! "a1" = None.
Proof.
  apply (Delete_between_scan_and_Exec_is_undone 1130 1060 "a1" store_assigned).
  - by_compute.
  - vm_compute. reflexivity.
  - unfold TokenDeletionTime, TokenAutoReleaseTime. lia.
Defined.

(** ** Generate when the keepalive entry cannot be written *)

(** X24. A half-done Generate. When the SADD of SaveToken answers and its
    ZADD fails, the handler answers 500 "Failed to generate token", yet the
    id is in the pool, where Assign can pop it; its keepalive entry is what
    it was before, and when it has none the next Reconcile whose calls
    answer takes it out of the pool, whatever its age. *)
Theorem failed_Generate_leaves_the_token_in_the_pool
    (f : Faults) (now : Z) (uuid : string) (r : Redis) :
  sadd_fails f = false → zadd_fails f = true →
  let out := TokenHandler.GenerateToken f now uuid r in
  out.2 = mkResponse StatusInternalServerError "error"
            (JString "Failed to generate token")
  ∧ uuid ∈ token_pool out.1
  ∧ keepalive_tokens out.1 !! uuid = keepalive_tokens r !! uuid
  ∧ (keepalive_tokens r !! uuid = None →
     ∀ turns now',
       uuid ∉ token_pool
                (cleanupExpiredTokens_interleaved turns no_faults no_faults
                   now' out.1).1).
Proof.
  intros Hs Hz. cbv zeta.
  unfold TokenHandler.GenerateToken, GenerateToken, SaveToken. unfold_st.
  rewrite Hs. simpl. rewrite Hz. simpl.
  split; [done|]. split; [set_solver|]. split; [done|].
  intros Hk turns now'.
  destruct (interleaved_run_characterised turns now'
              (mkRedis ({[uuid]} ∪ token_pool r) (assigned_tokens r)
                 (keepalive_tokens r) (lock_keys r))) as (Hv & _ & _).
  cbv zeta in Hv. specialize (Hv uuid). unfold view in Hv at 2.
  simpl in Hv. rewrite Hk in Hv.
  rewrite (bool_decide_eq_true_2 (uuid ∈ {[uuid]} ∪ token_pool r)) in Hv
    by set_solver.
  intros Hin.
  destruct (bool_decide (uuid ∈ assigned_tokens r));
    unfold pool_sweep_on, assigned_sweep_on in Hv; simpl in Hv;
    apply view_membership in Hv as (Hp & _ & _); by apply Hp in Hin.
Qed.

(** Only the ZADD of the call fails. *)
Definition zadd_fails_only : Faults :=
  mkFaults false true false false (λ _, false) false (λ _, false) false
    false.

Lemma failed_Generate_leaves_the_token_in_the_pool_witness :
  let out := TokenHandler.GenerateToken zadd_fails_only 1000 "a1" empty_store in
  out.2 = mkResponse StatusInternalServerError "error"
            (JString "Failed to generate token")
  ∧ "a1" ∈ token_pool out.1
  ∧ keepalive_tokens out.1 !! "a1" = keepalive_tokens empty_store !! "a1"
  ∧ (keepalive_tokens empty_store !! "a1" = None →
     ∀ turns now',
       "a1" ∉ token_pool
                (cleanupExpiredTokens_interleaved turns no_faults no_faults
                   now' out.1).1).
Proof.
  apply (failed_Generate_leaves_the_token_in_the_pool zadd_fails_only 1000 "a1"
           empty_store); reflexivity.
Defined.

(** ** the cleanup worker *)

(** The ticks of the worker when no call of a cleanup fails: the order of
    the sweeps and the current time of each run. *)
Definition ticks (runs : list (schedule * Z)) : list (event cleanup_inputs) :=
  map (λ '(sched, now),
         @Tick cleanup_inputs (sched, no_faults, no_faults, now)) runs.

Lemma worker_loop_tick client (e : cleanup_inputs) events log r :
  ∃ log',
    worker_loop client run_cleanup (Tick e :: events) log r
    = worker_loop client run_cleanup events log'
        (CleanupExpiredTokens e.1.1.1 e.1.1.2 e.1.2 e.2 r).1.
Proof.
  destruct e as [[[sched fa] fp] now]. cbn [worker_loop fst snd].
  rewrite St_bind_run. unfold run_cleanup, TokenService.CleanupExpiredTokens.
  destruct (CleanupExpiredTokens sched fa fp now r).2; by eexists.
Qed.

(** X25. The worker keeps I1: whatever it receives, whichever calls of its
    cleanups fail, a store in which no token is both available and assigned
    is still such a store when the worker stops or waits for its next
    tick. *)
Theorem cleanup_worker_keeps_I1
    (client : string) (events : list (event cleanup_inputs)) (r : Redis) :
  I1 r → I1 (cleanup_worker client events r).1.
Proof.
  unfold cleanup_worker, StartCleanupWorker.
  generalize [LogInfo "Cleanup worker started"]. revert r.
  induction events as [|[e|] events IH]; intros r log Hr; [done| |done].
  destruct (worker_loop_tick client e events log r) as [log' ->].
  apply IH. by apply I1_CleanupExpiredTokens.
Qed.

Lemma cleanup_worker_keeps_I1_witness :
  I1 (cleanup_worker "connection refused"
        [Tick (AssignedThenPool, no_faults, exec_fails_only, 1300);
         Tick (PoolThenAssigned, no_faults, no_faults, 1310); Done]
        store_two_tokens).1.
Proof.
  apply cleanup_worker_keeps_I1.
  apply reachable_I1, reachable_store_two_tokens.
Defined.

(** A token in neither set stays there through a cleanup. *)
Lemma reconcile_view_absent sched now r t k :
  view r t = (false, false, k) →
  view (CleanupExpiredTokens sched no_faults no_faults now r).1 t
  = (false, false, k).
Proof. intros Hv. by rewrite reconcile_view, Hv. Qed.

Lemma worker_view_absent client runs tail log r t k :
  view r t = (false, false, k) →
  view (worker_loop client run_cleanup (ticks runs ++ Done :: tail) log r).1 t
  = (false, false, k).
Proof.
  revert r log. induction runs as [|[sched now] runs IH]; intros r log Hv.
  - done.
  - change (ticks ((sched, now) :: runs) ++ Done :: tail)
      with (@Tick cleanup_inputs (sched, no_faults, no_faults, now)
              :: (ticks runs ++ Done :: tail)).
    destruct (worker_loop_tick client (sched, no_faults, no_faults, now)
                (ticks runs ++ Done :: tail) log r) as [log' ->].
    apply IH. cbn [fst snd]. by apply reconcile_view_absent.
Qed.

(** X26. How long a token lives in the pool under the worker. A token that
    is in the pool with the score T (Generate wrote the time of its
    creation) and is not touched by any other call is still in the pool when
    the worker stops exactly when every cleanup the worker ran, none of their
    calls failing, ran before T + TokenDeletionTime; the first cleanup at or
    after that instant deletes it, and it does not come back. *)
Theorem pooled_token_outlives_the_worker_iff
    (client : string) (runs : list (schedule * Z))
    (tail : list (event cleanup_inputs)) (T : Z) (t : string) (r : Redis) :
  t ∈ token_pool r → t ∉ assigned_tokens r →
  keepalive_tokens r !! t = Some T →
  t ∈ token_pool (cleanup_worker client (ticks runs ++ Done :: tail) r).1
  ↔ Forall (λ run, run.2 < T + TokenDeletionTime) runs.
Proof.
  intros Hp Ha Hk.
  assert (view r t = (true, false, Some T)) as Hv.
  { unfold view. rewrite Hk.
    by rewrite (bool_decide_eq_true_2 _ Hp), (bool_decide_eq_false_2 _ Ha). }
  clear Hp Ha Hk.
  unfold cleanup_worker, StartCleanupWorker.
  generalize [LogInfo "Cleanup worker started"]. revert r Hv.
  induction runs as [|[sched now] runs IH]; intros r Hv log.
  - cbn [ticks map app worker_loop mret St_ret fst].
    apply view_membership in Hv as (Hp & _). split; [by constructor|].
    intros _. by apply Hp.
  - change (ticks ((sched, now) :: runs) ++ Done :: tail)
      with (@Tick cleanup_inputs (sched, no_faults, no_faults, now)
              :: (ticks runs ++ Done :: tail)).
    destruct (worker_loop_tick client (sched, no_faults, no_faults, now)
                (ticks runs ++ Done :: tail) log r) as [log' ->].
    cbn [fst snd].
    pose proof (reconcile_view sched now r t) as Hv'. rewrite Hv in Hv'.
    unfold pool_sweep_on, assigned_sweep_on, score_decision in Hv'.
    cbn [fst snd pool_on] in Hv'. rewrite Forall_cons. cbn [snd].
    case_bool_decide as Hnow; cbn [pool_on] in Hv'.
    + pose proof (worker_view_absent client runs tail log' _ t None Hv') as Hend.
      apply view_membership in Hend as (Hp & _).
      split; [intros Hin; by apply Hp in Hin|].
      unfold TokenDeletionTime in *. intros [? _]. lia.
    + rewrite (IH _ Hv' log').
      unfold TokenDeletionTime in *. split; [|by intros [_ ?]].
      intros ?. split; [lia|done].
Qed.

Lemma pooled_token_outlives_the_worker_iff_witness :
  "a1" ∈ token_pool
           (cleanup_worker "connection refused"
              (ticks [(AssignedThenPool, 1290); (PoolThenAssigned, 1300)]
               ++ Done :: [])
              store_generated).1
  ↔ Forall (λ run, run.2 < 1000 + TokenDeletionTime)
      [(AssignedThenPool, 1290); (PoolThenAssigned, 1300)].
Proof.
  apply (pooled_token_outlives_the_worker_iff "connection refused"
           [(AssignedThenPool, 1290); (PoolThenAssigned, 1300)] [] 1000 "a1"
           store_generated).
  - by_compute.
  - by_compute.
  - vm_compute. reflexivity.
Defined.

(** ** the handlers *)

(** X27. What the Assign handler answers, the text of a client error not
    being that of ErrNoAvailableTokens. It answers 404 exactly when SPOP
    answers and the pool is empty, and it has then left the store as it was;
    it answers 200 with a token exactly when the repository returns that
    token; in every other case, a token whose lock key is still held
    included, it answers 500. *)
Theorem Assign_handler_answers
    (client : string) (f : Faults) (now : Z) (pick : string) (r : Redis) :
  client ≠ Error client ErrNoAvailableTokens →
  let out := TokenHandler.AssignToken client f now pick r in
  out.1 = (AssignToken f now pick r).1
  ∧ (code out.2 = StatusNotFound ↔ spop_fails f = false ∧ token_pool r = ∅)
  ∧ (code out.2 = StatusNotFound →
     out = (r, mkResponse StatusNotFound "error"
                 (JString "no available tokens in pool")))
  ∧ (∀ token, out.2 = mkResponse StatusOK "token" (JString token)
              ↔ (AssignToken f now pick r).2 = Ok token)
  ∧ (code out.2 ≠ StatusNotFound →
     (∀ token, (AssignToken f now pick r).2 ≠ Ok token) →
     out.2 = mkResponse StatusInternalServerError "error"
               (JString "Failed to assign token")).
Proof.
  intros Hclient. cbv zeta.
  unfold TokenHandler.AssignToken, TokenService.AssignToken.
  rewrite St_bind_run, AssignToken_run.
  destruct (spop_fails f).
  { cbn [fst snd]. rewrite bool_decide_eq_false_2 by done.
    unfold mret, St_ret. cbn [fst snd code].
    repeat split; try done; by intros [? _]. }
  destruct (spop_choice pick (token_pool r)) as [token|] eqn:Hpick.
  - assert (token_pool r ≠ ∅) as Hne.
    { intros He. apply spop_choice_None with (pick := pick) in He. congruence. }
    cbv zeta.
    destruct (setnx_fails f), (key_live now (lock_key token) r),
      (exec_fails f); cbn [fst snd];
      rewrite ?(bool_decide_eq_false_2 _ Hclient);
      unfold mret, St_ret; cbn [fst snd code];
      repeat split; try done; try (by intros [_ ?]);
      try (by intros [= ->]);
      try (by intros _ Hnot; exfalso; eapply Hnot).
  - apply spop_choice_None in Hpick. cbn [fst snd].
    unfold mret, St_ret. cbn [fst snd code]. repeat split; try done.
Qed.

Lemma Assign_handler_answers_witness :
  let out := TokenHandler.AssignToken "connection refused" no_faults 1000 "a1"
               empty_store in
  out.1 = (AssignToken no_faults 1000 "a1" empty_store).1
  ∧ (code out.2 = StatusNotFound
     ↔ spop_fails no_faults = false ∧ token_pool empty_store = ∅)
  ∧ (code out.2 = StatusNotFound →
     out = (empty_store,
            mkResponse StatusNotFound "error"
              (JString "no available tokens in pool")))
  ∧ (∀ token, out.2 = mkResponse StatusOK "token" (JString token)
              ↔ (AssignToken no_faults 1000 "a1" empty_store).2 = Ok token)
  ∧ (code out.2 ≠ StatusNotFound →
     (∀ token, (AssignToken no_faults 1000 "a1" empty_store).2 ≠ Ok token) →
     out.2 = mkResponse StatusInternalServerError "error"
               (JString "Failed to assign token")).
Proof.
  apply (Assign_handler_answers "connection refused" no_faults 1000 "a1"
           empty_store).
  vm_compute. discriminate.
Defined.

(** X28. A token the store does not know is answered 500, never 404: for a
    token that is in neither set and has no keepalive entry, the handlers of
    KeepAlive, Unblock and Delete each answer StatusInternalServerError with
    their generic message and leave the store as it was, whichever calls
    fail. *)
Theorem unknown_token_is_answered_500
    (f : Faults) (now : Z) (token : string) (r : Redis) :
  token ∉ token_pool r → token ∉ assigned_tokens r →
  keepalive_tokens r !! token = None →
  TokenHandler.KeepAlive (Some token) f now r
  = (r, mkResponse StatusInternalServerError "error"
          (JString "Failed to keep token alive"))
  ∧ TokenHandler.UnblockToken (Some token) f now r
    = (r, mkResponse StatusInternalServerError "error"
            (JString "Failed to unblock token"))
  ∧ TokenHandler.DeleteToken (Some token) f r
    = (r, mkResponse StatusInternalServerError "error"
            (JString "Failed to delete token")).
Proof.
  intros Hp Ha Hk. split; [|split].
  - unfold TokenHandler.KeepAlive, TokenService.KeepTokenAlive.
    rewrite St_bind_run, KeepAlive_run.
    rewrite (bool_decide_eq_false_2 _ Hp), (bool_decide_eq_false_2 _ Ha).
    by destruct (sismember_fails f KeyTokenPool),
      (sismember_fails f KeyAssignedTokens).
  - unfold TokenHandler.UnblockToken, TokenService.UnblockToken.
    rewrite St_bind_run, UnblockToken_run.
    rewrite (bool_decide_eq_false_2 _ Ha).
    by destruct (sismember_fails f KeyAssignedTokens).
  - unfold TokenHandler.DeleteToken, TokenService.DeleteToken.
    rewrite St_bind_run.
    destruct (exec_fails f) eqn:He.
    + by rewrite (DeleteToken_fails f token r He).
    + rewrite (DeleteToken_exec f token r He). cbn [fst snd].
      rewrite (bool_decide_eq_false_2 _ Hp), (bool_decide_eq_false_2 _ Ha).
      rewrite Hk.
      rewrite (bool_decide_eq_false_2 (is_Some (@None Z)))
        by (by intros [? ?]).
      unfold mret, St_ret. cbn [orb]. f_equal.
      apply store_eq; simpl; [set_solver|set_solver| |done].
      by apply delete_id.
Qed.

Lemma unknown_token_is_answered_500_witness :
  TokenHandler.KeepAlive (Some "zz") no_faults 1000 store_assigned
  = (store_assigned,
     mkResponse StatusInternalServerError "error"
       (JString "Failed to keep token alive"))
  ∧ TokenHandler.UnblockToken (Some "zz") no_faults 1000 store_assigned
    = (store_assigned,
       mkResponse StatusInternalServerError "error"
         (JString "Failed to unblock token"))
  ∧ TokenHandler.DeleteToken (Some "zz") no_faults store_assigned
    = (store_assigned,
       mkResponse StatusInternalServerError "error"
         (JString "Failed to delete token")).
Proof.
  apply (unknown_token_is_answered_500 no_faults 1000 "zz" store_assigned).
  - by_compute.
  - by_compute.
  - vm_compute. reflexivity.
Defined.
